(** * BEAST toothpick fitting pipeline: [fit_memory.py]

    A shallow embedding of [projects/phat_toothpick/fit_memory.py]
    ([save_stats], [save_pdf1d], [save_lnp], [Q_all_memory],
    [IAU_names_and_extra_info], [summary_table_memory]) and the properties
    of it that the specification states.

    Numbers.  numpy's float64 values are idealised as extended reals
    ([npfloat]): a finite real, the two infinities, or NaN.  Rounding,
    overflow and signed zeros are not modelled; the special values follow
    IEEE 754 (NaN compares false with everything, inf - inf is NaN).

    Effects.  Files live in a [World] (summary tables, 1D PDF FITS files,
    HDF5 likelihood archives, stored grids) together with numpy's global
    random generator.  Code that touches them runs in the monad [M], which
    threads the world and carries Python exceptions; pure code that can
    raise runs in [result]. *)

From Stdlib Require Import Reals Lra Lia.
From stdpp Require Import base gmap strings list pretty.

(** ** Python exceptions and the two monads *)

Inductive exn :=
  | ValueError (msg : string)
  | KeyError (msg : string)
  | IndexError
  | TypeError
  | ZeroDivisionError
  | IOError (path : string)
  | HDF5ExtError (path : string)
  | NodeError (name : string).

Inductive result (A : Type) :=
  | Ok (a : A)
  | Raise (e : exn).
Arguments Ok {A} a.
Arguments Raise {A} e.

#[global] Instance result_ret : MRet result := @Ok.
#[global] Instance result_bind : MBind result :=
  λ A B f m, match m with Ok a => f a | Raise e => Raise e end.
#[global] Instance result_fmap : FMap result :=
  λ A B f m, match m with Ok a => Ok (f a) | Raise e => Raise e end.

(** [mapR f l]: a Python loop or comprehension whose body can raise. *)
Fixpoint mapR {A B} (f : A → result B) (l : list A) : result (list B) :=
  match l with
  | [] => Ok []
  | x :: l' => y ← f x; ys ← mapR f l'; Ok (y :: ys)
  end.

Fixpoint foldR {A S} (f : S → A → result S) (s : S) (l : list A) : result S :=
  match l with
  | [] => Ok s
  | x :: l' => s' ← f s x; foldR f s' l'
  end.

(** ** Idealised float64 *)

Inductive npfloat :=
  | Fin (r : R)
  | PInf
  | NInf
  | NaN.

#[global] Instance Rlt_decision (a b : R) : Decision (a < b)%R := Rlt_dec a b.
#[global] Instance Rgt_decision (a b : R) : Decision (a > b)%R := Rgt_dec a b.
#[global] Instance Req_decision : EqDecision R := Req_dec_T.
#[global] Instance npfloat_eq_dec : EqDecision npfloat.
Proof. solve_decision. Defined.

Definition isfinite (x : npfloat) : bool :=
  match x with Fin _ => true | _ => false end.

Definition isnan (x : npfloat) : bool :=
  match x with NaN => true | _ => false end.

Definition fneg (x : npfloat) : npfloat :=
  match x with
  | Fin r => Fin (- r)
  | PInf => NInf
  | NInf => PInf
  | NaN => NaN
  end.

Definition fadd (a b : npfloat) : npfloat :=
  match a, b with
  | NaN, _ | _, NaN => NaN
  | Fin x, Fin y => Fin (x + y)
  | PInf, NInf | NInf, PInf => NaN
  | PInf, _ | _, PInf => PInf
  | NInf, _ | _, NInf => NInf
  end.

Definition fsub (a b : npfloat) : npfloat := fadd a (fneg b).

(** [a > b] on floats: false as soon as a NaN is involved. *)
Definition fgt (a b : npfloat) : bool :=
  match a, b with
  | Fin x, Fin y => bool_decide (x > y)%R
  | PInf, Fin _ | PInf, NInf | Fin _, NInf => true
  | _, _ => false
  end.

Definition flt (a b : npfloat) : bool := fgt b a.

(** [a != b]: true as soon as a NaN is involved. *)
Definition fne (a b : npfloat) : bool :=
  match a, b with
  | NaN, _ | _, NaN => true
  | _, _ => bool_decide (a ≠ b)
  end.

Definition fdiv (a b : npfloat) : npfloat :=
  match a, b with
  | NaN, _ | _, NaN => NaN
  | Fin x, Fin y =>
      if decide (y = 0)%R then
        if decide (x = 0)%R then NaN
        else if decide (x > 0)%R then PInf else NInf
      else Fin (x / y)
  | Fin _, _ => Fin 0
  | _, PInf | _, NInf => NaN
  | PInf, Fin y => if decide (y < 0)%R then NInf else PInf
  | NInf, Fin y => if decide (y < 0)%R then PInf else NInf
  end.

Definition fexp (x : npfloat) : npfloat :=
  match x with
  | Fin r => Fin (exp r)
  | PInf => PInf
  | NInf => Fin 0
  | NaN => NaN
  end.

(** [np.log]: -inf at 0, NaN below. *)
Definition flog (x : npfloat) : npfloat :=
  match x with
  | Fin r =>
      if decide (r > 0)%R then Fin (ln r)
      else if decide (r = 0)%R then NInf else NaN
  | PInf => PInf
  | _ => NaN
  end.

Definition fzero : npfloat := Fin 0.
Definition of_nat (n : nat) : npfloat := Fin (INR n).
Definition of_Z (z : Z) : npfloat := Fin (IZR z).

(** ** numpy and builtin helpers *)

(** [np.zeros(n)], [np.zeros((n, m))], [np.zeros((n, m, l))]. *)
Definition zeros1 (n : nat) : list npfloat := replicate n fzero.
Definition zeros2 (n m : nat) : list (list npfloat) := replicate n (zeros1 m).
Definition zeros3 (n m l : nat) : list (list (list npfloat)) :=
  replicate n (zeros2 m l).

(** [np.where(cond)] on a 1D array: the positions where [cond] holds, in
    increasing order. *)
Fixpoint np_where_from {A} (f : A → bool) (i : nat) (l : list A) : list nat :=
  match l with
  | [] => []
  | x :: l' =>
      if f x then i :: np_where_from f (S i) l' else np_where_from f (S i) l'
  end.
Definition np_where {A} (f : A → bool) (l : list A) : list nat :=
  np_where_from f 0 l.

(** [a[idx]] with an integer index array: every index must be in range. *)
Definition take_idx {A} (a : list A) (idx : list nat) : result (list A) :=
  mapR (λ i, match a !! i with Some x => Ok x | None => Raise IndexError end) idx.

(** [a[i]] *)
Definition get1 {A} (a : list A) (i : nat) : result A :=
  match a !! i with Some x => Ok x | None => Raise IndexError end.

(** [a[i] = v] *)
Definition set1 {A} (i : nat) (v : A) (a : list A) : result (list A) :=
  if decide (i < length a) then Ok (<[i := v]> a) else Raise IndexError.

(** Broadcasting a 1D value into a slot of [n] entries, as an assignment
    [a[..., :] = vals] does: the lengths agree, or [vals] has one entry. *)
Definition broadcast1 {A} (n : nat) (vals : list A) : result (list A) :=
  if decide (length vals = n) then Ok vals
  else match vals with
       | [v] => Ok (replicate n v)
       | _ => Raise (ValueError "could not broadcast input array")
       end.

(** [a[i, :] = vals] on a 2D array. *)
Definition set_row {A} (i : nat) (vals : list A) (a : list (list A))
  : result (list (list A)) :=
  row ← get1 a i;
  row' ← broadcast1 (length row) vals;
  Ok (<[i := row']> a).

(** [a[i, k] = v] on a 2D array. *)
Definition set2 {A} (i k : nat) (v : A) (a : list (list A))
  : result (list (list A)) :=
  row ← get1 a i;
  row' ← set1 k v row;
  Ok (<[i := row']> a).

(** [a[i, k, :] = vals] on a 3D array. *)
Definition set_row3 {A} (i k : nat) (vals : list A) (a : list (list (list A)))
  : result (list (list (list A))) :=
  plane ← get1 a i;
  plane' ← set_row k vals plane;
  Ok (<[i := plane']> a).

(** [a[:, k]] and [a[:, k, i]]. *)
Definition col2 {A} (k : nat) (a : list (list A)) : result (list A) :=
  mapR (λ row, get1 row k) a.
Definition col3 {A} (k i : nat) (a : list (list (list A))) : result (list A) :=
  mapR (λ plane, row ← get1 plane k; get1 row i) a.

(** [a[:, k] = vals] on a 2D array (the column is broadcast over the rows). *)
Definition set_col2 {A} (k : nat) (vals : list A) (a : list (list A))
  : result (list (list A)) :=
  vals' ← broadcast1 (length a) vals;
  mapR (λ rv, set1 k rv.2 rv.1) (zip a vals').

(** [a[:, k, i] = vals] on a 3D array. *)
Definition set_col3 {A} (k i : nat) (vals : list A) (a : list (list (list A)))
  : result (list (list (list A))) :=
  vals' ← broadcast1 (length a) vals;
  mapR (λ pv, row ← get1 pv.1 k; row' ← set1 i pv.2 row; Ok (<[k := row']> pv.1))
       (zip a vals').

(** Python's builtin [max] on a sequence of floats: the first of the
    largest entries; [ValueError] on an empty sequence. *)
Definition py_max (l : list npfloat) : result npfloat :=
  match l with
  | [] => Raise (ValueError "max() arg is an empty sequence")
  | x :: l' => Ok (foldl (λ cur y, if fgt y cur then y else cur) x l')
  end.

(** Builtin [max] on a sequence of integers. *)
Definition py_max_nat (l : list nat) : result nat :=
  match l with
  | [] => Raise (ValueError "max() arg is an empty sequence")
  | x :: l' => Ok (foldl Nat.max x l')
  end.

(** [a.max()], [a.min()]: NaN wins; [ValueError] on a zero-size array. *)
Definition fmax_nan (cur y : npfloat) : npfloat :=
  if isnan cur then cur else if isnan y then y else if fgt y cur then y else cur.
Definition fmin_nan (cur y : npfloat) : npfloat :=
  if isnan cur then cur else if isnan y then y else if flt y cur then y else cur.

Definition np_max (l : list npfloat) : result npfloat :=
  match l with
  | [] => Raise (ValueError "zero-size array to reduction operation maximum")
  | x :: l' => Ok (foldl fmax_nan x l')
  end.
Definition np_min (l : list npfloat) : result npfloat :=
  match l with
  | [] => Raise (ValueError "zero-size array to reduction operation minimum")
  | x :: l' => Ok (foldl fmin_nan x l')
  end.

(** [a.argmax()], [a.argmin()]: the first position of the extreme value
    (of the first NaN when there is one). *)
Fixpoint arg_best (better : npfloat → npfloat → bool) (l : list npfloat)
    (i bi : nat) (bv : npfloat) : nat :=
  match l with
  | [] => bi
  | x :: l' =>
      if better x bv then arg_best better l' (S i) i x
      else arg_best better l' (S i) bi bv
  end.
Definition nan_or (cmp : npfloat → npfloat → bool) (x cur : npfloat) : bool :=
  if isnan cur then false else if isnan x then true else cmp x cur.

Definition np_argmax (l : list npfloat) : result nat :=
  match l with
  | [] => Raise (ValueError "attempt to get argmax of an empty sequence")
  | x :: l' => Ok (arg_best (nan_or fgt) l' 1 0 x)
  end.
Definition np_argmin (l : list npfloat) : result nat :=
  match l with
  | [] => Raise (ValueError "attempt to get argmin of an empty sequence")
  | x :: l' => Ok (arg_best (nan_or flt) l' 1 0 x)
  end.

(** [a.sum()] *)
Definition np_sum (l : list npfloat) : npfloat := foldl fadd fzero l.

(** [len(np.unique(q))] *)
Definition n_unique (q : list npfloat) : nat := length (remove_dups q).

(** ** Strings: [string.find] and [string.replace] *)

(** [string.find(s, sub)]: the first position where [sub] occurs, [None]
    standing for Python's -1. *)
Fixpoint py_find_from (sub : string) (i : nat) (s : string) : option nat :=
  if String.prefix sub s then Some i
  else match s with
       | EmptyString => None
       | String _ s' => py_find_from sub (S i) s'
       end.
Definition py_find (s sub : string) : option nat := py_find_from sub 0 s.

(** [string.replace(s, old, new)] for a non-empty [old]: every occurrence of
    [old], scanning from the left without overlap, becomes [new].  [skip]
    counts the characters of a matched occurrence still to be dropped. *)
Fixpoint replace_from (old new : string) (skip : nat) (s : string) : string :=
  match s with
  | EmptyString => EmptyString
  | String c s' =>
      match skip with
      | S k => replace_from old new k s'
      | O =>
          if String.prefix old s
          then new +:+ replace_from old new (String.length old - 1) s'
          else String c (replace_from old new 0 s')
      end
  end.
Definition py_replace (s old new : string) : string := replace_from old new 0 s.

(** The double quote character (used in the key-error message). *)
Definition dquote : string := String (Ascii.ascii_of_nat 34) EmptyString.

(** ** Data model *)

(** A table column: numbers, or strings (source names). *)
Inductive column :=
  | NumCol (v : list npfloat)
  | StrCol (v : list string).

(** An [astropy.table.Table] and the [dict] it is built from: columns by
    name. *)
Abbreviation Table := (gmap string column).

(** One HDU of a FITS file: its [EXTNAME] (none for the primary HDU) and its
    2D image. *)
Record HDU := mkHDU {
  extname : option string;
  hdu_data : list (list npfloat)
}.

(** A node of an HDF5 file's root: an array, or a group of arrays. *)
Inductive h5data :=
  | H5Float (v : list npfloat)
  | H5Float2 (v : list (list npfloat))
  | H5Int (v : list nat)
  | H5Str (v : list string).

Inductive h5node :=
  | H5Array (data : h5data)
  | H5Group (title : string) (members : gmap string h5data).

(** An HDF5 file on disk: unreadable (left half-written by a job that died),
    or a tree under its root. *)
Inductive h5file :=
  | Corrupted
  | Archive (root : gmap string h5node).

(** The model grid [g0]: its named columns in order (among them [weight] and
    [specgrid_indx]), the flux matrix [seds] and the wavelength axis [lamb]. *)
Record SEDGrid := mkGrid {
  cols : list (string * list npfloat);
  seds : list (list npfloat);
  lamb : list npfloat
}.

(** [g0.keys()] and [g0[name]]. *)
Definition grid_keys (g : SEDGrid) : list string := (cols g).*1.
Definition grid_get (g : SEDGrid) (name : string) : result (list npfloat) :=
  match list_find (λ c, c.1 = name) (cols g) with
  | Some (_, c) => Ok c.2
  | None => Raise (KeyError name)
  end.

(** The observation catalogue: its data columns, filter names, Vega fluxes
    and the flux vectors of its stars. *)
Record Observations := mkObs {
  obs_data : gmap string column;
  obs_filters : list string;
  vega_flux : list npfloat;
  obs_seds : list (list npfloat)
}.

(** [len(obs)] *)
Definition obs_len (obs : Observations) : nat := length (obs_seds obs).

(** Modelled from the spec: [obs.enumobs()] of the observation collaborator,
    whose code is not part of this file; it is "an enumeration producing
    (index, flux-vector) pairs in increasing index order". *)
Definition enumobs (obs : Observations) : list (nat * list npfloat) :=
  imap (λ e sed, (e, sed)) (obs_seds obs).

(** [itertools.islice(it, start, None)] *)
Definition islice {A} (it : list A) (start : nat) : list A := drop start it.

(** The noise model: [ast.root.error[:]] and [ast.root.bias[:]]. *)
Record NoiseModel := mkNoise {
  nm_error : list (list npfloat);
  nm_bias : list (list npfloat)
}.

(** One pending entry of [save_lnp_vals]:
    [[e, grid indices, lnp, chi2, np.array([sed]).T]]. *)
Record lnp_entry := mkEntry {
  le_star : nat;
  le_idx : list nat;
  le_lnp : list npfloat;
  le_chi2 : list npfloat;
  le_input : list (list npfloat)
}.

(** ** The world and the monad [M] *)

Record World := mkWorld {
  stats_files : gmap string Table;
  pdf1d_files : gmap string (list HDU);
  lnp_files : gmap string h5file;
  grid_files : gmap string SEDGrid;
  rng : nat → nat;       (* the raw draws of numpy's global generator *)
  rng_pos : nat          (* how many of them were consumed *)
}.

Definition set_stats (f : gmap string Table → gmap string Table) (w : World) : World :=
  mkWorld (f (stats_files w)) (pdf1d_files w) (lnp_files w) (grid_files w)
          (rng w) (rng_pos w).
Definition set_pdf1d (f : gmap string (list HDU) → gmap string (list HDU))
    (w : World) : World :=
  mkWorld (stats_files w) (f (pdf1d_files w)) (lnp_files w) (grid_files w)
          (rng w) (rng_pos w).
Definition set_lnp (f : gmap string h5file → gmap string h5file) (w : World) : World :=
  mkWorld (stats_files w) (pdf1d_files w) (f (lnp_files w)) (grid_files w)
          (rng w) (rng_pos w).
Definition set_rng_pos (n : nat) (w : World) : World :=
  mkWorld (stats_files w) (pdf1d_files w) (lnp_files w) (grid_files w) (rng w) n.

Definition M (A : Type) : Type := World → result A * World.

#[global] Instance M_ret : MRet M := λ A a w, (Ok a, w).
#[global] Instance M_bind : MBind M :=
  λ A B f m w, match m w with
               | (Ok a, w') => f a w'
               | (Raise e, w') => (Raise e, w')
               end.

#[global] Instance M_fmap : FMap M :=
  λ A B f m w, match m w with
               | (Ok a, w') => (Ok (f a), w')
               | (Raise e, w') => (Raise e, w')
               end.

Definition raise {A} (e : exn) : M A := λ w, (Raise e, w).
Definition lift {A} (r : result A) : M A := λ w, (r, w).
Definition get_world : M World := λ w, (Ok w, w).
Definition modify_world (f : World → World) : M unit := λ w, (Ok (), f w).

(** [try: m  except <handled>: h]. *)
Definition try_except {A} (m : M A) (handled : exn → bool) (h : exn → M A) : M A :=
  λ w, match m w with
       | (Raise e, w') => if handled e then h e w' else (Raise e, w')
       | r => r
       end.

(** A [for] loop whose body updates the loop-carried state [s]. *)
Fixpoint forM {A S} (l : list A) (body : A → S → M S) (s : S) : M S :=
  match l with
  | [] => mret s
  | x :: l' => s' ← body x s; forM l' body s'
  end.

(** [when c m]: [if c: m]. *)
Definition when (c : bool) (m : M unit) : M unit := if c then m else mret ().

(** ** File operations *)

(** [Table.read(name)]; [stats_outname] may be [None]. *)
Definition Table_read (name : option string) : M Table :=
  λ w, match name with
       | None => (Raise TypeError, w)
       | Some path =>
           match stats_files w !! path with
           | Some t => (Ok t, w)
           | None => (Raise (IOError path), w)
           end
       end.

(** [table.write(name, overwrite=True)] *)
Definition Table_write (name : string) (t : Table) : M unit :=
  modify_world (set_stats <[name := t]>).

(** [stats_table[name]], read as an array of numbers. *)
Definition table_num (t : Table) (name : string) : result (list npfloat) :=
  match t !! name with
  | Some (NumCol v) => Ok v
  | Some (StrCol _) => Raise (ValueError "could not convert string to float")
  | None => Raise (KeyError name)
  end.

(** [fits.writeto(name, data, clobber=True)]: a file with one primary HDU. *)
Definition fits_writeto (name : string) (data : list (list npfloat)) : M unit :=
  modify_world (set_pdf1d <[name := [mkHDU None data]]>).

(** [fits.append(name, data, header=...)]: one more HDU at the end (the file
    is created when it is missing). *)
Definition fits_append (name : string) (data : list (list npfloat))
    (ext : option string) : M unit :=
  modify_world (set_pdf1d (λ fs, <[name := default [] (fs !! name) ++ [mkHDU ext data]]> fs)).

(** [fits.open(name)] *)
Definition fits_open (name : string) : M (list HDU) :=
  λ w, match pdf1d_files w !! name with
       | Some hdus => (Ok hdus, w)
       | None => (Raise (IOError name), w)
       end.

Inductive file_mode := ModeW | ModeA.

(** [tables.openFile(name, mode)]; the handle is the file's name.  Mode 'w'
    starts an empty file, mode 'a' opens or creates one and fails on a file
    that cannot be read. *)
Definition openFile (name : string) (mode : file_mode) : M string :=
  λ w, match mode with
       | ModeW => (Ok name, set_lnp <[name := Archive ∅]> w)
       | ModeA =>
           match lnp_files w !! name with
           | Some Corrupted => (Raise (HDF5ExtError name), w)
           | Some (Archive _) => (Ok name, w)
           | None => (Ok name, set_lnp <[name := Archive ∅]> w)
           end
       end.

(** [outfile.createGroup('/', name, title=title)]: [NodeError] when the root
    already has a child of that name. *)
Definition createGroup (outfile name title : string) : M string :=
  λ w, match lnp_files w !! outfile with
       | Some (Archive root) =>
           match root !! name with
           | Some _ => (Raise (NodeError name), w)
           | None =>
               (Ok name,
                set_lnp <[outfile := Archive (<[name := H5Group title ∅]> root)]> w)
           end
       | _ => (Raise (HDF5ExtError outfile), w)
       end.

(** [outfile.createArray(outfile.root, name, data)] *)
Definition createArray_root (outfile name : string) (data : h5data) : M unit :=
  λ w, match lnp_files w !! outfile with
       | Some (Archive root) =>
           match root !! name with
           | Some _ => (Raise (NodeError name), w)
           | None =>
               (Ok (), set_lnp <[outfile := Archive (<[name := H5Array data]> root)]> w)
           end
       | _ => (Raise (HDF5ExtError outfile), w)
       end.

(** [outfile.createArray(group, name, data)] *)
Definition createArray (outfile group name : string) (data : h5data) : M unit :=
  λ w, match lnp_files w !! outfile with
       | Some (Archive root) =>
           match root !! group with
           | Some (H5Group title members) =>
               match members !! name with
               | Some _ => (Raise (NodeError name), w)
               | None =>
                   (Ok (),
                    set_lnp <[outfile :=
                      Archive (<[group := H5Group title (<[name := data]> members)]> root)]> w)
               end
           | _ => (Raise (NodeError group), w)
           end
       | _ => (Raise (HDF5ExtError outfile), w)
       end.

(** [outfile.close()] *)
Definition closeFile (outfile : string) : M unit := mret ().

(** ['star_%d' % e] and ["star %d" % e] *)
Definition star_name (e : nat) : string := "star_" +:+ pretty e.
Definition star_title (e : nat) : string := "star " +:+ pretty e.

(** ** [save_stats] *)

(** The column names ['{0:s}_Best'], ['{0:s}_Exp'], ['{0:s}_p{1:d}'].  The
    percentile ranks [p] are integral (as the default 16, 50, 84), so that
    [int(pval)] is [pval] itself. *)
Definition name_Best (qname : string) : string := qname +:+ "_Best".
Definition name_Exp (qname : string) : string := qname +:+ "_Exp".
Definition name_p (qname : string) (pval : Z) : string :=
  qname +:+ "_p" +:+ pretty pval.

(** The in-memory result arrays of [Q_all_memory]. *)
Record Mem := mkMem {
  best_vals : list (list npfloat);
  exp_vals : list (list npfloat);
  per_vals : list (list (list npfloat));
  chi2_vals : list npfloat;
  chi2_indx : list npfloat;
  lnp_vals : list npfloat;
  lnp_indx : list npfloat;
  best_specgrid_indx : list npfloat;
  save_pdf1d_vals : list (list (list npfloat));
  save_lnp_vals : list lnp_entry
}.

(** The dictionary [save_stats] fills (lines 65-78); [astype(int)] keeps the
    integral values the index arrays hold. *)
Definition stats_dict_of (stats_dict_in : Table) (mem : Mem)
    (qnames : list string) (p : list Z) : result Table :=
  d ← foldR (λ d kq,
         b ← col2 kq.1 (best_vals mem);
         x ← col2 kq.1 (exp_vals mem);
         let d := <[name_Exp kq.2 := NumCol x]> (<[name_Best kq.2 := NumCol b]> d) in
         foldR (λ d ip,
             c ← col3 kq.1 ip.1 (per_vals mem);
             Ok (<[name_p kq.2 ip.2 := NumCol c]> d))
           d (imap pair p))
       stats_dict_in (imap pair qnames);
  Ok (<["specgrid_indx" := NumCol (best_specgrid_indx mem)]>
      (<["Pmax_indx" := NumCol (lnp_indx mem)]>
       (<["Pmax" := NumCol (lnp_vals mem)]>
        (<["chi2min_indx" := NumCol (chi2_indx mem)]>
         (<["chi2min" := NumCol (chi2_vals mem)]> d))))).

Definition save_stats (stats_outname : option string) (stats_dict_in : Table)
    (mem : Mem) (qnames : list string) (p : list Z) : M unit :=
  summary_tab ← lift (stats_dict_of stats_dict_in mem qnames p);
  match stats_outname with
  | Some name => Table_write name summary_tab
  | None => mret ()
  end.

(** ** [save_pdf1d] *)

Definition save_pdf1d (pdf1d_outname : string)
    (vals : list (list (list npfloat))) (qnames : list string) : M unit :=
  fits_writeto pdf1d_outname (zeros2 2 2);;
  forM (imap pair qnames)
       (λ kq _, data ← lift (get1 vals kq.1);
                fits_append pdf1d_outname data (Some kq.2))
       ().

(** ** [save_lnp] *)

Definition is_NodeError (e : exn) : bool :=
  match e with NodeError _ => true | _ => false end.

(** The alternate archive name used when the archive cannot be opened. *)
Definition lnp_partial_name (lnp_outname : string) : string :=
  py_replace lnp_outname "lnp" "lnp_partial".

(** The body of the loop over the pending entries (lines 134-144). *)
Definition save_lnp_entry (outfile : string) (lnp_val : lnp_entry) : M unit :=
  let e := le_star lnp_val in
  star_group ← try_except (Some <$> createGroup outfile (star_name e) (star_title e))
                  is_NodeError (λ _, mret None);
  match star_group with
  | None => mret ()
  | Some g =>
      createArray outfile g "input" (H5Float2 (le_input lnp_val));;
      createArray outfile g "idx" (H5Int (le_idx lnp_val));;
      createArray outfile g "lnp" (H5Float (le_lnp lnp_val));;
      createArray outfile g "chi2" (H5Float (le_chi2 lnp_val))
  end.

Definition save_lnp (lnp_outname : string) (vals : list lnp_entry)
    (resume : bool) : M unit :=
  outfile ← try_except (openFile lnp_outname ModeA) (λ _, true)
              (λ _, openFile (lnp_partial_name lnp_outname) ModeA);
  forM vals (λ lnp_val _, save_lnp_entry outfile lnp_val) ();;
  closeFile outfile.

(** ** The collaborators of [Q_all_memory] *)

(** A fast 1D PDF generator ([beast.core.pdf1d.pdf1d]): its bin centres and
    [gen1d(indices, weights)], which returns the bins and the weighted
    histogram. *)
Record pdf1d_obj := mkPdf1d {
  bin_vals : list npfloat;
  gen1d : list nat → list npfloat → list npfloat * list npfloat
}.

(** The functions [fit_memory.py] imports from the rest of BEAST and from
    astropy; their code is not part of this file, so they are parameters:
    [N_logLikelihood_NM(sed, seds, ast_error, ast_bias, lnp_threshold)]
    returning [(lnp, chi2)] over the grid rows, [expectation(q, weights)],
    [percentile(bins, p, weights)], the constructor
    [pdf1d(q, nbins, ignorebelow, logspacing)], and the coordinate
    formatting behind the IAU names. *)
Class Beast := {
  N_logLikelihood_NM :
    list npfloat → list (list npfloat) → list (list npfloat) →
    list (list npfloat) → R → list npfloat * list npfloat;
  expectation : list npfloat → list npfloat → npfloat;
  percentile : list npfloat → list npfloat → list npfloat → list npfloat;
  pdf1d : list npfloat → nat → option R → bool → pdf1d_obj;
  iau_coords : npfloat → npfloat → string
}.

(** The keyword options of [Q_all_memory]. *)
Record Options := mkOptions {
  p : list Z;
  max_nbins : nat;
  stats_outname : option string;
  pdf1d_outname : option string;
  lnp_outname : option string;
  lnp_npts : option nat;
  save_every_npts : option Z;
  threshold : R;
  resume : bool
}.

(** What [Q_all_memory] computes once, before the loop over the stars. *)
Record Run := mkRun {
  g0 : SEDGrid;
  g0_indxs : list nat;
  g0_weights : list npfloat;
  ast_error : list (list npfloat);
  ast_bias : list (list npfloat);
  nobs : nat;
  fast_pdf1d_objs : list pdf1d_obj;
  g0_specgrid_indx : list npfloat;
  _p : list npfloat;
  _seds : list (list npfloat)
}.

(** [grid.FileSEDGrid(name, backend=gridbackend)] *)
Definition FileSEDGrid (name : string) : M SEDGrid :=
  λ w, match grid_files w !! name with
       | Some g => (Ok g, w)
       | None => (Raise (IOError name), w)
       end.

Definition load_grid (sedgrid : string + SEDGrid) : M SEDGrid :=
  match sedgrid with
  | inl name => FileSEDGrid name
  | inr g => mret g
  end.

(** [np.random.choice(a, size=size)]: [size] draws with replacement (numpy's
    default), each a uniform position of [a]; it refuses an empty [a]. *)
Definition random_choice (a : list nat) (size : nat) : M (list nat) :=
  λ w, match a with
       | [] => (Raise (ValueError "a must be non-empty"), w)
       | _ =>
           (Ok (map (λ j, default 0 (a !! (rng w (rng_pos w + j) `mod` length a)))
                    (seq 0 size)),
            set_rng_pos (rng_pos w + size) w)
       end.

(** ** [Q_all_memory]: the prior and the 1D PDF set-up *)

(** Lines 207-210: the rows with a positive weight, and their log prior
    [log(weight) - log(sum of the weights of these rows)]. *)
Definition weight_mask (weight : list npfloat) : list nat :=
  np_where (λ w, fgt w fzero) weight.

Definition log_prior (weight : list npfloat) (g0_indxs : list nat)
  : result (list npfloat) :=
  ws ← take_idx weight g0_indxs;
  let g0_weights := flog <$> ws in
  let g0_weights_sum := flog (np_sum ws) in
  Ok ((λ x, fsub x g0_weights_sum) <$> g0_weights).

(** Lines 251-261: the sentinel and the spacing of a parameter's bins. *)
Definition ignorebelow_of (qname : string) : option R :=
  let wd := match py_find qname "_wd" with Some (S _) => true | _ => false end in
  if wd || wd then Some (-9999 / 100)%R else None.

Definition logspacing_of (qname : string) : bool :=
  bool_decide (qname ∈ ["M_ini"; "M_act"; "radius"]).

Section Fit.
Context `{Beast}.

(** Lines 238-269: one generator and one array of shape (nobs+1, nbins) per
    parameter, the last row of the array holding the bin centres. *)
Definition pdf1d_setup (g : SEDGrid) (n_obs max_bins : nat) (qnames : list string)
  : result (list pdf1d_obj * list (list (list npfloat))) :=
  foldR (λ acc qname,
      q ← grid_get g qname;
      let n_uniq := n_unique q in
      let nbins := if decide (max_bins < n_uniq) then max_bins else n_uniq in
      let _tpdf1d := pdf1d q nbins (ignorebelow_of qname) (logspacing_of qname) in
      arr ← set_row n_obs (bin_vals _tpdf1d) (zeros2 (n_obs + 1) nbins);
      Ok (acc.1 ++ [_tpdf1d], acc.2 ++ [arr]))
    ([], []) qnames.

(** ** [Q_all_memory]: resuming a run (lines 273-298) *)

Definition resume_stats (stats_table : Table) (qnames : list string)
    (pvals : list Z) (mem : Mem)
  : result (list (list npfloat) * list (list npfloat) * list (list (list npfloat))) :=
  foldR (λ acc kq,
      let '(best, exps, pers) := acc in
      b ← table_num stats_table (name_Best kq.2);
      best' ← set_col2 kq.1 b best;
      x ← table_num stats_table (name_Exp kq.2);
      exps' ← set_col2 kq.1 x exps;
      pers' ← foldR (λ pers ip,
                  c ← table_num stats_table (name_p kq.2 ip.2);
                  set_col3 kq.1 ip.1 c pers)
                pers (imap pair pvals);
      Ok (best', exps', pers'))
    (best_vals mem, exp_vals mem, per_vals mem) (imap pair qnames).

(** The start position: one past the last star with a non-zero [Pmax]. *)
Definition resume_start_pos (pmax : list npfloat) : result nat :=
  let indxs := np_where (λ x, fne x fzero) pmax in
  m ← py_max_nat indxs;
  Ok (m + 1).

Definition resume_pdf1d (hdulist : list HDU) (qnames : list string)
    (vals : list (list (list npfloat))) : result (list (list (list npfloat))) :=
  foldR (λ vals k, hdu ← get1 hdulist (k + 1); set1 k (hdu_data hdu) vals)
        vals (seq 0 (length qnames)).

Definition resume_state (opts : Options) (qnames : list string) (mem : Mem)
  : M (Mem * nat) :=
  stats_table ← Table_read (stats_outname opts);
  bep ← lift (resume_stats stats_table qnames (p opts) mem);
  chi2_vals' ← lift (table_num stats_table "chi2min");
  chi2_indx' ← lift (table_num stats_table "chi2min_indx");
  lnp_vals' ← lift (table_num stats_table "Pmax");
  lnp_indx' ← lift (table_num stats_table "Pmax_indx");
  best_specgrid_indx' ← lift (table_num stats_table "specgrid_indx");
  pmax ← lift (table_num stats_table "Pmax");
  start_pos ← lift (resume_start_pos pmax);
  pdfs ← match pdf1d_outname opts with
          | Some name =>
              hdulist ← fits_open name;
              lift (resume_pdf1d hdulist qnames (save_pdf1d_vals mem))
          | None => mret (save_pdf1d_vals mem)
          end;
  mret (mkMem bep.1.1 bep.1.2 bep.2 chi2_vals' chi2_indx' lnp_vals' lnp_indx'
              best_specgrid_indx' pdfs (save_lnp_vals mem),
        start_pos).

(** A fresh run (lines 300-309): start at 0 and set up a new lnp file. *)
Definition fresh_state (opts : Options) (g : SEDGrid) (obs : Observations)
    (mem : Mem) : M (Mem * nat) :=
  match lnp_outname opts with
  | Some name =>
      outfile ← openFile name ModeW;
      createArray_root outfile "grid_waves" (H5Float (lamb g));;
      createArray_root outfile "obs_filters" (H5Str (obs_filters obs));;
      closeFile outfile
  | None => mret ()
  end;;
  mret (mem, 0).

(** ** [Q_all_memory]: one star *)

(** Line 331: the rows whose total log posterior lies within [thr] of the
    largest finite one. *)
Definition sparse_indx (lnp : list npfloat) (thr : R) : result (list nat) :=
  m ← py_max (List.filter isfinite lnp);
  Ok (np_where (λ x, fgt (fsub x m) (Fin thr)) lnp).

(** Lines 324-331: likelihood on the weight-filtered rows, prior added in
    log space, sparse index set. *)
Definition posterior (run : Run) (thr : R) (sed : list npfloat)
  : result (list npfloat * list npfloat * list nat) :=
  let lc := N_logLikelihood_NM sed (_seds run) (ast_error run) (ast_bias run)
                               (Rabs thr) in
  lnp ← take_idx lc.1 (g0_indxs run);
  chi2 ← take_idx lc.2 (g0_indxs run);
  prior ← broadcast1 (length lnp) (g0_weights run);
  let lnp := zip_with fadd lnp prior in
  indx ← sparse_indx lnp thr;
  Ok (lnp, chi2, indx).

(** Lines 334-343: the entry kept for the lnp file, all of the sparse set or
    [lnp_npts] random draws of it. *)
Definition pending_lnp (opts : Options) (run : Run) (e : nat) (sed : list npfloat)
    (lnp chi2 : list npfloat) (indx : list nat) (pending : list lnp_entry)
  : M (list lnp_entry) :=
  match lnp_outname opts with
  | Some _ =>
      rindx ← match lnp_npts opts with
               | Some n => random_choice indx n
               | None => mret indx
               end;
      gi ← lift (take_idx (g0_indxs run) rindx);
      l ← lift (take_idx lnp rindx);
      c ← lift (take_idx chi2 rindx);
      mret (pending ++ [mkEntry e gi l c ((λ x, [x]) <$> sed)])
  | None => mret pending
  end.

(** Lines 348-367: weights, best fit and goodness of fit. *)
Definition star_stats (run : Run) (e : nat) (lnp chi2 : list npfloat)
    (indx : list nat) (mem : Mem) : result (list npfloat * nat * Mem) :=
  lnps ← take_idx lnp indx;
  chi2 ← take_idx chi2 indx;
  log_norm ← np_max lnps;
  let weights := (λ x, fexp (fsub x log_norm)) <$> lnps in
  wam ← np_argmax weights;
  wi ← get1 indx wam;
  best_full_indx ← get1 (g0_indxs run) wi;
  sg ← get1 (g0_specgrid_indx run) best_full_indx;
  best_specgrid_indx' ← set1 e sg (best_specgrid_indx mem);
  cmin ← np_min chi2;
  chi2_vals' ← set1 e cmin (chi2_vals mem);
  cam ← np_argmin chi2;
  ci ← get1 indx cam;
  chi2_full_indx ← get1 (g0_indxs run) ci;
  chi2_indx' ← set1 e (of_nat chi2_full_indx) (chi2_indx mem);
  lmax ← np_max lnps;
  lnp_vals' ← set1 e lmax (lnp_vals mem);
  lnp_indx' ← set1 e (of_nat best_full_indx) (lnp_indx mem);
  Ok (weights, best_full_indx,
      mkMem (best_vals mem) (exp_vals mem) (per_vals mem) chi2_vals' chi2_indx'
            lnp_vals' lnp_indx' best_specgrid_indx' (save_pdf1d_vals mem)
            (save_lnp_vals mem)).

(** Lines 381-385: the percentiles of a histogram, or zeros when its maximum
    is not positive. *)
Definition percentile_step (run : Run) (e k : nat)
    (pdf1d_bins pdf1d_vals : list npfloat) (pers : list (list (list npfloat)))
  : result (list (list (list npfloat))) :=
  mx ← np_max pdf1d_vals;
  if fgt mx fzero then
    let pdf1d_vals := (λ v, fdiv v mx) <$> pdf1d_vals in
    set_row3 e k (percentile pdf1d_bins (_p run) pdf1d_vals) pers
  else set_row3 e k [fzero; fzero; fzero] pers.

(** Lines 370-385: best value, expectation, 1D PDF and percentiles of one
    parameter. *)
Definition param_stats (run : Run) (e : nat) (indx : list nat)
    (weights : list npfloat) (best_full_indx : nat) (mem : Mem)
    (kq : nat * string) : result Mem :=
  q ← grid_get (g0 run) kq.2;
  bv ← get1 q best_full_indx;
  best_vals' ← set2 e kq.1 bv (best_vals mem);
  sparse ← take_idx (g0_indxs run) indx;
  qs ← take_idx q sparse;
  exp_vals' ← set2 e kq.1 (expectation qs weights) (exp_vals mem);
  obj ← get1 (fast_pdf1d_objs run) kq.1;
  sparse ← take_idx (g0_indxs run) indx;
  let bv := gen1d obj sparse weights in
  arr ← get1 (save_pdf1d_vals mem) kq.1;
  arr' ← set_row e bv.2 arr;
  per_vals' ← percentile_step run e kq.1 bv.1 bv.2 (per_vals mem);
  Ok (mkMem best_vals' exp_vals' per_vals' (chi2_vals mem) (chi2_indx mem)
            (lnp_vals mem) (lnp_indx mem) (best_specgrid_indx mem)
            (<[kq.1 := arr']> (save_pdf1d_vals mem)) (save_lnp_vals mem)).

Definition with_pending (pending : list lnp_entry) (mem : Mem) : Mem :=
  mkMem (best_vals mem) (exp_vals mem) (per_vals mem) (chi2_vals mem)
        (chi2_indx mem) (lnp_vals mem) (lnp_indx mem) (best_specgrid_indx mem)
        (save_pdf1d_vals mem) pending.

(** Lines 391-402 and 407-417: write the three artifacts. *)
Definition save_all (opts : Options) (prev_result : Table)
    (qnames : list string) (mem : Mem) : M unit :=
  match pdf1d_outname opts with
  | Some name => save_pdf1d name (save_pdf1d_vals mem) qnames
  | None => mret ()
  end;;
  match stats_outname opts with
  | Some name => save_stats (Some name) prev_result mem qnames (p opts)
  | None => mret ()
  end;;
  match lnp_outname opts with
  | Some name => save_lnp name (save_lnp_vals mem) (resume opts)
  | None => mret ()
  end.

(** Line 389: [(e > 0) & (e % save_every_npts == 0)]. *)
Definition flush_due (e : nat) (n : Z) : result bool :=
  if decide (n = 0%Z) then Raise ZeroDivisionError
  else Ok (bool_decide (0 < e) && bool_decide ((Z.of_nat e `mod` n)%Z = 0%Z)).

(** Lines 388-402: the incremental save. *)
Definition incremental_save (opts : Options) (prev_result : Table)
    (qnames : list string) (e : nat) (mem : Mem) : M Mem :=
  match save_every_npts opts with
  | None => mret mem
  | Some n =>
      due ← lift (flush_due e n);
      if due : bool then
        save_all opts prev_result qnames mem;;
        match lnp_outname opts with
        | Some _ => mret (with_pending [] mem)
        | None => mret mem
        end
      else mret mem
  end.

(** The body of the loop over the stars (lines 322-402). *)
Definition star_step (opts : Options) (run : Run) (prev_result : Table)
    (qnames : list string) (obj : nat * list npfloat) (mem : Mem) : M Mem :=
  let e := obj.1 in
  let sed := obj.2 in
  post ← lift (posterior run (threshold opts) sed);
  let '(lnp, chi2, indx) := post in
  pending ← pending_lnp opts run e sed lnp chi2 indx (save_lnp_vals mem);
  let mem := with_pending pending mem in
  st ← lift (star_stats run e lnp chi2 indx mem);
  let '(weights, best_full_indx, mem) := st in
  mem ← lift (foldR (param_stats run e indx weights best_full_indx) mem
                    (imap pair qnames));
  incremental_save opts prev_result qnames e mem.

(** ** [Q_all_memory] *)

Definition Q_all_memory (prev_result : Table) (obs : Observations)
    (sedgrid : string + SEDGrid) (ast : NoiseModel) (qnames : list string)
    (opts : Options) : M unit :=
  g ← load_grid sedgrid;
  weight ← lift (grid_get g "weight");
  let indxs := weight_mask weight in
  prior ← lift (log_prior weight indxs);
  let n_obs := obs_len obs in
  let n_qnames := length qnames in
  let n_pers := length (p opts) in
  setup ← lift (pdf1d_setup g n_obs (max_nbins opts) qnames);
  let mem0 := mkMem (zeros2 n_obs n_qnames) (zeros2 n_obs n_qnames)
                    (zeros3 n_obs n_qnames n_pers) (zeros1 n_obs) (zeros1 n_obs)
                    (zeros1 n_obs) (zeros1 n_obs) (zeros1 n_obs) setup.2 [] in
  st ← (if resume opts then resume_state opts qnames mem0
        else fresh_state opts g obs mem0);
  sg ← lift (grid_get g "specgrid_indx");
  let run := mkRun g indxs prior (nm_error ast) (nm_bias ast) n_obs setup.1 sg
                   (of_Z <$> p opts) (seds g) in
  mem ← forM (islice (enumobs obs) st.2) (star_step opts run prev_result qnames) st.1;
  save_all opts prev_result qnames mem.

(** ** [IAU_names_and_extra_info] *)

Definition data_get (obsdata : Observations) (name : string) : result column :=
  match obs_data obsdata !! name with
  | Some c => Ok c
  | None => Raise (KeyError name)
  end.

Definition data_num (obsdata : Observations) (name : string)
  : result (list npfloat) :=
  c ← data_get obsdata name;
  match c with
  | NumCol v => Ok v
  | StrCol _ => Raise TypeError
  end.

Definition fmul (a b : npfloat) : npfloat :=
  match a, b with
  | NaN, _ | _, NaN => NaN
  | Fin x, Fin y => Fin (x * y)
  | Fin x, i | i, Fin x =>
      if decide (x = 0)%R then NaN
      else if decide (x > 0)%R then i else fneg i
  | PInf, PInf | NInf, NInf => PInf
  | _, _ => NInf
  end.

Definition IAU_names_and_extra_info (obsdata : Observations) : result Table :=
  _tnames ← mapR (λ i,
                ra ← data_num obsdata "ra";
                dec ← data_num obsdata "dec";
                r ← get1 ra i;
                d ← get1 dec i;
                Ok ("PHAT J" +:+ iau_coords r d))
              (seq 0 (obs_len obsdata));
  let r : Table := {[ "Name" := StrCol _tnames ]} in
  ra ← data_get obsdata "ra";
  dec ← data_get obsdata "dec";
  field ← data_get obsdata "field";
  inside_brick ← data_get obsdata "inside_brick";
  inside_chipgap ← data_get obsdata "inside_chipgap";
  let r := <["inside_chipgap" := inside_chipgap]>
           (<["inside_brick" := inside_brick]>
            (<["field" := field]> (<["DEC" := dec]> (<["RA" := ra]> r)))) in
  foldR (λ r kf,
      flux ← data_num obsdata kf.2;
      vega ← get1 (vega_flux obsdata) kf.1;
      Ok (<[kf.2 := NumCol ((λ x, fmul x vega) <$> flux)]> r))
    r (imap pair (obs_filters obsdata)).

(** ** [summary_table_memory] *)

Definition skip_keys : list string :=
  ["osl"; "keep"; "weight"; "fullgrid_idx"; "stage"; "specgrid_indx"].

(** ['Key "{0}" not recognized'.format(key)] *)
Definition key_not_recognized (key : string) : string :=
  "Key " +:+ dquote +:+ key +:+ dquote +:+ " not recognized".

(** Lines 516-520: drop the skipped keys, then insist that every key left is
    a column of the grid. *)
Definition real_keys (keys : list string) : list string :=
  List.filter (λ k, negb (bool_decide (k ∈ skip_keys))) keys.

Definition check_keys (g : SEDGrid) (keys : list string) : result unit :=
  foldR (λ _ key,
      if bool_decide (key ∈ grid_keys g) then Ok ()
      else Raise (KeyError (key_not_recognized key)))
    () keys.

Definition summary_table_memory (obs : Observations) (noisemodel : NoiseModel)
    (sedgrid : string + SEDGrid) (keys : option (list string))
    (thr : R) (save_every : option Z) (npts : option nat) (resume_run : bool)
    (stats_out pdf1d_out lnp_out : option string) : M unit :=
  g ← load_grid sedgrid;
  let keys := match keys with None => grid_keys g | Some ks => ks end in
  let keys := real_keys keys in
  lift (check_keys g keys);;
  res ← lift (IAU_names_and_extra_info obs);
  Q_all_memory res obs (inr g) noisemodel keys
    (mkOptions [16; 50; 84]%Z 50 stats_out pdf1d_out lnp_out npts save_every
               thr resume_run).

End Fit.

(** ** The effect of [save_lnp] on an archive, as a function

    What the loop of [save_lnp] does to the root of the archive it writes:
    a pending star whose group name is taken is skipped, any other gets a
    group with its four arrays.  [save_lnp_run] below proves that the code
    computes exactly this. *)

Definition star_group_of (v : lnp_entry) : h5node :=
  H5Group (star_title (le_star v))
    (<["chi2" := H5Float (le_chi2 v)]>
     (<["lnp" := H5Float (le_lnp v)]>
      (<["idx" := H5Int (le_idx v)]>
       (<["input" := H5Float2 (le_input v)]> ∅)))).

Definition append_star (root : gmap string h5node) (v : lnp_entry)
  : gmap string h5node :=
  match root !! star_name (le_star v) with
  | Some _ => root
  | None => <[star_name (le_star v) := star_group_of v]> root
  end.

(** The root of a file opened for append: empty for a file that is created. *)
Definition root_of (f : option h5file) : gmap string h5node :=
  match f with
  | Some (Archive root) => root
  | _ => ∅
  end.

(** The world with its HDF5 files replaced. *)
Definition put_lnp (files : gmap string h5file) (w : World) : World :=
  set_lnp (λ _, files) w.

(** ** The prior in the specification's words

    [Rsum ws] is the sum of the weights of all the grid rows and
    [positive w] the test "weight > 0"; the specification's prior of a row
    of weight [w] is [ln (w / Rsum ws)]. *)

Fixpoint Rsum (ws : list R) : R :=
  match ws with
  | [] => 0%R
  | w :: ws' => (w + Rsum ws')%R
  end.

Definition positive (w : R) : bool := bool_decide (w > 0)%R.

(** ** Frames: which rows of the result arrays a computation may change *)

(** [only_rows P a a']: [a'] has the length of [a] and differs from it at
    most in the rows whose index satisfies [P]. *)
Definition only_rows {X} (P : nat → Prop) (a a' : list X) : Prop :=
  length a' = length a ∧ ∀ i, ¬ P i → a' !! i = a !! i.

(** The same for each array of a list of arrays (the 1D PDFs). *)
Definition only_rows_each {X} (P : nat → Prop) (v v' : list (list X)) : Prop :=
  Forall2 (only_rows P) v v'.

Record mem_frame (P : nat → Prop) (mem mem' : Mem) : Prop := mkFrame {
  fr_best : only_rows P (best_vals mem) (best_vals mem');
  fr_exp : only_rows P (exp_vals mem) (exp_vals mem');
  fr_per : only_rows P (per_vals mem) (per_vals mem');
  fr_chi2 : only_rows P (chi2_vals mem) (chi2_vals mem');
  fr_chi2i : only_rows P (chi2_indx mem) (chi2_indx mem');
  fr_lnp : only_rows P (lnp_vals mem) (lnp_vals mem');
  fr_lnpi : only_rows P (lnp_indx mem) (lnp_indx mem');
  fr_spec : only_rows P (best_specgrid_indx mem) (best_specgrid_indx mem');
  fr_pdf : only_rows_each P (save_pdf1d_vals mem) (save_pdf1d_vals mem')
}.

(** The HDUs [save_pdf1d] appends after the primary one: one per
    parameter, named after it and holding its array. *)
Definition pdf1d_hdus (qnames : list string) (vals : list (list (list npfloat)))
  : list HDU :=
  zip_with (λ q v, mkHDU (Some q) v) qnames vals.

(** What the set-up loop (lines 238-269) adds for parameter [q]: the
    generator built from the grid column with [min(unique values, max)]
    bins, and an array of [n_obs] rows of zeros followed by the row of bin
    centres. *)
Definition setup_entry `{Beast} (g : SEDGrid) (n_obs max_bins : nat)
    (q : string) (obj : pdf1d_obj) (arr : list (list npfloat)) : Prop :=
  ∃ col row,
    grid_get g q = Ok col ∧
    obj = pdf1d col (n_unique col `min` max_bins) (ignorebelow_of q)
                (logspacing_of q) ∧
    broadcast1 (n_unique col `min` max_bins) (bin_vals obj) = Ok row ∧
    arr = replicate n_obs (zeros1 (n_unique col `min` max_bins)) ++ [row].

(** ** A small concrete instance

    A likelihood that reads [lnp] and [chi2] off the first two fluxes of each
    model row, a flat histogram generator, and a grid of two models.  The
    closed examples below run the code on it. *)

Definition demo_beast : Beast := {|
  N_logLikelihood_NM sed seds err bias thr :=
    ((λ row, default NaN (row !! 0)) <$> seds,
     (λ row, default NaN (row !! 1)) <$> seds);
  expectation q w := fzero;
  percentile bins pv w := pv;
  pdf1d q nbins ign logsp :=
    mkPdf1d (replicate nbins (Fin 1))
            (λ idx w, (replicate nbins (Fin 1), replicate nbins fzero));
  iau_coords ra dec := ""
|}.

Definition demo_grid : SEDGrid :=
  mkGrid [("weight", [Fin 1; Fin 1]);
          ("specgrid_indx", [Fin 0; Fin 1]);
          ("mass", [Fin 1; Fin 2])]
         [[Fin 0; Fin 0]; [Fin (-1); Fin 2]]
         [Fin 1; Fin 2].

Definition demo_run : Run :=
  mkRun demo_grid [0; 1] [Fin 0; Fin 0] [] [] 1
        [mkPdf1d [Fin 1; Fin 1] (λ idx w, ([Fin 1; Fin 1], [fzero; fzero]))]
        [Fin 0; Fin 1] [Fin 50] (seds demo_grid).

Definition demo_obs : Observations := mkObs ∅ [] [] [[Fin 0]].
Definition demo_noise : NoiseModel := mkNoise [] [].
Definition demo_world : World := mkWorld ∅ ∅ ∅ ∅ (λ _, 0) 0.

(** A pending entry for star 0. *)
Definition demo_entry : lnp_entry :=
  mkEntry 0 [0; 1] [Fin 0; Fin (-1)] [Fin 0; Fin 2] [[Fin 0]].

(** A catalogue without stars, and the options [summary_table_memory]
    passes on. *)
Definition empty_obs : Observations :=
  mkObs {[ "ra" := NumCol []; "dec" := NumCol []; "field" := NumCol [];
           "inside_brick" := NumCol []; "inside_chipgap" := NumCol [] ]}
        [] [] [].

(** A summary table and a 1D PDF file of one star, one parameter ("mass")
    and one percentile (50), as a run interrupted after that star leaves
    them; [pmax] is the star's [Pmax]. *)
Definition demo_stats (pmax : npfloat) : Table :=
  <["specgrid_indx" := NumCol [Fin 1]]>
  (<["Pmax_indx" := NumCol [Fin 1]]>
   (<["Pmax" := NumCol [pmax]]>
    (<["chi2min_indx" := NumCol [Fin 0]]>
     (<["chi2min" := NumCol [Fin 2]]>
      (<["mass_p50" := NumCol [Fin 3]]>
       (<["mass_Exp" := NumCol [Fin 4]]>
        (<["mass_Best" := NumCol [Fin 5]]> ∅))))))).

Definition demo_hdus : list HDU :=
  [mkHDU None (zeros2 2 2);
   mkHDU (Some "mass") [[Fin 7; Fin 8]; [Fin 1; Fin 1]]].

Definition demo_resume_options : Options :=
  mkOptions [50%Z] 50 (Some "stats.fits") (Some "pdf1d.fits") None None None
            (-40) true.

Definition demo_resume_world (pmax : npfloat) : World :=
  mkWorld {[ "stats.fits" := demo_stats pmax ]} {[ "pdf1d.fits" := demo_hdus ]}
          ∅ ∅ (λ _, 0) 0.

(** The zero-initialised arrays of a run over one star, one parameter, one
    percentile and two bins. *)
Definition demo_mem0 : Mem :=
  mkMem (zeros2 1 1) (zeros2 1 1) (zeros3 1 1 1) (zeros1 1) (zeros1 1)
        (zeros1 1) (zeros1 1) (zeros1 1)
        [[[fzero; fzero]; [Fin 1; Fin 1]]] [].

(** A fresh run over the demo star with the default three percentiles and
    a threshold that keeps the peak row only. *)
Definition demo_options3 : Options :=
  mkOptions [16; 50; 84]%Z 50 None None None None None (-1/2) false.

Definition demo_mem3 : Mem :=
  mkMem (zeros2 1 1) (zeros2 1 1) (zeros3 1 1 3) (zeros1 1) (zeros1 1)
        (zeros1 1) (zeros1 1) (zeros1 1)
        [[[fzero; fzero]; [Fin 1; Fin 1]]] [].

(** ** What a run may change

    [touches_only opts w w']: between the worlds [w] and [w'] the stored
    grids and the random stream are the same, a summary table or a 1D PDF
    file differs only under the configured output name, an HDF5 archive
    only under [lnp_outname] or its alternate name, and the random
    generator has only moved when a random subsample is configured. *)
Record touches_only (opts : Options) (w w' : World) : Prop := mkTouch {
  to_grid : grid_files w' = grid_files w;
  to_rng : rng w' = rng w;
  to_stats : ∀ n, stats_outname opts ≠ Some n →
               stats_files w' !! n = stats_files w !! n;
  to_pdf1d : ∀ n, pdf1d_outname opts ≠ Some n →
               pdf1d_files w' !! n = pdf1d_files w !! n;
  to_lnp : ∀ n, lnp_outname opts ≠ Some n →
             (∀ o, lnp_outname opts = Some o → n ≠ lnp_partial_name o) →
             lnp_files w' !! n = lnp_files w !! n;
  to_rng_pos : lnp_outname opts = None ∨ lnp_npts opts = None →
               rng_pos w' = rng_pos w
}.

Definition frames {A} (opts : Options) (m : M A) : Prop :=
  ∀ w, touches_only opts w (m w).2.

(** The archives a run with [opts] writes: [lnp_outname] and its alternate. *)
Definition lnp_target (opts : Options) (f : string) : Prop :=
  ∃ o, lnp_outname opts = Some o ∧ (f = o ∨ f = lnp_partial_name o).

(** ** The column names of the summary table *)

Fixpoint all_chars (f : Ascii.ascii → bool) (s : string) : bool :=
  match s with
  | EmptyString => true
  | String c s' => f c && all_chars f s'
  end.

(** The characters of a printed integer. *)
Definition int_char (c : Ascii.ascii) : bool :=
  bool_decide (c ∈ String.list_ascii_of_string "0123456789-").

Fixpoint last_char (s : string) : option Ascii.ascii :=
  match s with
  | EmptyString => None
  | String c EmptyString => Some c
  | String _ s' => last_char s'
  end.

(** The columns [save_stats] always writes (lines 74-78). *)
Definition fixed_names : list string :=
  ["chi2min"; "chi2min_indx"; "Pmax"; "Pmax_indx"; "specgrid_indx"].

(** The column assignments of lines 68-72, in the order of the code:
    for parameter [k] named [q] its best-fit column, its expectation column
    and one column per percentile. *)
Inductive stat_col :=
  | ColBest (k : nat) (q : string)
  | ColExp (k : nat) (q : string)
  | ColP (k : nat) (q : string) (i : nat) (x : Z).

Definition col_name (c : stat_col) : string :=
  match c with
  | ColBest _ q => name_Best q
  | ColExp _ q => name_Exp q
  | ColP _ q _ x => name_p q x
  end.

Definition col_val (mem : Mem) (c : stat_col) : result column :=
  match c with
  | ColBest k _ => NumCol <$> col2 k (best_vals mem)
  | ColExp k _ => NumCol <$> col2 k (exp_vals mem)
  | ColP k _ i _ => NumCol <$> col3 k i (per_vals mem)
  end.

Definition stat_cols_of (pv : list Z) (kq : nat * string) : list stat_col :=
  ColBest kq.1 kq.2 :: ColExp kq.1 kq.2 ::
  ((λ ip : nat * Z, ColP kq.1 kq.2 ip.1 ip.2) <$> imap pair pv).

Definition assign (mem : Mem) (d : Table) (c : stat_col) : result Table :=
  v ← col_val mem c; Ok (<[col_name c := v]> d).

(** A catalogue of one star observed in one filter. *)
Definition demo_catalog : Observations :=
  mkObs (<["F475W" := NumCol [Fin 2]]>
         (<["inside_chipgap" := NumCol [Fin 0]]>
          (<["inside_brick" := NumCol [Fin 1]]>
           (<["field" := NumCol [Fin 7]]>
            (<["dec" := NumCol [Fin 41]]>
             (<["ra" := NumCol [Fin 10]]> ∅))))))
        ["F475W"] [Fin 3] [[Fin 2]].

(** A run without any output file and with a positive threshold. *)
Definition demo_options_pos : Options :=
  mkOptions [16; 50; 84]%Z 50 None None None None None 40 false.

(** ** The results of one star *)

(** [param_entry run e indx weights best k q mem]: the entries of star [e]
    and parameter [k] (named [q]) in the arrays of [mem] are what lines
    370-385 compute from the sparse set [indx], its [weights] and the
    best-fit row [best]. *)
Definition param_entry `{Beast} (run : Run) (e : nat) (indx : list nat)
    (weights : list npfloat) (best : nat) (k : nat) (q : string) (mem : Mem)
  : Prop :=
  ∃ col bv sparse qs obj,
    grid_get (g0 run) q = Ok col ∧ col !! best = Some bv ∧
    take_idx (g0_indxs run) indx = Ok sparse ∧ take_idx col sparse = Ok qs ∧
    fast_pdf1d_objs run !! k = Some obj ∧
    (∃ row, best_vals mem !! e = Some row ∧ row !! k = Some bv) ∧
    (∃ row, exp_vals mem !! e = Some row ∧
            row !! k = Some (expectation qs weights)) ∧
    (∃ arr hist, save_pdf1d_vals mem !! k = Some arr ∧ arr !! e = Some hist ∧
                 broadcast1 (length hist) (gen1d obj sparse weights).2 = Ok hist) ∧
    (∃ plane prow mx,
       per_vals mem !! e = Some plane ∧ plane !! k = Some prow ∧
       np_max (gen1d obj sparse weights).2 = Ok mx ∧
       broadcast1 (length prow)
         (if fgt mx fzero
          then percentile (gen1d obj sparse weights).1 (_p run)
                 ((λ v, fdiv v mx) <$> (gen1d obj sparse weights).2)
          else [fzero; fzero; fzero]) = Ok prow).

(** [star_entry run thr qnames e sed mem]: row [e] of the arrays of [mem]
    holds the results of the star [e] with fluxes [sed]: the peak of its
    posterior and the row where it is reached, the smallest chi2 of the
    sparse set and its row, and for every parameter the entries computed
    with the weights [exp(lnp - peak)] of the sparse set. *)
Definition star_entry `{Beast} (run : Run) (thr : R) (qnames : list string)
    (e : nat) (sed : list npfloat) (mem : Mem) : Prop :=
  ∃ lnp chi2 indx lnps chi2s i pmax best cmin ci j cfull,
    posterior run thr sed = Ok (lnp, chi2, indx) ∧
    take_idx lnp indx = Ok lnps ∧ take_idx chi2 indx = Ok chi2s ∧
    i ∈ indx ∧ lnp !! i = Some pmax ∧ (∀ x, x ∈ lnp → fgt x pmax = false) ∧
    g0_indxs run !! i = Some best ∧
    lnp_vals mem !! e = Some pmax ∧
    lnp_indx mem !! e = Some (of_nat best) ∧
    best_specgrid_indx mem !! e = g0_specgrid_indx run !! best ∧
    np_min chi2s = Ok cmin ∧ chi2_vals mem !! e = Some cmin ∧
    np_argmin chi2s = Ok ci ∧ indx !! ci = Some j ∧
    g0_indxs run !! j = Some cfull ∧
    chi2_indx mem !! e = Some (of_nat cfull) ∧
    ∀ k q, qnames !! k = Some q →
      param_entry run e indx ((λ x, fexp (fsub x pmax)) <$> lnps) best k q mem.

(** * Properties *)

(** Evaluation of closed terms: everything is computed except the real
    numbers, whose comparisons are settled by [lra]. *)
Ltac reval_step :=
  cbv -[Rplus Rminus Rmult Ropp Rinv Rdiv IZR INR exp ln Rgt_dec Rlt_dec
        Req_dec_T Rcase_abs Rgt Rlt Rge Rle];
  try match goal with
  | |- context [Rcase_abs ?a] => destruct (Rcase_abs a); try lra
  | |- context [Rgt_dec ?a ?b] => destruct (Rgt_dec a b); try lra
  | |- context [Rlt_dec ?a ?b] => destruct (Rlt_dec a b); try lra
  | |- context [Req_dec_T ?a ?b] => destruct (Req_dec_T a b); try lra
  end.
Ltac reval := repeat (progress reval_step); try reflexivity.

(** ** The monads *)

Lemma bindR_Ok {A B} (m : result A) (f : A → result B) b :
  m ≫= f = Ok b ↔ ∃ a, m = Ok a ∧ f a = Ok b.
Proof.
  destruct m as [a|e]; simpl; split.
  - eauto.
  - by intros (? & [= <-] & ?).
  - done.
  - by intros (? & ? & ?).
Qed.

Lemma bindM_Ok {A B} (m : M A) (f : A → M B) w b w' :
  (m ≫= f) w = (Ok b, w') ↔ ∃ a w1, m w = (Ok a, w1) ∧ f a w1 = (Ok b, w').
Proof.
  unfold mbind, M_bind. destruct (m w) as [[a|e] w1]; split.
  - eauto.
  - by intros (? & ? & [= <- <-] & ?).
  - done.
  - by intros (? & ? & ? & ?).
Qed.

Lemma lift_Ok {A} (r : result A) w a w' :
  lift r w = (Ok a, w') ↔ r = Ok a ∧ w' = w.
Proof. unfold lift. split; [by intros [= -> ->] | by intros [-> ->]]. Qed.

(** Inversion of a successful computation, one bind at a time. *)
Ltac inv_ok :=
  repeat match goal with
  | H : _ ≫= _ = Ok _ |- _ => apply bindR_Ok in H as (? & ? & H)
  | H : (_ ≫= _) _ = (Ok _, _) |- _ => apply bindM_Ok in H as (? & ? & ? & H)
  | H : lift _ _ = (Ok _, _) |- _ => apply lift_Ok in H as [H ->]
  | H : mret _ _ = (Ok _, _) |- _ => injection H as <- <-
  | H : Ok _ = Ok _ |- _ => injection H as H
  | H : Raise _ = Ok _ |- _ => discriminate H
  | H : (Raise _, _) = (Ok _, _) |- _ => discriminate H
  end.

(** ** [np.where] and the builtin [max] *)

Lemma np_where_from_spec {A} (f : A → bool) l i j :
  j ∈ np_where_from f i l ↔ ∃ k x, j = i + k ∧ l !! k = Some x ∧ f x = true.
Proof.
  revert i. induction l as [|y l IH]; intros i; simpl.
  - split; [by intros ?%elem_of_nil | by intros (k & x & _ & ? & _)].
  - assert (j ∈ np_where_from f (S i) l ↔
            ∃ k x, j = i + S k ∧ l !! k = Some x ∧ f x = true) as IH'.
    { rewrite IH. split; intros (k & x & -> & ? & ?); exists k, x;
        split_and!; auto; lia. }
    destruct (f y) eqn:Hy.
    + rewrite elem_of_cons, IH'. split.
      * intros [-> | (k & x & -> & ? & ?)].
        -- exists 0, y. split_and!; auto.
        -- exists (S k), x. auto.
      * intros ([|k] & x & -> & Hl & Hx); simpl in Hl.
        -- left. lia.
        -- right. eauto.
    + rewrite IH'. split.
      * intros (k & x & -> & ? & ?). exists (S k), x. auto.
      * intros ([|k] & x & -> & Hl & Hx); simpl in Hl.
        -- congruence.
        -- eauto.
Qed.

Lemma np_where_spec {A} (f : A → bool) l j :
  j ∈ np_where f l ↔ ∃ x, l !! j = Some x ∧ f x = true.
Proof.
  unfold np_where. rewrite np_where_from_spec. split.
  - intros (k & x & -> & ? & ?). eauto.
  - intros (x & ? & ?). exists j, x. auto.
Qed.

Lemma fgt_fin_false_trans x y z :
  isfinite x = true → isfinite y = true → isfinite z = true →
  fgt x y = false → fgt y z = false → fgt x z = false.
Proof.
  destruct x, y, z; simpl; try done.
  rewrite !bool_decide_eq_false. intros _ _ _ ? ?. lra.
Qed.

Lemma py_max_fold_spec (l : list npfloat) (x : npfloat) :
  isfinite x = true → Forall (λ y, isfinite y = true) l →
  let m := foldl (λ cur y, if fgt y cur then y else cur) x l in
  isfinite m = true ∧ (m = x ∨ m ∈ l) ∧ fgt x m = false ∧
  ∀ y, y ∈ l → fgt y m = false.
Proof.
  revert x. induction l as [|a l IH]; intros x Hx Hl; simpl.
  - split_and!; auto.
    { destruct x; simpl in *; try done. apply bool_decide_eq_false. lra. }
    intros y ?%elem_of_nil. done.
  - apply Forall_cons in Hl as [Ha Hl].
    destruct (fgt a x) eqn:Hax.
    + destruct (IH a Ha Hl) as (Hm & Hin & Ham & Hall).
      split_and!; auto.
      * destruct Hin as [-> | ?]; right; [left | by right].
      * set (m := foldl _ a l) in *.
        destruct x, a, m; simpl in *; try done.
        apply bool_decide_eq_true in Hax. apply bool_decide_eq_false in Ham.
        apply bool_decide_eq_false. lra.
      * intros y [-> | ?]%elem_of_cons; auto.
    + destruct (IH x Hx Hl) as (Hm & Hin & Hxm & Hall).
      split_and!; auto.
      * destruct Hin as [-> | ?]; [by left | right; by right].
      * intros y [-> | ?]%elem_of_cons; auto.
        by apply (fgt_fin_false_trans a x).
Qed.

(** The builtin [max] over the finite entries: defined as soon as there is
    one, and then a finite entry that no finite entry exceeds. *)
Lemma py_max_finite_spec (lnp : list npfloat) :
  (∃ x, x ∈ lnp ∧ isfinite x = true) →
  ∃ m, py_max (List.filter isfinite lnp) = Ok m ∧ m ∈ lnp ∧ isfinite m = true ∧
       ∀ y, y ∈ lnp → isfinite y = true → fgt y m = false.
Proof.
  intros (x & Hx & Hfx).
  assert (x ∈ List.filter isfinite lnp) as Hin.
  { apply list_elem_of_In, filter_In. by rewrite <- list_elem_of_In. }
  assert (Forall (λ y, isfinite y = true) (List.filter isfinite lnp)) as Hall.
  { apply Forall_forall. intros y Hy%list_elem_of_In%filter_In. tauto. }
  assert (∀ y, y ∈ List.filter isfinite lnp → y ∈ lnp) as Hsub.
  { intros y Hy%list_elem_of_In%filter_In. apply list_elem_of_In. tauto. }
  destruct (List.filter isfinite lnp) as [|a l] eqn:Hf;
    [by apply elem_of_nil in Hin|].
  apply Forall_cons in Hall as [Ha Hl].
  destruct (py_max_fold_spec l a Ha Hl) as (Hm & Hmin & Ham & Hbound).
  eexists. split; [reflexivity|]. split_and!; auto.
  - apply Hsub. destruct Hmin as [-> | ?]; [left | by right].
  - intros y Hy Hfy.
    assert (y ∈ a :: l) as [-> | ?]%elem_of_cons; auto.
    rewrite <- Hf. apply list_elem_of_In, filter_In. by rewrite <- list_elem_of_In.
Qed.

(** For a threshold that is not positive, the threshold and minus its
    absolute value are the same cutoff. *)
Lemma neg_abs_nonpos (thr : R) : (thr <= 0)%R → (- Rabs thr)%R = thr.
Proof.
  intros Hle. unfold Rabs. destruct (Rcase_abs thr); lra.
Qed.

(** ** The sparse index set (C1) *)

Section Sparse.
Context `{Beast}.

(** [posterior] returns the total log posterior together with the result of
    line 331 on it. *)
Lemma posterior_inv (run : Run) (thr : R) (sed lnp chi2 : list npfloat)
    (indx : list nat) :
  posterior run thr sed = Ok (lnp, chi2, indx) →
  ∃ l0 prior,
    take_idx (N_logLikelihood_NM sed (_seds run) (ast_error run) (ast_bias run)
                (Rabs thr)).1 (g0_indxs run) = Ok l0 ∧
    take_idx (N_logLikelihood_NM sed (_seds run) (ast_error run) (ast_bias run)
                (Rabs thr)).2 (g0_indxs run) = Ok chi2 ∧
    broadcast1 (length l0) (g0_weights run) = Ok prior ∧
    lnp = zip_with fadd l0 prior ∧
    sparse_indx lnp thr = Ok indx.
Proof.
  unfold posterior. intros Hp. inv_ok. subst. eauto 10.
Qed.


End Sparse.



(** ** Percentiles of a degenerate histogram (C2) *)

Section Percentiles.
Context `{Beast}.

(** When the histogram's maximum is zero, line 385 stores three zeros: this
    succeeds exactly when three percentiles were requested. *)
Lemma percentile_step_zero_hist (run : Run) (e k : nat)
    (bins vals : list npfloat) (pers : list (list (list npfloat)))
    (plane : list (list npfloat)) (row : list npfloat) :
  np_max vals = Ok fzero →
  pers !! e = Some plane →
  plane !! k = Some row →
  percentile_step run e k bins vals pers =
    if decide (length row = 3)
    then Ok (<[e := <[k := [fzero; fzero; fzero]]> plane]> pers)
    else Raise (ValueError "could not broadcast input array").
Proof.
  intros Hmax He Hk. unfold percentile_step. rewrite Hmax. simpl.
  rewrite bool_decide_eq_false_2 by lra.
  unfold set_row3, get1. rewrite He. simpl.
  unfold set_row, get1. rewrite Hk. simpl.
  unfold broadcast1. simpl.
  destruct (decide (3 = length row)) as [Heq|Hne].
  - rewrite decide_True by done. reflexivity.
  - rewrite decide_False by done. reflexivity.
Qed.

End Percentiles.

(** C2 fails on the code: one requested percentile ([p = [50.]]) and a
    parameter whose histogram for the star is all zero.  Lines 370-385 raise
    instead of storing one zero. *)
Lemma zero_hist_single_percentile_raises :
  @param_stats demo_beast demo_run 0 [0; 1] [Fin 1; Fin 1] 0
    (mkMem (zeros2 1 1) (zeros2 1 1) (zeros3 1 1 1) (zeros1 1) (zeros1 1)
           (zeros1 1) (zeros1 1) (zeros1 1)
           [[[fzero; fzero]; [Fin 1; Fin 1]]] [])
    (0, "mass")
  = Raise (ValueError "could not broadcast input array").
Proof. reval. Qed.

(** ** [save_lnp] on the archive (C4, C5) *)

Lemma put_lnp_id w : put_lnp (lnp_files w) w = w.
Proof. by destruct w. Qed.

Lemma save_lnp_entry_dup (f : string) (v : lnp_entry) (w : World) root node :
  lnp_files w !! f = Some (Archive root) →
  root !! star_name (le_star v) = Some node →
  save_lnp_entry f v w = (Ok (), w).
Proof.
  intros Hf Hn. unfold save_lnp_entry, try_except, fmap, M_fmap, createGroup.
  unfold mbind, M_bind. rewrite Hf, Hn. reflexivity.
Qed.

Lemma save_lnp_entry_new (f : string) (v : lnp_entry) (w : World) root :
  lnp_files w !! f = Some (Archive root) →
  root !! star_name (le_star v) = None →
  save_lnp_entry f v w =
    (Ok (),
     put_lnp (<[f := Archive (<[star_name (le_star v) := star_group_of v]> root)]>
                (lnp_files w)) w).
Proof.
  intros Hf Hn. unfold save_lnp_entry, try_except, fmap, M_fmap, createGroup.
  unfold mbind, M_bind. rewrite Hf, Hn.
  unfold createArray; simpl.
  repeat (rewrite !lookup_insert_eq; simpl;
          rewrite ?lookup_insert_ne by done; rewrite ?lookup_empty; simpl).
  unfold put_lnp, set_lnp, star_group_of; simpl.
  rewrite !insert_insert_eq. reflexivity.
Qed.

Lemma save_lnp_entry_run (f : string) (v : lnp_entry) (w : World) root :
  lnp_files w !! f = Some (Archive root) →
  save_lnp_entry f v w =
    (Ok (), put_lnp (<[f := Archive (append_star root v)]> (lnp_files w)) w).
Proof.
  intros Hf. unfold append_star.
  destruct (root !! star_name (le_star v)) as [node|] eqn:Hn.
  - rewrite (save_lnp_entry_dup f v w root node Hf Hn).
    rewrite insert_id by done. by rewrite put_lnp_id.
  - by apply save_lnp_entry_new.
Qed.

Lemma save_lnp_loop_run (f : string) (vals : list lnp_entry) (w : World) root :
  lnp_files w !! f = Some (Archive root) →
  forM vals (λ lnp_val _, save_lnp_entry f lnp_val) () w =
    (Ok (),
     put_lnp (<[f := Archive (foldl append_star root vals)]> (lnp_files w)) w).
Proof.
  revert w root. induction vals as [|v vals IH]; intros w root Hf; simpl.
  - rewrite insert_id by done. by rewrite put_lnp_id.
  - unfold mbind, M_bind. rewrite (save_lnp_entry_run f v w root Hf).
    rewrite (IH _ (append_star root v)).
    + unfold put_lnp, set_lnp; simpl. by rewrite insert_insert_eq.
    + unfold put_lnp, set_lnp; simpl. apply lookup_insert_eq.
Qed.

(** Opening [target] for append and writing the pending entries there. *)
Lemma append_to_run (target : string) (vals : list lnp_entry) (w : World) :
  lnp_files w !! target ≠ Some Corrupted →
  (outfile ← openFile target ModeA;
   forM vals (λ lnp_val _, save_lnp_entry outfile lnp_val) ();;
   closeFile outfile) w =
    (Ok (),
     put_lnp (<[target := Archive (foldl append_star
                                      (root_of (lnp_files w !! target)) vals)]>
                (lnp_files w)) w).
Proof.
  intros Hok. unfold mbind at 1. unfold M_bind, openFile.
  destruct (lnp_files w !! target) as [[|root]|] eqn:Hf; [done| |].
  - unfold mbind, M_bind. rewrite (save_lnp_loop_run target vals w root Hf).
    reflexivity.
  - unfold mbind, M_bind.
    rewrite (save_lnp_loop_run target vals _ ∅).
    + unfold put_lnp, set_lnp, closeFile; simpl. by rewrite insert_insert_eq.
    + simpl. apply lookup_insert_eq.
Qed.

(** [save_lnp] when the archive opens (or is created). *)
Lemma save_lnp_run (name : string) (vals : list lnp_entry) (r : bool) (w : World) :
  lnp_files w !! name ≠ Some Corrupted →
  save_lnp name vals r w =
    (Ok (),
     put_lnp (<[name := Archive (foldl append_star
                                    (root_of (lnp_files w !! name)) vals)]>
                (lnp_files w)) w).
Proof.
  intros Hok. rewrite <- (append_to_run name vals w Hok).
  unfold save_lnp, try_except, mbind, M_bind, openFile.
  destruct (lnp_files w !! name) as [[|root]|]; done.
Qed.

(** [save_lnp] when the archive cannot be opened: everything happens on the
    alternate name. *)
Lemma save_lnp_fallback (name : string) (vals : list lnp_entry) (r : bool)
    (w : World) :
  lnp_files w !! name = Some Corrupted →
  save_lnp name vals r w =
    (outfile ← openFile (lnp_partial_name name) ModeA;
     forM vals (λ lnp_val _, save_lnp_entry outfile lnp_val) ();;
     closeFile outfile) w.
Proof.
  intros Hc. unfold save_lnp, try_except, mbind, M_bind.
  unfold openFile at 1. rewrite Hc. reflexivity.
Qed.

Lemma append_star_keeps root v k node :
  root !! k = Some node → append_star root v !! k = Some node.
Proof.
  intros Hk. unfold append_star.
  destruct (root !! star_name (le_star v)) eqn:Hs; auto.
  rewrite lookup_insert_ne; auto. congruence.
Qed.

Lemma foldl_append_star_keeps vals root k node :
  root !! k = Some node → foldl append_star root vals !! k = Some node.
Proof.
  revert root. induction vals as [|v vals IH]; intros root Hk; simpl; auto.
  apply IH. by apply append_star_keeps.
Qed.

(** Every pending star has its group afterwards; a group that was not there
    before holds the four arrays of a pending entry of that star. *)
Lemma foldl_append_star_present vals root v :
  v ∈ vals →
  ∃ node, foldl append_star root vals !! star_name (le_star v) = Some node ∧
    (root !! star_name (le_star v) = None →
     ∃ v', v' ∈ vals ∧ le_star v' = le_star v ∧ node = star_group_of v').
Proof.
  revert root. induction vals as [|u vals IH]; intros root Hin.
  - by apply elem_of_nil in Hin.
  - simpl.
    destruct (root !! star_name (le_star v)) as [node|] eqn:Hroot.
    { exists node. split; [|done].
      apply foldl_append_star_keeps. by apply append_star_keeps. }
    destruct (decide (le_star u = le_star v)) as [Heq|Hne].
    + exists (star_group_of u). split.
      * apply foldl_append_star_keeps. unfold append_star.
        rewrite Heq, Hroot. apply lookup_insert_eq.
      * intros _. exists u. split_and!; auto. left.
    + apply elem_of_cons in Hin as [-> | Hin]; [done|].
      destruct (IH (append_star root u) Hin) as (node & Hnode & Hnew).
      exists node. split; [done|]. intros _.
      destruct Hnew as (v' & ? & ? & ?).
      * unfold append_star.
        destruct (root !! star_name (le_star u)); [done|].
        rewrite lookup_insert_ne; [done|].
        intros Hs. apply Hne. unfold star_name in Hs.
        by simplify_eq.
      * exists v'. split_and!; auto. by right.
Qed.

(** C4.  A pending star whose group name is already in the archive: the
    loop body returns normally and leaves the world (the archive and its
    group) as it was, so none of the four arrays is written; and a whole
    [save_lnp] over any pending list returns normally with that group
    unchanged. *)
Theorem duplicate_star_group_skipped (name : string) (vals : list lnp_entry)
    (r : bool) (v : lnp_entry) (w : World) (root : gmap string h5node)
    (node : h5node) :
  lnp_files w !! name = Some (Archive root) →
  root !! star_name (le_star v) = Some node →
  save_lnp_entry name v w = (Ok (), w) ∧
  ∃ w' root',
    save_lnp name vals r w = (Ok (), w') ∧
    lnp_files w' !! name = Some (Archive root') ∧
    root' !! star_name (le_star v) = Some node.
Proof.
  intros Hf Hn. split; [by eapply save_lnp_entry_dup|].
  eexists _, _. split; [apply save_lnp_run; by rewrite Hf|].
  rewrite Hf. simpl. split; [apply lookup_insert_eq|].
  by apply foldl_append_star_keeps.
Qed.

(** C4, instance: star 0 is flushed a second time, with other data. *)
Lemma duplicate_star_group_skipped_witness :
  let w := put_lnp {[ "run_lnp.hd5" := Archive {[ star_name 0 := star_group_of demo_entry ]} ]}
                   demo_world in
  let v := mkEntry 0 [7] [Fin 5] [Fin 6] [[Fin 1]] in
  save_lnp_entry "run_lnp.hd5" v w = (Ok (), w) ∧
  ∃ w' root',
    save_lnp "run_lnp.hd5" [v] false w = (Ok (), w') ∧
    lnp_files w' !! "run_lnp.hd5" = Some (Archive root') ∧
    root' !! star_name 0 = Some (star_group_of demo_entry).
Proof.
  intros w v.
  apply (duplicate_star_group_skipped "run_lnp.hd5" [v] false v w
           {[ star_name 0 := star_group_of demo_entry ]}
           (star_group_of demo_entry)).
  - reflexivity.
  - reflexivity.
Defined.

(** *** The alternate archive name *)

Lemma string_length_app (a b : string) :
  String.length (a +:+ b) = String.length a + String.length b.
Proof. induction a as [|c a IH]; simpl; auto. Qed.

Lemma prefix_app (old b : string) : String.prefix old (old +:+ b) = true.
Proof.
  induction old as [|c old IH]; simpl.
  - by destruct b.
  - destruct (Ascii.ascii_dec c c); [auto | done].
Qed.

Lemma replace_from_length_ge (old new : string) (k : nat) (s : string) :
  1 ≤ String.length old → String.length old ≤ String.length new →
  String.length s ≤ String.length (replace_from old new k s) + k.
Proof.
  intros Hold Hnew. revert k.
  induction s as [|c s IH]; intros k; cbn [replace_from String.length].
  - lia.
  - destruct k as [|k].
    + destruct (String.prefix old (String c s)).
      * rewrite string_length_app.
        specialize (IH (String.length old - 1)). lia.
      * cbn [String.length]. specialize (IH 0). lia.
    + specialize (IH k). lia.
Qed.

(** Replacing by something longer lengthens a string in which [old] occurs. *)
Lemma replace_from_length_gt (old new a b : string) :
  1 ≤ String.length old → String.length old < String.length new →
  String.length (a +:+ old +:+ b) <
  String.length (replace_from old new 0 (a +:+ old +:+ b)).
Proof.
  intros Hold Hnew.
  assert (∀ s, String.prefix old s = true → s ≠ EmptyString →
               String.length s < String.length (replace_from old new 0 s)) as Hhit.
  { intros [|c s] Hp Hne; [done|]. cbn [replace_from String.length]. rewrite Hp.
    rewrite string_length_app.
    pose proof (replace_from_length_ge old new (String.length old - 1) s).
    lia. }
  induction a as [|c a IH].
  - change ("" +:+ old +:+ b) with (old +:+ b).
    apply Hhit; [apply prefix_app|].
    destruct old; cbn [String.length String.append] in *; [lia | done].
  - destruct (String.prefix old (String c a +:+ old +:+ b)) eqn:Hp.
    + by apply Hhit.
    + change (String c a +:+ old +:+ b) with (String c (a +:+ old +:+ b)) in *.
      cbn [replace_from]. rewrite Hp.
      cbn [String.length]. lia.
Qed.

Lemma lnp_partial_name_distinct (a b : string) :
  lnp_partial_name (a +:+ "lnp" +:+ b) ≠ a +:+ "lnp" +:+ b.
Proof.
  intros Heq. unfold lnp_partial_name, py_replace in Heq.
  pose proof (replace_from_length_gt "lnp" "lnp_partial" a b) as Hlt.
  rewrite Heq in Hlt. simpl in Hlt. lia.
Qed.




(** ** Array accesses *)

Lemma get1_Ok {A} (a : list A) i x : get1 a i = Ok x ↔ a !! i = Some x.
Proof. unfold get1. destruct (a !! i); split; congruence. Qed.

Lemma set1_Ok {A} (a a' : list A) i v :
  set1 i v a = Ok a' ↔ i < length a ∧ a' = <[i := v]> a.
Proof.
  unfold set1. case_decide; split.
  - by intros [= <-].
  - by intros [_ ->].
  - done.
  - intros [? _]. lia.
Qed.

Lemma mapR_Forall2 {A B} (f : A → result B) (l : list A) (k : list B) :
  mapR f l = Ok k ↔ Forall2 (λ x y, f x = Ok y) l k.
Proof.
  revert k. induction l as [|x l IH]; intros k; simpl.
  - split; [intros [= <-]; constructor | by intros ->%Forall2_nil_inv_l].
  - split.
    + intros Hm. inv_ok. subst. constructor; [done|]. by apply IH.
    + intros (y & k' & Hy & Hk & ->)%Forall2_cons_inv_l.
      rewrite Hy. simpl. apply IH in Hk. rewrite Hk. reflexivity.
Qed.

Lemma take_idx_spec {A} (a : list A) (idx : list nat) (l : list A) :
  take_idx a idx = Ok l ↔ Forall2 (λ i x, a !! i = Some x) idx l.
Proof.
  unfold take_idx. rewrite mapR_Forall2.
  split; intros HF; eapply Forall2_impl; [exact HF| |exact HF|];
    intros i x; simpl.
  - destruct (a !! i); [by intros [= ->] | done].
  - by intros ->.
Qed.

Lemma take_idx_length {A} (a : list A) idx l :
  take_idx a idx = Ok l → length l = length idx.
Proof. intros Ht%take_idx_spec. symmetry. by eapply Forall2_length. Qed.

(** Indexing an array with the positions [np.where] found selects the
    entries that pass the test. *)
Lemma take_idx_where_from {A} (f : A → bool) (pre l : list A) :
  take_idx (pre ++ l) (np_where_from f (length pre) l) = Ok (List.filter f l).
Proof.
  revert pre. induction l as [|x l IH]; intros pre; [done|].
  specialize (IH (pre ++ [x])).
  rewrite <- app_assoc, length_app in IH. cbn [length app] in IH.
  replace (length pre + 1) with (S (length pre)) in IH by lia.
  cbn [np_where_from List.filter].
  destruct (f x); [|exact IH].
  unfold take_idx in *. cbn [mapR].
  rewrite list_lookup_middle by done. rewrite IH. reflexivity.
Qed.

Lemma take_idx_where {A} (f : A → bool) (l : list A) :
  take_idx l (np_where f l) = Ok (List.filter f l).
Proof. apply (take_idx_where_from f [] l). Qed.

(** ** Frames *)

Lemma only_rows_refl {X} P (a : list X) : only_rows P a a.
Proof. by split. Qed.

Lemma only_rows_trans {X} P (a b c : list X) :
  only_rows P a b → only_rows P b c → only_rows P a c.
Proof.
  intros [Hl1 H1] [Hl2 H2]. split; [congruence|].
  intros i Hi. by rewrite H2, H1.
Qed.

Lemma only_rows_mono {X} (P Q : nat → Prop) (a b : list X) :
  (∀ i, P i → Q i) → only_rows P a b → only_rows Q a b.
Proof. intros HPQ [Hl Hr]. split; [done|]. intros i Hi. apply Hr. auto. Qed.

Lemma only_rows_insert {X} e (a : list X) x : only_rows (eq e) a (<[e := x]> a).
Proof.
  split; [apply length_insert|]. intros i Hi. by apply list_lookup_insert_ne.
Qed.

Lemma only_rows_each_refl {X} P (v : list (list X)) : only_rows_each P v v.
Proof.
  apply Forall2_same_length_lookup. split; [done|].
  intros i x y Hx Hy. assert (x = y) as -> by congruence. apply only_rows_refl.
Qed.

Lemma only_rows_each_trans {X} P (a b c : list (list X)) :
  only_rows_each P a b → only_rows_each P b c → only_rows_each P a c.
Proof.
  unfold only_rows_each. intros Hab.
  revert c. induction Hab as [|x y a b Hxy Hab IH]; intros c Hbc.
  - by apply Forall2_nil_inv_l in Hbc as ->.
  - apply Forall2_cons_inv_l in Hbc as (z & c' & Hyz & Hbc & ->).
    constructor; [by eapply only_rows_trans | by apply IH].
Qed.

Lemma only_rows_each_mono {X} (P Q : nat → Prop) (a b : list (list X)) :
  (∀ i, P i → Q i) → only_rows_each P a b → only_rows_each Q a b.
Proof.
  intros HPQ HF. eapply Forall2_impl; [exact HF|].
  intros x y. by apply only_rows_mono.
Qed.

Lemma only_rows_each_insert {X} P k (v : list (list X)) arr arr' :
  v !! k = Some arr → only_rows P arr arr' →
  only_rows_each P v (<[k := arr']> v).
Proof.
  intros Hk Harr. apply Forall2_same_length_lookup. split.
  - by rewrite length_insert.
  - intros i x y Hx Hy. destruct (decide (i = k)) as [->|Hne].
    + rewrite list_lookup_insert_eq in Hy by (by eapply lookup_lt_Some).
      congruence.
    + rewrite list_lookup_insert_ne in Hy by done.
      assert (x = y) as -> by congruence. apply only_rows_refl.
Qed.

Lemma set2_only_rows {X} e k (v : X) a a' :
  set2 e k v a = Ok a' → only_rows (eq e) a a'.
Proof. unfold set2. intros Hs. inv_ok. subst. apply only_rows_insert. Qed.

Lemma set_row_only_rows {X} e (vals : list X) a a' :
  set_row e vals a = Ok a' → only_rows (eq e) a a'.
Proof. unfold set_row. intros Hs. inv_ok. subst. apply only_rows_insert. Qed.

Lemma set_row3_only_rows {X} e k (vals : list X) a a' :
  set_row3 e k vals a = Ok a' → only_rows (eq e) a a'.
Proof. unfold set_row3. intros Hs. inv_ok. subst. apply only_rows_insert. Qed.

Lemma mem_frame_refl P mem : mem_frame P mem mem.
Proof. split; auto using only_rows_refl, only_rows_each_refl. Qed.

Lemma mem_frame_trans P a b c :
  mem_frame P a b → mem_frame P b c → mem_frame P a c.
Proof.
  intros [] []. split; eauto using only_rows_trans, only_rows_each_trans.
Qed.

Lemma mem_frame_mono (P Q : nat → Prop) a b :
  (∀ i, P i → Q i) → mem_frame P a b → mem_frame Q a b.
Proof.
  intros HPQ []. split; eauto using only_rows_mono, only_rows_each_mono.
Qed.

Lemma mem_frame_pending P mem pending :
  mem_frame P mem (with_pending pending mem).
Proof. split; simpl; auto using only_rows_refl, only_rows_each_refl. Qed.

(** ** One star: inversion and frame *)

Section Star.
Context `{Beast}.

Lemma star_stats_inv (run : Run) (e : nat) (lnp chi2 : list npfloat)
    (indx : list nat) (mem mem' : Mem) (weights : list npfloat) (best : nat) :
  star_stats run e lnp chi2 indx mem = Ok (weights, best, mem') →
  ∃ lnps chi2s log_norm cmin wi ci cfull sg,
    take_idx lnp indx = Ok lnps ∧ take_idx chi2 indx = Ok chi2s ∧
    np_max lnps = Ok log_norm ∧ np_min chi2s = Ok cmin ∧
    weights = (λ x, fexp (fsub x log_norm)) <$> lnps ∧
    np_argmax weights = Ok wi ∧
    (∃ i, indx !! wi = Some i ∧ g0_indxs run !! i = Some best) ∧
    np_argmin chi2s = Ok ci ∧
    (∃ i, indx !! ci = Some i ∧ g0_indxs run !! i = Some cfull) ∧
    g0_specgrid_indx run !! best = Some sg ∧
    e < length (best_specgrid_indx mem) ∧ e < length (chi2_vals mem) ∧
    e < length (chi2_indx mem) ∧ e < length (lnp_vals mem) ∧
    e < length (lnp_indx mem) ∧
    mem' = mkMem (best_vals mem) (exp_vals mem) (per_vals mem)
             (<[e := cmin]> (chi2_vals mem))
             (<[e := of_nat cfull]> (chi2_indx mem))
             (<[e := log_norm]> (lnp_vals mem))
             (<[e := of_nat best]> (lnp_indx mem))
             (<[e := sg]> (best_specgrid_indx mem))
             (save_pdf1d_vals mem) (save_lnp_vals mem).
Proof.
  unfold star_stats. intros Hs. inv_ok.
  repeat match goal with
  | H : get1 _ _ = Ok _ |- _ => apply get1_Ok in H
  | H : set1 _ _ _ = Ok _ |- _ => apply set1_Ok in H as [? ->]
  end.
  subst.
  match goal with H1 : np_max ?l = Ok ?a, H2 : np_max ?l = Ok ?b |- _ =>
    assert (b = a) as -> by congruence end.
  eexists _, _, _, _, _, _, _, _. split_and!; eauto.
Qed.

Lemma star_stats_frame run e lnp chi2 indx mem weights best mem' :
  star_stats run e lnp chi2 indx mem = Ok (weights, best, mem') →
  mem_frame (eq e) mem mem' ∧ save_lnp_vals mem' = save_lnp_vals mem.
Proof.
  intros Hs. apply star_stats_inv in Hs
    as (? & ? & ? & ? & ? & ? & ? & ? & _ & _ & _ & _ & _ & _ & _ & _
        & _ & _ & _ & _ & _ & _ & _ & ->).
  split; [|done].
  split; simpl; auto using only_rows_refl, only_rows_each_refl, only_rows_insert.
Qed.

Lemma percentile_step_only_rows run e k bins vals pers pers' :
  percentile_step run e k bins vals pers = Ok pers' →
  only_rows (eq e) pers pers'.
Proof.
  unfold percentile_step. intros Hp. inv_ok.
  destruct (fgt _ _); by eapply set_row3_only_rows.
Qed.

(** [param_stats] on star [e] changes row [e] of the per-parameter arrays and
    nothing else. *)
Lemma param_stats_frame run e indx weights best mem kq mem' :
  param_stats run e indx weights best mem kq = Ok mem' →
  mem_frame (eq e) mem mem' ∧
  chi2_vals mem' = chi2_vals mem ∧ chi2_indx mem' = chi2_indx mem ∧
  lnp_vals mem' = lnp_vals mem ∧ lnp_indx mem' = lnp_indx mem ∧
  best_specgrid_indx mem' = best_specgrid_indx mem ∧
  save_lnp_vals mem' = save_lnp_vals mem.
Proof.
  unfold param_stats. intros Hp. inv_ok. subst. simpl.
  split_and!; auto. split; simpl; auto using only_rows_refl.
  - by eapply set2_only_rows.
  - by eapply set2_only_rows.
  - by eapply percentile_step_only_rows.
  - match goal with Hg : get1 (save_pdf1d_vals mem) _ = Ok _ |- _ =>
      apply get1_Ok in Hg; eapply only_rows_each_insert; [exact Hg|] end.
    by eapply set_row_only_rows.
Qed.

Lemma param_stats_fold_frame run e indx weights best kqs mem mem' :
  foldR (param_stats run e indx weights best) mem kqs = Ok mem' →
  mem_frame (eq e) mem mem' ∧
  chi2_vals mem' = chi2_vals mem ∧ chi2_indx mem' = chi2_indx mem ∧
  lnp_vals mem' = lnp_vals mem ∧ lnp_indx mem' = lnp_indx mem ∧
  best_specgrid_indx mem' = best_specgrid_indx mem ∧
  save_lnp_vals mem' = save_lnp_vals mem.
Proof.
  revert mem. induction kqs as [|kq kqs IH]; intros mem Hf; simpl in Hf.
  - injection Hf as <-. split_and!; auto using mem_frame_refl.
  - inv_ok.
    match goal with Hp : param_stats _ _ _ _ _ _ _ = Ok ?m |- _ =>
      apply param_stats_frame in Hp as (? & ? & ? & ? & ? & ? & ?);
      destruct (IH m Hf) as (? & ? & ? & ? & ? & ? & ?) end.
    split_and!; try congruence. by eapply mem_frame_trans.
Qed.

(** The incremental save returns the arrays as they are, with the pending
    entries emptied when they were written. *)
Lemma incremental_save_inv opts prev_result qnames e mem mem' w w' :
  incremental_save opts prev_result qnames e mem w = (Ok mem', w') →
  mem' = mem ∨ mem' = with_pending [] mem.
Proof.
  unfold incremental_save. intros Hi.
  destruct (save_every_npts opts) as [n|]; [|injection Hi as <- <-; by left].
  apply bindM_Ok in Hi as (due & w1 & _ & Hi).
  destruct due; [|injection Hi as <- <-; by left].
  apply bindM_Ok in Hi as (? & w2 & _ & Hi).
  destruct (lnp_outname opts); injection Hi as <- <-; auto.
Qed.

Lemma star_step_inv (opts : Options) (run : Run) (prev_result : Table)
    (qnames : list string) (e : nat) (sed : list npfloat) (mem mem' : Mem)
    (w w' : World) :
  star_step opts run prev_result qnames (e, sed) mem w = (Ok mem', w') →
  ∃ lnp chi2 indx pending w1 weights best mem1 mem2,
    posterior run (threshold opts) sed = Ok (lnp, chi2, indx) ∧
    pending_lnp opts run e sed lnp chi2 indx (save_lnp_vals mem) w
      = (Ok pending, w1) ∧
    star_stats run e lnp chi2 indx (with_pending pending mem)
      = Ok (weights, best, mem1) ∧
    foldR (param_stats run e indx weights best) mem1 (imap pair qnames)
      = Ok mem2 ∧
    incremental_save opts prev_result qnames e mem2 w1 = (Ok mem', w').
Proof.
  unfold star_step. simpl. intros Hs.
  apply bindM_Ok in Hs as ([[lnp chi2] indx] & w0 & Hpost & Hs).
  apply lift_Ok in Hpost as [Hpost ->].
  apply bindM_Ok in Hs as (pending & w1 & Hpend & Hs).
  apply bindM_Ok in Hs as ([[weights best] mem1] & w2 & Hst & Hs).
  apply lift_Ok in Hst as [Hst ->].
  apply bindM_Ok in Hs as (mem2 & w3 & Hpar & Hs).
  apply lift_Ok in Hpar as [Hpar ->].
  eexists _, _, _, _, _, _, _, _, _. split_and!; eauto.
Qed.

(** The step for star [e] changes row [e] of the result arrays only. *)
Lemma star_step_frame opts run prev_result qnames e sed mem mem' w w' :
  star_step opts run prev_result qnames (e, sed) mem w = (Ok mem', w') →
  mem_frame (eq e) mem mem'.
Proof.
  intros (lnp & chi2 & indx & pending & w1 & weights & best & mem1 & mem2
          & _ & _ & Hst & Hpar & Hinc)%star_step_inv.
  apply star_stats_frame in Hst as [Hst _].
  apply param_stats_fold_frame in Hpar as [Hpar _].
  assert (mem_frame (eq e) mem mem2) as Hfr.
  { eapply mem_frame_trans; [apply mem_frame_pending|].
    by eapply mem_frame_trans. }
  apply incremental_save_inv in Hinc as [-> | ->]; [done|].
  eapply mem_frame_trans; [exact Hfr | apply mem_frame_pending].
Qed.

(** The loop over a list of stars changes the rows of these stars only. *)
Lemma star_loop_frame opts run prev_result qnames stars mem mem' w w' :
  forM stars (star_step opts run prev_result qnames) mem w = (Ok mem', w') →
  mem_frame (λ i, i ∈ stars.*1) mem mem'.
Proof.
  revert mem w. induction stars as [|[e sed] stars IH]; intros mem w Hl.
  - injection Hl as <- <-. apply mem_frame_refl.
  - simpl in Hl. apply bindM_Ok in Hl as (mem1 & w1 & Hstep & Hl).
    apply star_step_frame in Hstep. apply IH in Hl.
    eapply mem_frame_trans.
    + eapply mem_frame_mono; [|exact Hstep]. intros i <-. simpl. left.
    + eapply mem_frame_mono; [|exact Hl]. intros i Hi. simpl. by right.
Qed.

End Star.

(** ** The prior (C6) *)

Lemma np_sum_Fin_acc (acc : R) (ws : list R) :
  foldl fadd (Fin acc) (Fin <$> ws) = Fin (acc + Rsum ws).
Proof.
  revert acc. induction ws as [|w ws IH]; intros acc; simpl.
  - f_equal. lra.
  - rewrite IH. f_equal. lra.
Qed.

Lemma np_sum_Fin (ws : list R) : np_sum (Fin <$> ws) = Fin (Rsum ws).
Proof. unfold np_sum, fzero. rewrite np_sum_Fin_acc. f_equal. lra. Qed.

Lemma filter_positive_Fin (ws : list R) :
  List.filter (λ x, fgt x fzero) (Fin <$> ws) = Fin <$> List.filter positive ws.
Proof.
  induction ws as [|w ws IH]; simpl; [done|].
  change (bool_decide (w > 0)%R) with (positive w).
  destruct (positive w); simpl; [f_equal|]; exact IH.
Qed.

Lemma Rsum_filter_positive (ws : list R) :
  Forall (λ w, (0 <= w)%R) ws → Rsum (List.filter positive ws) = Rsum ws.
Proof.
  induction 1 as [|w ws Hw Hws IH]; simpl; [done|].
  unfold positive at 1. case_bool_decide; simpl; lra.
Qed.

Lemma Rsum_nonneg ws : Forall (λ w, (0 <= w)%R) ws → (0 <= Rsum ws)%R.
Proof. induction 1; simpl; lra. Qed.

Lemma Rsum_ge_elem ws i w :
  Forall (λ w, (0 <= w)%R) ws → ws !! i = Some w → (w <= Rsum ws)%R.
Proof.
  intros Hall. revert i. induction Hall as [|x ws Hx Hws IH]; intros i Hi.
  - done.
  - pose proof (Rsum_nonneg ws Hws). destruct i as [|i]; simpl in *.
    + injection Hi as ->. lra.
    + specialize (IH i Hi). lra.
Qed.

Lemma ln_quot (w t : R) : (0 < w)%R → (0 < t)%R → (ln w + - ln t)%R = ln (w / t).
Proof.
  intros Hw Ht. unfold Rdiv. rewrite ln_mult; [|done|by apply Rinv_0_lt_compat].
  by rewrite ln_Rinv.
Qed.

Lemma log_prior_run (ws : list R) :
  Forall (λ w, (0 <= w)%R) ws →
  log_prior (Fin <$> ws) (weight_mask (Fin <$> ws)) =
    Ok ((λ w, Fin (ln (w / Rsum ws))) <$> List.filter positive ws).
Proof.
  intros Hall. unfold log_prior, weight_mask.
  rewrite take_idx_where, filter_positive_Fin. simpl.
  rewrite np_sum_Fin, Rsum_filter_positive by done.
  f_equal. rewrite <- !list_fmap_compose.
  apply list_eq. intros j. rewrite !list_lookup_fmap.
  destruct (List.filter positive ws !! j) as [w|] eqn:Hj; [simpl|done].
  f_equal.
  apply list_elem_of_lookup_2, list_elem_of_In, filter_In in Hj as [Hin Hpos].
  apply bool_decide_eq_true in Hpos.
  apply list_elem_of_In, list_elem_of_lookup_1 in Hin as [i Hi].
  pose proof (Rsum_ge_elem ws i w Hall Hi).
  rewrite !decide_True by lra. simpl. f_equal. apply ln_quot; lra.
Qed.

Lemma weight_mask_spec (ws : list R) (i : nat) :
  i ∈ weight_mask (Fin <$> ws) ↔ ∃ w, ws !! i = Some w ∧ (0 < w)%R.
Proof.
  unfold weight_mask. rewrite np_where_spec. rewrite list_lookup_fmap. split.
  - intros (x & Hx & Hgt). destruct (ws !! i) as [w|]; [|done].
    injection Hx as <-. simpl in Hgt. apply bool_decide_eq_true in Hgt.
    exists w. split; [done|lra].
  - intros (w & -> & Hw). exists (Fin w). split; [done|].
    simpl. apply bool_decide_eq_true. lra.
Qed.

Lemma mask_filter_lookup (ws : list R) (j i : nat) (w : R) :
  weight_mask (Fin <$> ws) !! j = Some i → ws !! i = Some w →
  List.filter positive ws !! j = Some w.
Proof.
  intros Hj Hi.
  pose proof (take_idx_where (λ x, fgt x fzero) (Fin <$> ws)) as Ht.
  rewrite filter_positive_Fin in Ht. apply take_idx_spec in Ht.
  destruct (Forall2_lookup_l _ _ _ _ _ Ht Hj) as (x & Hx & Hix).
  rewrite list_lookup_fmap, Hi in Hix. injection Hix as <-.
  rewrite list_lookup_fmap in Hx.
  destruct (List.filter positive ws !! j); [|done]. by injection Hx as ->.
Qed.

Lemma mask_filter_length (ws : list R) :
  length (List.filter positive ws) = length (weight_mask (Fin <$> ws)).
Proof.
  pose proof (take_idx_where (λ x, fgt x fzero) (Fin <$> ws)) as Ht.
  rewrite filter_positive_Fin in Ht. apply take_idx_length in Ht.
  by rewrite length_fmap in Ht.
Qed.

Lemma broadcast1_same {A} (n : nat) (vals : list A) :
  length vals = n → broadcast1 n vals = Ok vals.
Proof. intros Hl. unfold broadcast1. by rewrite decide_True. Qed.

Section Prior.
Context `{Beast}.

End Prior.


(** ** Validation of the requested parameters *)

Lemma load_grid_world (sedgrid : string + SEDGrid) (w w' : World) r :
  load_grid sedgrid w = (r, w') → w' = w.
Proof.
  destruct sedgrid as [name|g]; simpl.
  - unfold FileSEDGrid. destruct (grid_files w !! name); by intros [= _ <-].
  - by intros [= _ <-].
Qed.

(** [check_keys] stops at the first key that is not a column of the grid. *)
Lemma check_keys_first_unknown (g : SEDGrid) (pre post : list string) (k : string) :
  (∀ x, x ∈ pre → x ∈ grid_keys g) → k ∉ grid_keys g →
  check_keys g (pre ++ k :: post) = Raise (KeyError (key_not_recognized k)).
Proof.
  unfold check_keys. intros Hpre Hk.
  induction pre as [|x pre IH]; simpl.
  - by rewrite bool_decide_eq_false_2.
  - rewrite bool_decide_eq_true_2 by (apply Hpre; left). simpl.
    apply IH. intros y Hy. apply Hpre. by right.
Qed.

Lemma first_unknown (g : SEDGrid) (keys : list string) :
  (∃ k, k ∈ keys ∧ k ∉ grid_keys g) →
  ∃ pre k post, keys = pre ++ k :: post ∧
                (∀ x, x ∈ pre → x ∈ grid_keys g) ∧ k ∉ grid_keys g.
Proof.
  induction keys as [|x keys IH]; intros (k & Hin & Hk).
  - by apply elem_of_nil in Hin.
  - destruct (decide (x ∈ grid_keys g)) as [Hx|Hx].
    + destruct IH as (pre & k' & post & -> & Hpre & Hk').
      { apply elem_of_cons in Hin as [-> | Hin]; [done|]. eauto. }
      exists (x :: pre), k', post. split_and!; auto.
      intros y [-> | Hy]%elem_of_cons; auto.
    + exists [], x, keys. split_and!; auto. intros y Hy. by apply elem_of_nil in Hy.
Qed.

Lemma real_keys_spec (keys : list string) (k : string) :
  k ∈ real_keys keys ↔ k ∈ keys ∧ k ∉ skip_keys.
Proof.
  unfold real_keys. rewrite list_elem_of_In, filter_In, <- list_elem_of_In.
  rewrite negb_true_iff, bool_decide_eq_false. tauto.
Qed.

Section Keys.
Context `{Beast}.

(** X2.  Some requested name is neither in the skip list nor a column of
    the grid.  Then [summary_table_memory] raises the key error naming the
    first such name (in request order), the world is as it was before the
    call, and this holds whatever the likelihood and statistics functions
    are. *)
Theorem unknown_key_fails_fast (obs : Observations) (noisemodel : NoiseModel)
    (sedgrid : string + SEDGrid) (g : SEDGrid) (ks : list string) (thr : R)
    (save_every : option Z) (npts : option nat) (resume_run : bool)
    (stats_out pdf1d_out lnp_out : option string) (w : World) :
  load_grid sedgrid w = (Ok g, w) →
  (∃ k, k ∈ ks ∧ (k ∉ skip_keys) ∧ (k ∉ grid_keys g)) →
  ∃ pre k post,
    real_keys ks = pre ++ k :: post ∧
    (∀ x, x ∈ pre → x ∈ grid_keys g) ∧
    k ∈ ks ∧ (k ∉ skip_keys) ∧ (k ∉ grid_keys g) ∧
    summary_table_memory obs noisemodel sedgrid (Some ks) thr save_every npts
      resume_run stats_out pdf1d_out lnp_out w
    = (Raise (KeyError (key_not_recognized k)), w).
Proof.
  intros Hload (k0 & Hin & Hskip & Hk0).
  destruct (first_unknown g (real_keys ks)) as (pre & k & post & Heq & Hpre & Hk).
  { exists k0. split; [|done]. by apply real_keys_spec. }
  assert (k ∈ real_keys ks) as [? ?]%real_keys_spec.
  { rewrite Heq. apply elem_of_app. right. left. }
  exists pre, k, post. split_and!; auto.
  unfold summary_table_memory, mbind, M_bind. rewrite Hload.
  unfold lift. rewrite Heq, (check_keys_first_unknown g pre post k Hpre Hk).
  reflexivity.
Qed.

End Keys.

(** X2, instance: "mass" is a column of the demo grid, "age" is not. *)
Lemma unknown_key_fails_fast_witness :
  ∃ pre k post,
    real_keys ["mass"; "age"] = pre ++ k :: post ∧
    (∀ x, x ∈ pre → x ∈ grid_keys demo_grid) ∧
    k ∈ ["mass"; "age"] ∧ (k ∉ skip_keys) ∧ (k ∉ grid_keys demo_grid) ∧
    @summary_table_memory demo_beast demo_obs demo_noise (inr demo_grid)
      (Some ["mass"; "age"]) (-10) None None false None None None demo_world
    = (Raise (KeyError (key_not_recognized k)), demo_world).
Proof.
  apply (@unknown_key_fails_fast demo_beast).
  - reflexivity.
  - exists "age". split_and!.
    + by right; left.
    + apply (proj1 (bool_decide_eq_false _)). by vm_compute.
    + apply (proj1 (bool_decide_eq_false _)). by vm_compute.
Defined.

Lemma check_keys_all_known (g : SEDGrid) (keys : list string) :
  (∀ k, k ∈ keys → k ∈ grid_keys g) → check_keys g keys = Ok ().
Proof.
  unfold check_keys. induction keys as [|x keys IH]; intros Hall; simpl; [done|].
  rewrite bool_decide_eq_true_2 by (apply Hall; left). simpl.
  apply IH. intros k Hk. apply Hall. by right.
Qed.

Lemma real_keys_idemp (keys : list string) :
  real_keys (real_keys keys) = real_keys keys.
Proof.
  unfold real_keys. induction keys as [|k keys IH]; simpl; [done|].
  destruct (negb (bool_decide (k ∈ skip_keys))) eqn:Hk; simpl; [|done].
  rewrite Hk. by f_equal.
Qed.

Section KeysPass.
Context `{Beast}.

(** When every requested name that is not skipped is a column of the grid,
    [summary_table_memory] is [Q_all_memory] on the names left, with the
    percentiles 16, 50, 84 and at most 50 bins. *)
Lemma summary_table_memory_pass (obs : Observations) (noisemodel : NoiseModel)
    (sedgrid : string + SEDGrid) (g : SEDGrid) (ks : list string) (thr : R)
    (save_every : option Z) (npts : option nat) (resume_run : bool)
    (stats_out pdf1d_out lnp_out : option string) (w : World) (res : Table) :
  load_grid sedgrid w = (Ok g, w) →
  (∀ k, k ∈ ks → k ∉ skip_keys → k ∈ grid_keys g) →
  IAU_names_and_extra_info obs = Ok res →
  summary_table_memory obs noisemodel sedgrid (Some ks) thr save_every npts
    resume_run stats_out pdf1d_out lnp_out w
  = Q_all_memory res obs (inr g) noisemodel (real_keys ks)
      (mkOptions [16; 50; 84]%Z 50 stats_out pdf1d_out lnp_out npts save_every
                 thr resume_run) w.
Proof.
  intros Hload Hall Hres.
  unfold summary_table_memory, mbind at 1 2 3, M_bind. rewrite Hload.
  unfold lift. rewrite check_keys_all_known, Hres; [done|].
  intros k [? ?]%real_keys_spec. auto.
Qed.

(** X3.  Names of the skip list ("osl", "keep", "weight", "fullgrid_idx",
    "stage", "specgrid_indx") are dropped before the validation: a request
    behaves as the same request without them, whether or not they are
    columns of the grid. *)
Theorem skip_list_names_are_dropped (obs : Observations)
    (noisemodel : NoiseModel) (sedgrid : string + SEDGrid) (ks : list string)
    (thr : R) (save_every : option Z) (npts : option nat) (resume_run : bool)
    (stats_out pdf1d_out lnp_out : option string) (w : World) :
  summary_table_memory obs noisemodel sedgrid (Some ks) thr save_every npts
    resume_run stats_out pdf1d_out lnp_out w
  = summary_table_memory obs noisemodel sedgrid (Some (real_keys ks)) thr
      save_every npts resume_run stats_out pdf1d_out lnp_out w.
Proof.
  unfold summary_table_memory. by rewrite real_keys_idemp.
Qed.

(** X4.  With [keys=None] the parameters are the columns of the grid
    without the skip list, in the grid's order, and the validation cannot
    fail: when the source names can be built the call is [Q_all_memory] on
    these parameters. *)
Theorem default_keys_are_grid_columns (obs : Observations)
    (noisemodel : NoiseModel) (sedgrid : string + SEDGrid) (g : SEDGrid)
    (thr : R) (save_every : option Z) (npts : option nat) (resume_run : bool)
    (stats_out pdf1d_out lnp_out : option string) (w : World) (res : Table) :
  load_grid sedgrid w = (Ok g, w) →
  IAU_names_and_extra_info obs = Ok res →
  summary_table_memory obs noisemodel sedgrid None thr save_every npts
    resume_run stats_out pdf1d_out lnp_out w
  = Q_all_memory res obs (inr g) noisemodel (real_keys (grid_keys g))
      (mkOptions [16; 50; 84]%Z 50 stats_out pdf1d_out lnp_out npts save_every
                 thr resume_run) w.
Proof.
  intros Hload Hres.
  rewrite <- (summary_table_memory_pass obs noisemodel sedgrid g (grid_keys g)
                thr save_every npts resume_run stats_out pdf1d_out lnp_out w res);
    auto.
  unfold summary_table_memory. cbv [mbind M_bind]. by rewrite Hload.
Qed.

End KeysPass.

Lemma empty_obs_names :
  ∃ res, @IAU_names_and_extra_info demo_beast empty_obs = Ok res.
Proof. eexists. vm_compute. reflexivity. Qed.

(** X4, instance: the demo grid and a catalogue without stars. *)
Lemma default_keys_are_grid_columns_witness :
  ∃ res,
    @summary_table_memory demo_beast empty_obs demo_noise (inr demo_grid) None
      (-10) None None false None None None demo_world
    = @Q_all_memory demo_beast res empty_obs (inr demo_grid) demo_noise
        (real_keys (grid_keys demo_grid))
        (mkOptions [16; 50; 84]%Z 50 None None None None None (-10) false)
        demo_world.
Proof.
  destruct empty_obs_names as [res Hres]. exists res.
  apply (@default_keys_are_grid_columns demo_beast); [reflexivity | exact Hres].
Defined.

(** X3, example: "keep" is requested and is not a column of the demo grid,
    yet no key error is raised; the name is dropped and the run completes
    without any parameter. *)
Lemma skipped_unknown_key_example :
  bool_decide ("keep" ∈ grid_keys demo_grid) = false ∧
  @summary_table_memory demo_beast empty_obs demo_noise (inr demo_grid)
    (Some ["keep"]) (-10) None None false None None None demo_world
  = (Ok (), demo_world).
Proof.
  split; [by vm_compute|].
  destruct empty_obs_names as [res Hres].
  rewrite (@summary_table_memory_pass demo_beast _ _ _ demo_grid _ _ _ _ _ _ _ _ _ res);
    [| reflexivity | | exact Hres].
  - change (real_keys ["keep"]) with (@nil string). reval.
  - intros k [-> | Hk%elem_of_nil]%elem_of_cons Hs; [|done].
    exfalso. apply Hs. by apply (bool_decide_unpack _); vm_compute.
Qed.

(** X1, instance: three percentiles and a histogram of zeros. *)
Lemma percentile_step_zero_hist_witness :
  @percentile_step demo_beast demo_run 0 0 [Fin 1; Fin 1] [fzero; fzero]
    (zeros3 1 1 3)
  = Ok [[[fzero; fzero; fzero]]].
Proof.
  apply (@percentile_step_zero_hist demo_beast demo_run 0 0 [Fin 1; Fin 1]
           [fzero; fzero] (zeros3 1 1 3) (zeros2 1 3) (zeros1 3));
    [reval | reflexivity | reflexivity].
Defined.

(** ** Resuming a run *)

Lemma foldl_max_spec (l : list nat) (x : nat) :
  let m := foldl Nat.max x l in
  (m = x ∨ m ∈ l) ∧ x ≤ m ∧ ∀ y, y ∈ l → y ≤ m.
Proof.
  revert x. induction l as [|a l IH]; intros x; cbn [foldl].
  - split_and!; auto. intros y Hy. by apply elem_of_nil in Hy.
  - destruct (IH (x `max` a)) as (Hin & Hle & Hall). split_and!.
    + destruct Hin as [Heq | Hin]; [|right; by right].
      destruct (Nat.max_spec x a) as [[_ Hm] | [_ Hm]]; rewrite Hm in *.
      * right. rewrite Heq. left.
      * by left.
    + lia.
    + intros y [-> | Hy]%elem_of_cons; [lia | auto].
Qed.

Lemma py_max_nat_spec (l : list nat) (m : nat) :
  py_max_nat l = Ok m ↔ m ∈ l ∧ ∀ y, y ∈ l → y ≤ m.
Proof.
  destruct l as [|x l]; simpl.
  - split; [done | by intros [?%elem_of_nil _]].
  - destruct (foldl_max_spec l x) as (Hin & Hle & Hall). split.
    + intros [= <-]. split.
      * destruct Hin as [-> | ?]; [left | by right].
      * intros y [-> | Hy]%elem_of_cons; auto.
    + intros [Hm Hmax]. f_equal. apply Nat.le_antisymm.
      * apply Hmax. destruct Hin as [-> | ?]; [left | by right].
      * apply elem_of_cons in Hm as [-> | Hm]; auto.
Qed.

Lemma py_max_nat_empty (l : list nat) e :
  py_max_nat l = Raise e ↔ l = [] ∧ e = ValueError "max() arg is an empty sequence".
Proof.
  destruct l; simpl; split; try done.
  - by intros [= <-].
  - by intros [_ ->].
  - by intros [? _].
Qed.

(** X5.  The resume position (lines 288-289) is defined exactly when some
    [Pmax] entry is non-zero (NaN counts as non-zero), and is then one past
    the last such entry; when every entry is zero, [max] of the empty index
    set raises [ValueError]. *)
Theorem resume_start_pos_spec (pmax : list npfloat) :
  (∀ s, resume_start_pos pmax = Ok s ↔
        ∃ x, 0 < s ∧ pmax !! (s - 1) = Some x ∧ fne x fzero = true ∧
             ∀ i y, s ≤ i → pmax !! i = Some y → fne y fzero = false) ∧
  (∀ e, resume_start_pos pmax = Raise e ↔
        e = ValueError "max() arg is an empty sequence" ∧
        ∀ y, y ∈ pmax → fne y fzero = false).
Proof.
  unfold resume_start_pos. split.
  - intros s. rewrite bindR_Ok. split.
    + intros (m & [Hm Hmax]%py_max_nat_spec & [= <-]).
      apply np_where_spec in Hm as (x & Hx & Hne).
      exists x. replace (m + 1 - 1) with m by lia. split_and!; auto; [lia|].
      intros i y Hi Hy. destruct (fne y fzero) eqn:Hfy; [|done].
      assert (i ≤ m); [|lia]. apply Hmax, np_where_spec. eauto.
    + intros (x & Hs & Hx & Hne & Hafter).
      exists (s - 1). split; [|f_equal; lia].
      apply py_max_nat_spec. split; [apply np_where_spec; eauto|].
      intros i (y & Hy & Hfy)%np_where_spec.
      destruct (decide (s ≤ i)) as [Hle|]; [|lia].
      rewrite (Hafter i y Hle Hy) in Hfy. done.
  - intros e. destruct (py_max_nat _) as [m|e'] eqn:Hm; simpl.
    + split; [done|]. intros [_ Hall].
      apply py_max_nat_spec in Hm as [(x & Hx & Hne)%np_where_spec _].
      rewrite (Hall x) in Hne; [done|]. by eapply list_elem_of_lookup_2.
    + apply py_max_nat_empty in Hm as [Hnil ->]. split.
      * intros [= <-]. split; [done|]. intros y [i Hi]%list_elem_of_lookup_1.
        destruct (fne y fzero) eqn:Hfy; [|done].
        assert (i ∈ np_where (λ x, fne x fzero) pmax) as Hin
          by (apply np_where_spec; eauto).
        rewrite Hnil in Hin. by apply elem_of_nil in Hin.
      * by intros [-> _].
Qed.

Lemma table_num_Ok (t : Table) (name : string) (v : list npfloat) :
  table_num t name = Ok v ↔ t !! name = Some (NumCol v).
Proof.
  unfold table_num. destruct (t !! name) as [[c|c]|]; split; congruence.
Qed.

Lemma broadcast1_length {A} (n : nat) (vals vals' : list A) :
  broadcast1 n vals = Ok vals' → length vals' = n.
Proof.
  unfold broadcast1. case_decide; [by intros [= <-]|].
  destruct vals as [|v [|]]; try done. intros [= <-]. apply length_replicate.
Qed.

(** [a[:, k] = vals] puts the broadcast column into position [k] of every
    row and leaves the other positions alone. *)
Lemma set_col2_spec {A} (k : nat) (vals : list A) (a a' : list (list A)) :
  set_col2 k vals a = Ok a' →
  ∃ vals',
    broadcast1 (length a) vals = Ok vals' ∧
    Forall2 (λ rv row', rv.1 !! k ≠ None ∧ row' = <[k := rv.2]> rv.1)
            (zip a vals') a'.
Proof.
  unfold set_col2. intros Hs. inv_ok.
  eexists. split; [done|].
  apply mapR_Forall2 in Hs. eapply Forall2_impl; [exact Hs|].
  intros [row v] row' [Hlt ->]%set1_Ok. split; [|done].
  simpl in *. apply lookup_lt_is_Some_2 in Hlt as [z Hz]. by rewrite Hz.
Qed.

Lemma set_col2_length {A} (k : nat) (vals : list A) (a a' : list (list A)) :
  set_col2 k vals a = Ok a' → length a' = length a.
Proof.
  intros (vals' & Hb & HF)%set_col2_spec.
  apply Forall2_length in HF. apply broadcast1_length in Hb.
  rewrite length_zip in HF. lia.
Qed.

Lemma set_col2_col_eq {A} (k : nat) (vals : list A) (a a' : list (list A)) :
  set_col2 k vals a = Ok a' →
  ∃ vals', broadcast1 (length a) vals = Ok vals' ∧ col2 k a' = Ok vals'.
Proof.
  intros (vals' & Hb & HF)%set_col2_spec. exists vals'. split; [done|].
  pose proof (broadcast1_length _ _ _ Hb) as Hlen.
  unfold col2. apply mapR_Forall2.
  apply Forall2_same_length_lookup. split.
  - apply Forall2_length in HF. rewrite length_zip in HF. lia.
  - intros i row' v Hrow' Hv.
    destruct (Forall2_lookup_r _ _ _ _ _ HF Hrow') as ([row v'] & Hz & Hk & ->).
    apply lookup_zip_with_Some in Hz as (? & ? & [= <- <-] & Hrow & Hv').
    simpl in *. assert (v' = v) as -> by congruence.
    apply get1_Ok. apply list_lookup_insert_eq.
    destruct (row !! k) eqn:E; [by eapply lookup_lt_Some | done].
Qed.

Lemma set_col2_col_ne {A} (k k' : nat) (vals : list A) (a a' : list (list A)) :
  set_col2 k' vals a = Ok a' → k ≠ k' → col2 k a' = col2 k a.
Proof.
  intros (vals' & Hb & HF)%set_col2_spec Hne.
  pose proof (broadcast1_length _ _ _ Hb) as Hlen.
  unfold col2.
  assert (Forall2 (λ row row', get1 row' k = get1 row k) a a') as Hrows.
  { apply Forall2_same_length_lookup. split.
    - apply Forall2_length in HF. rewrite length_zip in HF. lia.
    - intros i row row' Hrow Hrow'.
      destruct (Forall2_lookup_r _ _ _ _ _ HF Hrow') as ([row0 v'] & Hz & Hk & ->).
      apply lookup_zip_with_Some in Hz as (? & ? & [= <- <-] & Hrow0 & Hv').
      simpl in *. assert (row0 = row) as -> by congruence.
      unfold get1. by rewrite list_lookup_insert_ne. }
  clear -Hrows. induction Hrows as [|row row' a a' Hr Hrows IH]; simpl; [done|].
  by rewrite Hr, IH.
Qed.

Lemma set_col3_spec {A} (k i : nat) (vals : list A) (a a' : list (list (list A))) :
  set_col3 k i vals a = Ok a' →
  ∃ vals',
    broadcast1 (length a) vals = Ok vals' ∧
    Forall2 (λ pv plane', ∃ row, pv.1 !! k = Some row ∧ row !! i ≠ None ∧
                                 plane' = <[k := <[i := pv.2]> row]> pv.1)
            (zip a vals') a'.
Proof.
  unfold set_col3. intros Hs. inv_ok.
  eexists. split; [done|].
  apply mapR_Forall2 in Hs. eapply Forall2_impl; [exact Hs|].
  intros [plane v] plane' Hp. simpl in *. inv_ok.
  match goal with Hg : get1 _ _ = Ok _, Hs1 : set1 _ _ _ = Ok _ |- _ =>
    apply get1_Ok in Hg; apply set1_Ok in Hs1 as [Hlt ->]; rename Hg into Hrow end.
  subst. eexists. split_and!; [exact Hrow| |done].
  apply lookup_lt_is_Some_2 in Hlt as [z Hz]. by rewrite Hz.
Qed.

Lemma set_col3_length {A} (k i : nat) (vals : list A) (a a' : list (list (list A))) :
  set_col3 k i vals a = Ok a' → length a' = length a.
Proof.
  intros (vals' & Hb & HF)%set_col3_spec.
  apply Forall2_length in HF. apply broadcast1_length in Hb.
  rewrite length_zip in HF. lia.
Qed.

Lemma set_col3_col_eq {A} (k i : nat) (vals : list A) (a a' : list (list (list A))) :
  set_col3 k i vals a = Ok a' →
  ∃ vals', broadcast1 (length a) vals = Ok vals' ∧ col3 k i a' = Ok vals'.
Proof.
  intros (vals' & Hb & HF)%set_col3_spec. exists vals'. split; [done|].
  pose proof (broadcast1_length _ _ _ Hb) as Hlen.
  unfold col3. apply mapR_Forall2.
  apply Forall2_same_length_lookup. split.
  - apply Forall2_length in HF. rewrite length_zip in HF. lia.
  - intros j plane' v Hplane' Hv.
    destruct (Forall2_lookup_r _ _ _ _ _ HF Hplane')
      as ([plane v'] & Hz & row & Hrow & Hi & ->).
    apply lookup_zip_with_Some in Hz as (? & ? & [= <- <-] & Hplane & Hv').
    simpl in *. assert (v' = v) as -> by congruence.
    unfold get1. rewrite list_lookup_insert_eq by (by eapply lookup_lt_Some).
    simpl. rewrite list_lookup_insert_eq; [done|].
    destruct (row !! i) eqn:E; [by eapply lookup_lt_Some | done].
Qed.

Lemma set_col3_col_ne {A} (k i k' i' : nat) (vals : list A)
    (a a' : list (list (list A))) :
  set_col3 k' i' vals a = Ok a' → k ≠ k' ∨ i ≠ i' → col3 k i a' = col3 k i a.
Proof.
  intros (vals' & Hb & HF)%set_col3_spec Hne.
  pose proof (broadcast1_length _ _ _ Hb) as Hlen.
  unfold col3.
  assert (Forall2 (λ plane plane',
            (get1 plane' k ≫= λ row, get1 row i) = (get1 plane k ≫= λ row, get1 row i))
            a a') as Hrows.
  { apply Forall2_same_length_lookup. split.
    - apply Forall2_length in HF. rewrite length_zip in HF. lia.
    - intros j plane plane' Hplane Hplane'.
      destruct (Forall2_lookup_r _ _ _ _ _ HF Hplane')
        as ([plane0 v'] & Hz & row & Hrow & Hi & ->).
      apply lookup_zip_with_Some in Hz as (? & ? & [= <- <-] & Hplane0 & Hv').
      simpl in *. assert (plane0 = plane) as -> by congruence.
      unfold get1. destruct (decide (k = k')) as [->|Hk].
      + rewrite list_lookup_insert_eq by (by eapply lookup_lt_Some).
        rewrite Hrow. simpl. rewrite list_lookup_insert_ne; [done|].
        destruct Hne; congruence.
      + by rewrite list_lookup_insert_ne. }
  clear -Hrows. induction Hrows as [|x y a a' Hr Hrows IH]; simpl; [done|].
  by rewrite Hr, IH.
Qed.

(** The percentile columns of one parameter (the inner loop of the resume
    branch). *)
Lemma resume_per_fold (tbl : Table) (q : string) (k : nat)
    (ips : list (nat * Z)) (pers pers' : list (list (list npfloat))) :
  foldR (λ pers ip, c ← table_num tbl (name_p q ip.2);
                    set_col3 k ip.1 c pers) pers ips = Ok pers' →
  NoDup ips.*1 →
  length pers' = length pers ∧
  (∀ i pv, (i, pv) ∈ ips →
     ∃ c c', tbl !! name_p q pv = Some (NumCol c) ∧
             broadcast1 (length pers) c = Ok c' ∧ col3 k i pers' = Ok c') ∧
  (∀ k' i', k' ≠ k ∨ i' ∉ ips.*1 → col3 k' i' pers' = col3 k' i' pers).
Proof.
  revert pers. induction ips as [|[i0 pv0] ips IH]; intros pers Hf Hnd;
    simpl in Hf.
  - injection Hf as <-. split_and!; auto. intros i pv Hin. by apply elem_of_nil in Hin.
  - inv_ok. simpl in *.
    match goal with Ht : table_num _ _ = Ok ?c, Hs : set_col3 _ _ _ _ = Ok ?a |- _ =>
      apply table_num_Ok in Ht; rename Ht into Hc; rename Hs into Hset;
      rename c into c0; rename a into pers1 end.
    apply NoDup_cons in Hnd as [Hi0 Hnd].
    destruct (IH pers1 Hf Hnd) as (Hlen & Hcols & Hframe).
    pose proof (set_col3_length _ _ _ _ _ Hset) as Hlen1.
    split_and!; [congruence| |].
    + intros i pv [[= -> ->] | Hin]%elem_of_cons.
      * destruct (set_col3_col_eq _ _ _ _ _ Hset) as (c' & Hb & Hcol).
        exists c0, c'. split_and!; auto.
        rewrite Hframe; auto.
      * destruct (Hcols i pv Hin) as (c & c' & ? & ? & ?).
        exists c, c'. split_and!; auto. congruence.
    + intros k' i' Hne. rewrite Hframe.
      * eapply set_col3_col_ne; [exact Hset|].
        destruct Hne as [?|Hni]; [by left|]. right.
        intros ->. apply Hni. left.
      * destruct Hne as [?|Hni]; [by left|]. right.
        intros Hin. apply Hni. by right.
Qed.

Lemma imap_pair_NoDup {A} (l : list A) : NoDup (imap pair l).*1.
Proof.
  assert (∀ (n : nat), NoDup (imap (λ i x, (n + i, x)) l).*1 ∧
                       ∀ j, j ∈ (imap (λ i x, (n + i, x)) l).*1 → n ≤ j) as Hgen.
  { induction l as [|x l IH]; intros n; simpl.
    - split; [constructor|]. intros j Hj. by apply elem_of_nil in Hj.
    - destruct (IH (S n)) as [Hnd Hge].
      assert (imap ((λ i x0, (n + i, x0)) ∘ S) l = imap (λ i x0, (S n + i, x0)) l)
        as Heq.
      { apply imap_ext. intros i y _. simpl. f_equal. lia. }
      rewrite Heq. split.
      + constructor; [|done]. intros Hin. apply Hge in Hin. lia.
      + intros j [-> | Hj]%elem_of_cons; [lia|]. apply Hge in Hj. lia. }
  exact (proj1 (Hgen 0)).
Qed.

Lemma imap_pair_elem {A} (l : list A) (i : nat) (x : A) :
  (i, x) ∈ imap pair l ↔ l !! i = Some x.
Proof.
  rewrite list_elem_of_lookup. split.
  - intros (j & Hj). rewrite list_lookup_imap in Hj.
    destruct (l !! j) eqn:E; simpl in Hj; [|done]. by injection Hj as -> ->.
  - intros Hi. exists i. by rewrite list_lookup_imap, Hi.
Qed.

Lemma imap_pair_fst {A} (l : list A) (i : nat) :
  i ∈ (imap pair l).*1 ↔ i < length l.
Proof.
  rewrite list_elem_of_fmap. split.
  - intros ([j x] & -> & Hin%imap_pair_elem). by eapply lookup_lt_Some.
  - intros [x Hx]%lookup_lt_is_Some_2. exists (i, x). split; [done|].
    by apply imap_pair_elem.
Qed.

Lemma resume_stats_fold (tbl : Table) (pvals : list Z) (kqs : list (nat * string))
    (best exps best' exps' : list (list npfloat))
    (pers pers' : list (list (list npfloat))) :
  foldR (λ acc kq,
      let '(best, exps, pers) := acc in
      b ← table_num tbl (name_Best kq.2);
      best' ← set_col2 kq.1 b best;
      x ← table_num tbl (name_Exp kq.2);
      exps' ← set_col2 kq.1 x exps;
      pers' ← foldR (λ pers ip,
                  c ← table_num tbl (name_p kq.2 ip.2);
                  set_col3 kq.1 ip.1 c pers)
                pers (imap pair pvals);
      Ok (best', exps', pers'))
    (best, exps, pers) kqs = Ok (best', exps', pers') →
  NoDup kqs.*1 →
  length best' = length best ∧ length exps' = length exps ∧
  length pers' = length pers ∧
  (∀ k q, (k, q) ∈ kqs →
     (∃ b b', tbl !! name_Best q = Some (NumCol b) ∧
              broadcast1 (length best) b = Ok b' ∧ col2 k best' = Ok b') ∧
     (∃ x x', tbl !! name_Exp q = Some (NumCol x) ∧
              broadcast1 (length exps) x = Ok x' ∧ col2 k exps' = Ok x') ∧
     (∀ i pv, pvals !! i = Some pv →
        ∃ c c', tbl !! name_p q pv = Some (NumCol c) ∧
                broadcast1 (length pers) c = Ok c' ∧ col3 k i pers' = Ok c')) ∧
  (∀ k, k ∉ kqs.*1 →
     col2 k best' = col2 k best ∧ col2 k exps' = col2 k exps ∧
     ∀ i, col3 k i pers' = col3 k i pers).
Proof.
  revert best exps pers.
  induction kqs as [|[k0 q0] kqs IH]; intros best exps pers Hf Hnd; simpl in Hf.
  - injection Hf as <- <- <-. split_and!; auto.
    intros k q Hin. by apply elem_of_nil in Hin.
  - apply bindR_Ok in Hf as ([[best1 exps1] pers1] & Hstep & Hf).
    apply NoDup_cons in Hnd as [Hk0 Hnd].
    destruct (IH _ _ _ Hf Hnd) as (Hl1 & Hl2 & Hl3 & Hcols & Hframe).
    simpl in Hstep. inv_ok. subst.
    repeat match goal with Ht : table_num _ _ = Ok _ |- _ =>
      apply table_num_Ok in Ht end.
    match goal with
    | Hb : set_col2 k0 _ best = Ok _, He : set_col2 k0 _ exps = Ok _,
      Hp : foldR _ pers _ = Ok _ |- _ =>
        rename Hb into Hbest; rename He into Hexp; rename Hp into Hper
    end.
    apply resume_per_fold in Hper as (Hlp & Hpcols & Hpframe);
      [|apply imap_pair_NoDup].
    pose proof (set_col2_length _ _ _ _ Hbest) as Hlb.
    pose proof (set_col2_length _ _ _ _ Hexp) as Hle.
    split_and!; [congruence | congruence | congruence | |].
    + intros k q [[= -> ->] | Hin]%elem_of_cons.
      * destruct (Hframe k0 Hk0) as (Hfb & Hfe & Hfp).
        destruct (set_col2_col_eq _ _ _ _ Hbest) as (b' & ? & ?).
        destruct (set_col2_col_eq _ _ _ _ Hexp) as (x' & ? & ?).
        split_and!.
        -- eexists _, b'. split_and!; eauto. congruence.
        -- eexists _, x'. split_and!; eauto. congruence.
        -- intros i pv Hi.
           destruct (Hpcols i pv) as (c & c' & ? & ? & ?);
             [by apply imap_pair_elem|].
           exists c, c'. split_and!; auto. by rewrite Hfp.
      * destruct (Hcols k q Hin) as (Hb & He & Hp).
        rewrite Hlb in Hb. rewrite Hle in He. split_and!; auto.
        intros i pv Hi. destruct (Hp i pv Hi) as (c & c' & ? & ? & ?).
        exists c, c'. split_and!; auto. congruence.
    + intros k Hk.
      assert (k ≠ k0) as Hne by (intros ->; apply Hk; left).
      destruct (Hframe k) as (Hfb & Hfe & Hfp); [intros ?; apply Hk; by right|].
      split_and!.
      * rewrite Hfb. by eapply set_col2_col_ne.
      * rewrite Hfe. by eapply set_col2_col_ne.
      * intros i. rewrite Hfp. apply Hpframe. by left.
Qed.

(** The resume branch fills column [k] of the best-fit and expectation
    arrays, and column [(k, i)] of the percentile array, with the table's
    columns of parameter [k] (broadcast over the stars). *)
Lemma resume_stats_spec (tbl : Table) (qnames : list string) (pvals : list Z)
    (mem : Mem) (best' exps' : list (list npfloat))
    (pers' : list (list (list npfloat))) :
  resume_stats tbl qnames pvals mem = Ok (best', exps', pers') →
  length best' = length (best_vals mem) ∧ length exps' = length (exp_vals mem) ∧
  length pers' = length (per_vals mem) ∧
  ∀ k q, qnames !! k = Some q →
     (∃ b b', tbl !! name_Best q = Some (NumCol b) ∧
              broadcast1 (length (best_vals mem)) b = Ok b' ∧
              col2 k best' = Ok b') ∧
     (∃ x x', tbl !! name_Exp q = Some (NumCol x) ∧
              broadcast1 (length (exp_vals mem)) x = Ok x' ∧
              col2 k exps' = Ok x') ∧
     (∀ i pv, pvals !! i = Some pv →
        ∃ c c', tbl !! name_p q pv = Some (NumCol c) ∧
                broadcast1 (length (per_vals mem)) c = Ok c' ∧
                col3 k i pers' = Ok c').
Proof.
  unfold resume_stats. intros Hf.
  apply resume_stats_fold in Hf as (? & ? & ? & Hcols & _);
    [|apply imap_pair_NoDup].
  split_and!; auto. intros k q Hq. apply Hcols. by apply imap_pair_elem.
Qed.

Lemma Table_read_Ok (name : option string) (w w' : World) (t : Table) :
  Table_read name w = (Ok t, w') ↔
  w' = w ∧ ∃ path, name = Some path ∧ stats_files w !! path = Some t.
Proof.
  unfold Table_read. destruct name as [path|].
  - destruct (stats_files w !! path) as [t'|] eqn:Ht; split.
    + intros [= -> ->]. eauto.
    + intros [-> (? & [= <-] & Ht')]. congruence.
    + done.
    + intros [-> (? & [= <-] & Ht')]. congruence.
  - split; [done|]. by intros [_ (? & ? & _)].
Qed.

Lemma fits_open_Ok (name : string) (w w' : World) (hdus : list HDU) :
  fits_open name w = (Ok hdus, w') ↔ w' = w ∧ pdf1d_files w !! name = Some hdus.
Proof.
  unfold fits_open. destruct (pdf1d_files w !! name); split.
  - by intros [= -> ->].
  - by intros [-> [= ->]].
  - done.
  - by intros [_ ?].
Qed.

(** Restoring the 1D PDFs: array [k] becomes the image of HDU [k+1], for
    each of the parameters; this needs as many arrays as parameters and one
    HDU more. *)
Lemma resume_pdf1d_from (hdulist : list HDU) (a n : nat)
    (vals vals' : list (list (list npfloat))) :
  foldR (λ vals k, hdu ← get1 hdulist (k + 1); set1 k (hdu_data hdu) vals)
        vals (seq a n) = Ok vals' →
  length vals' = length vals ∧
  (∀ k, a ≤ k < a + n →
        k < length vals ∧
        ∃ hdu, hdulist !! (k + 1) = Some hdu ∧ vals' !! k = Some (hdu_data hdu)) ∧
  (∀ k, ¬ (a ≤ k < a + n) → vals' !! k = vals !! k).
Proof.
  revert a vals. induction n as [|n IH]; intros a vals Hf; simpl in Hf.
  - injection Hf as <-. split_and!; auto. intros k ?. lia.
  - inv_ok.
    match goal with Hg : get1 _ _ = Ok _, Hs : set1 _ _ _ = Ok _ |- _ =>
      apply get1_Ok in Hg; apply set1_Ok in Hs as [Hlt ->];
      rename Hg into Hhdu end.
    apply IH in Hf as (Hlen & Hset & Hframe).
    rewrite length_insert in Hlen. split_and!; [done| |].
    + intros k Hk. destruct (decide (k = a)) as [->|Hne].
      * split; [done|]. eexists. split; [exact Hhdu|].
        rewrite Hframe by lia. by apply list_lookup_insert_eq.
      * destruct (Hset k) as [Hk' ?]; [lia|].
        rewrite length_insert in Hk'. auto.
    + intros k Hk. rewrite Hframe by lia.
      apply list_lookup_insert_ne. lia.
Qed.

Lemma resume_pdf1d_spec (hdulist : list HDU) (qnames : list string)
    (vals vals' : list (list (list npfloat))) :
  resume_pdf1d hdulist qnames vals = Ok vals' →
  length vals' = length vals ∧
  (∀ k, k < length qnames →
        k < length vals ∧
        ∃ hdu, hdulist !! (k + 1) = Some hdu ∧ vals' !! k = Some (hdu_data hdu)) ∧
  (∀ k, length qnames ≤ k → vals' !! k = vals !! k).
Proof.
  unfold resume_pdf1d. intros (Hlen & Hset & Hframe)%resume_pdf1d_from.
  split_and!; auto.
  - intros k Hk. apply Hset. lia.
  - intros k Hk. apply Hframe. lia.
Qed.

(** The resume branch, run forward. *)
Lemma resume_state_run (opts : Options) (qnames : list string) (mem : Mem)
    (w : World) (path : string) (tbl : Table)
    (bep : list (list npfloat) * list (list npfloat) * list (list (list npfloat)))
    (c1 c2 c3 c4 c5 : list npfloat) (start_pos : nat)
    (pdfs : list (list (list npfloat))) :
  stats_outname opts = Some path →
  stats_files w !! path = Some tbl →
  resume_stats tbl qnames (p opts) mem = Ok bep →
  tbl !! "chi2min" = Some (NumCol c1) →
  tbl !! "chi2min_indx" = Some (NumCol c2) →
  tbl !! "Pmax" = Some (NumCol c3) →
  tbl !! "Pmax_indx" = Some (NumCol c4) →
  tbl !! "specgrid_indx" = Some (NumCol c5) →
  resume_start_pos c3 = Ok start_pos →
  match pdf1d_outname opts with
  | Some name => ∃ hdulist, pdf1d_files w !! name = Some hdulist ∧
                   resume_pdf1d hdulist qnames (save_pdf1d_vals mem) = Ok pdfs
  | None => pdfs = save_pdf1d_vals mem
  end →
  resume_state opts qnames mem w
  = (Ok (mkMem bep.1.1 bep.1.2 bep.2 c1 c2 c3 c4 c5 pdfs (save_lnp_vals mem),
         start_pos), w).
Proof.
  intros Hp Ht Hb H1 H2 H3 H4 H5 Hs Hpdf.
  unfold resume_state, Table_read. cbv [mbind M_bind lift].
  rewrite Hp, Ht, Hb. unfold table_num. rewrite H1, H2, H3, H4, H5, Hs.
  destruct (pdf1d_outname opts) as [name|].
  - destruct Hpdf as (hdulist & Hh & Hr). unfold fits_open. rewrite Hh, Hr.
    reflexivity.
  - subst pdfs. reflexivity.
Qed.

(** X6.  Resuming from a summary table whose [Pmax] column is zero for every
    star (nothing was flushed before the interruption): the table and its
    columns are read, then the start position raises [ValueError]; the run
    does not restart from star 0, and no file is touched. *)
Theorem resume_all_zero_Pmax_raises (opts : Options) (qnames : list string)
    (mem : Mem) (w : World) (path : string) (tbl : Table)
    (bep : list (list npfloat) * list (list npfloat) * list (list (list npfloat)))
    (c1 c2 c3 c4 c5 : list npfloat) :
  stats_outname opts = Some path →
  stats_files w !! path = Some tbl →
  resume_stats tbl qnames (p opts) mem = Ok bep →
  tbl !! "chi2min" = Some (NumCol c1) →
  tbl !! "chi2min_indx" = Some (NumCol c2) →
  tbl !! "Pmax" = Some (NumCol c3) →
  tbl !! "Pmax_indx" = Some (NumCol c4) →
  tbl !! "specgrid_indx" = Some (NumCol c5) →
  (∀ y, y ∈ c3 → fne y fzero = false) →
  resume_state opts qnames mem w
  = (Raise (ValueError "max() arg is an empty sequence"), w).
Proof.
  intros Hp Ht Hb H1 H2 H3 H4 H5 Hzero.
  assert (resume_start_pos c3 = Raise (ValueError "max() arg is an empty sequence"))
    as Hs by (by apply resume_start_pos_spec).
  unfold resume_state, Table_read. cbv [mbind M_bind lift].
  rewrite Hp, Ht, Hb. unfold table_num. by rewrite H1, H2, H3, H4, H5, Hs.
Qed.

(** X6, instance: the demo table with [Pmax = 0] for its star. *)
Lemma resume_all_zero_Pmax_raises_witness :
  resume_state demo_resume_options ["mass"] demo_mem0 (demo_resume_world fzero)
  = (Raise (ValueError "max() arg is an empty sequence"), demo_resume_world fzero).
Proof.
  eapply (resume_all_zero_Pmax_raises demo_resume_options ["mass"] demo_mem0
            (demo_resume_world fzero) "stats.fits" (demo_stats fzero)).
  - reflexivity.
  - reflexivity.
  - vm_compute. reflexivity.
  - reflexivity.
  - reflexivity.
  - reflexivity.
  - reflexivity.
  - reflexivity.
  - intros y [-> | Hy%elem_of_nil]%elem_of_cons; [reval | done].
Defined.

(** X7.  A resume that succeeds touches no file and takes everything from
    the prior artifacts: the five goodness-of-fit arrays are the table's
    columns, column [k] of the best-fit, expectation and percentile arrays
    is the table's column of parameter [k] (broadcast over the stars), the
    start position is one past the last non-zero [Pmax], and the 1D PDF
    arrays are the images of HDUs 1, 2, ... of the 1D PDF file when that
    file is configured (they stay as set up otherwise). *)
Theorem resume_state_loads (opts : Options) (qnames : list string)
    (mem mem' : Mem) (start_pos : nat) (w w' : World) :
  resume_state opts qnames mem w = (Ok (mem', start_pos), w') →
  w' = w ∧
  (∃ path tbl,
     stats_outname opts = Some path ∧ stats_files w !! path = Some tbl ∧
     tbl !! "chi2min" = Some (NumCol (chi2_vals mem')) ∧
     tbl !! "chi2min_indx" = Some (NumCol (chi2_indx mem')) ∧
     tbl !! "Pmax" = Some (NumCol (lnp_vals mem')) ∧
     tbl !! "Pmax_indx" = Some (NumCol (lnp_indx mem')) ∧
     tbl !! "specgrid_indx" = Some (NumCol (best_specgrid_indx mem')) ∧
     length (best_vals mem') = length (best_vals mem) ∧
     length (exp_vals mem') = length (exp_vals mem) ∧
     length (per_vals mem') = length (per_vals mem) ∧
     ∀ k q, qnames !! k = Some q →
       (∃ b b', tbl !! name_Best q = Some (NumCol b) ∧
                broadcast1 (length (best_vals mem)) b = Ok b' ∧
                col2 k (best_vals mem') = Ok b') ∧
       (∃ x x', tbl !! name_Exp q = Some (NumCol x) ∧
                broadcast1 (length (exp_vals mem)) x = Ok x' ∧
                col2 k (exp_vals mem') = Ok x') ∧
       (∀ i pv, p opts !! i = Some pv →
          ∃ c c', tbl !! name_p q pv = Some (NumCol c) ∧
                  broadcast1 (length (per_vals mem)) c = Ok c' ∧
                  col3 k i (per_vals mem') = Ok c')) ∧
  resume_start_pos (lnp_vals mem') = Ok start_pos ∧
  match pdf1d_outname opts with
  | Some name =>
      ∃ hdulist,
        pdf1d_files w !! name = Some hdulist ∧
        length (save_pdf1d_vals mem') = length (save_pdf1d_vals mem) ∧
        (∀ k, k < length qnames →
           ∃ hdu, hdulist !! (k + 1) = Some hdu ∧
                  save_pdf1d_vals mem' !! k = Some (hdu_data hdu)) ∧
        (∀ k, length qnames ≤ k →
           save_pdf1d_vals mem' !! k = save_pdf1d_vals mem !! k)
  | None => save_pdf1d_vals mem' = save_pdf1d_vals mem
  end ∧
  save_lnp_vals mem' = save_lnp_vals mem.
Proof.
  unfold resume_state. intros Hr.
  apply bindM_Ok in Hr as (tbl & w0 & [-> (path & Hpath & Htbl)]%Table_read_Ok & Hr).
  apply bindM_Ok in Hr as ([[best exps] pers] & ? & [Hbep ->]%lift_Ok & Hr).
  apply bindM_Ok in Hr as (c1 & ? & [Hc1%table_num_Ok ->]%lift_Ok & Hr).
  apply bindM_Ok in Hr as (c2 & ? & [Hc2%table_num_Ok ->]%lift_Ok & Hr).
  apply bindM_Ok in Hr as (c3 & ? & [Hc3%table_num_Ok ->]%lift_Ok & Hr).
  apply bindM_Ok in Hr as (c4 & ? & [Hc4%table_num_Ok ->]%lift_Ok & Hr).
  apply bindM_Ok in Hr as (c5 & ? & [Hc5%table_num_Ok ->]%lift_Ok & Hr).
  apply bindM_Ok in Hr as (pmax & ? & [Hpm%table_num_Ok ->]%lift_Ok & Hr).
  apply bindM_Ok in Hr as (s & ? & [Hs ->]%lift_Ok & Hr).
  apply bindM_Ok in Hr as (pdfs & w1 & Hpdf & Hr).
  injection Hr as <- <- <-. simpl.
  assert (pmax = c3) as -> by congruence.
  apply resume_stats_spec in Hbep as (Hlb & Hle & Hlp & Hcols).
  assert (w1 = w ∧
          match pdf1d_outname opts with
          | Some name =>
              ∃ hdulist,
                pdf1d_files w !! name = Some hdulist ∧
                length pdfs = length (save_pdf1d_vals mem) ∧
                (∀ k, k < length qnames →
                   ∃ hdu, hdulist !! (k + 1) = Some hdu ∧
                          pdfs !! k = Some (hdu_data hdu)) ∧
                (∀ k, length qnames ≤ k → pdfs !! k = save_pdf1d_vals mem !! k)
          | None => pdfs = save_pdf1d_vals mem
          end) as [-> Hpdfs].
  { destruct (pdf1d_outname opts) as [name|].
    - apply bindM_Ok in Hpdf as (hdulist & ? & [-> Hh]%fits_open_Ok & Hpdf).
      apply lift_Ok in Hpdf as [(Hlen & Hset & Hframe)%resume_pdf1d_spec ->].
      split; [done|]. exists hdulist. split_and!; auto.
      intros k Hk. by destruct (Hset k Hk) as [_ ?].
    - by injection Hpdf as <- <-. }
  split_and!; auto. exists path, tbl. split_and!; auto.
Qed.

(** X7, instance: the demo table with [Pmax = -3] for its star, and the
    demo 1D PDF file. *)
Lemma resume_state_loads_witness :
  ∃ mem',
    resume_state demo_resume_options ["mass"] demo_mem0
      (demo_resume_world (Fin (-3)))
    = (Ok (mem', 1), demo_resume_world (Fin (-3))) ∧
    resume_start_pos (lnp_vals mem') = Ok 1 ∧
    save_lnp_vals mem' = [].
Proof.
  assert (∃ mem',
    resume_state demo_resume_options ["mass"] demo_mem0
      (demo_resume_world (Fin (-3)))
    = (Ok (mem', 1), demo_resume_world (Fin (-3)))) as [mem' Hrun].
  { eexists.
    eapply (resume_state_run demo_resume_options ["mass"] demo_mem0
              (demo_resume_world (Fin (-3))) "stats.fits" (demo_stats (Fin (-3)))).
    - reflexivity.
    - reflexivity.
    - vm_compute. reflexivity.
    - reflexivity.
    - reflexivity.
    - reflexivity.
    - reflexivity.
    - reflexivity.
    - reval.
    - exists demo_hdus. split; reflexivity. }
  exists mem'. split; [exact Hrun|].
  destruct (resume_state_loads _ _ _ _ _ _ _ Hrun) as (_ & _ & Hs & _ & Hl).
  split; [exact Hs | exact Hl].
Defined.

(** ** The loop over the stars *)

Lemma enumobs_fst (obs : Observations) :
  (enumobs obs).*1 = seq 0 (obs_len obs).
Proof.
  unfold enumobs, obs_len. apply list_eq. intros i.
  rewrite list_lookup_fmap, list_lookup_imap.
  destruct (obs_seds obs !! i) as [sed|] eqn:Hi; simpl.
  - symmetry. apply lookup_seq. split; [done|]. by eapply lookup_lt_Some.
  - symmetry. apply lookup_seq_ge. by apply lookup_ge_None.
Qed.

Lemma islice_enumobs_fst (obs : Observations) (start_pos : nat) :
  (islice (enumobs obs) start_pos).*1 = seq start_pos (obs_len obs - start_pos).
Proof.
  unfold islice. by rewrite fmap_drop, enumobs_fst, drop_seq.
Qed.

Section Loop.
Context `{Beast}.

(** X8.  The loop that starts at [start_pos] visits the stars [start_pos],
    [start_pos + 1], ..., [len(obs) - 1] in this order, and when it
    completes the rows of all other indices of every result array (the rows
    of the stars before [start_pos], and the bin-centre row [len(obs)] of
    the 1D PDF arrays) are as they were: finished stars are never
    recomputed. *)
Theorem loop_keeps_rows_before_start (opts : Options) (run : Run)
    (prev_result : Table) (qnames : list string) (obs : Observations)
    (start_pos : nat) (mem mem' : Mem) (w w' : World) :
  forM (islice (enumobs obs) start_pos)
       (star_step opts run prev_result qnames) mem w = (Ok mem', w') →
  (islice (enumobs obs) start_pos).*1
    = seq start_pos (obs_len obs - start_pos) ∧
  mem_frame (λ i, start_pos ≤ i < obs_len obs) mem mem'.
Proof.
  intros Hloop. split; [apply islice_enumobs_fst|].
  apply star_loop_frame in Hloop.
  eapply mem_frame_mono; [|exact Hloop].
  intros i Hi. rewrite islice_enumobs_fst in Hi.
  apply elem_of_seq in Hi. lia.
Qed.

End Loop.

(** The demo star is processed without error. *)
Lemma demo_star_loop_runs :
  ∃ mem', forM (islice (enumobs demo_obs) 0)
               (@star_step demo_beast demo_options3 demo_run ∅ ["mass"])
               demo_mem3 demo_world = (Ok mem', demo_world).
Proof. eexists. reval. Qed.

(** X8, instance: the one star of the demo catalogue. *)
Lemma loop_keeps_rows_before_start_witness :
  ∃ mem',
    forM (islice (enumobs demo_obs) 0)
         (@star_step demo_beast demo_options3 demo_run ∅ ["mass"])
         demo_mem3 demo_world = (Ok mem', demo_world) ∧
    mem_frame (λ i, 0 ≤ i < obs_len demo_obs) demo_mem3 mem'.
Proof.
  destruct demo_star_loop_runs as [mem' Hrun]. exists mem'.
  split; [exact Hrun|].
  exact (proj2 (@loop_keeps_rows_before_start demo_beast _ _ _ _ _ _ _ _ _ _ Hrun)).
Defined.

(** ** The entries kept for the lnp file *)

Lemma take_idx_total {A} (a : list A) (idx : list nat) :
  (∀ i, i ∈ idx → is_Some (a !! i)) → ∃ l, take_idx a idx = Ok l.
Proof.
  induction idx as [|i idx IH]; intros Hall.
  - by exists [].
  - destruct (Hall i) as [x Hx]; [left|].
    destruct IH as [l Hl]; [intros j Hj; apply Hall; by right|].
    exists (x :: l). unfold take_idx in *. simpl. rewrite Hx. simpl.
    by rewrite Hl.
Qed.

Lemma take_idx_fmap {A} (d : A) (a : list A) (idx : list nat) (l : list A) :
  take_idx a idx = Ok l → l = (λ i, default d (a !! i)) <$> idx.
Proof.
  intros HF%take_idx_spec. induction HF as [|i x idx l Hx HF IH]; [done|].
  simpl. rewrite Hx. simpl. by f_equal.
Qed.

Lemma take_idx_elem {A} (a : list A) (idx : list nat) (l : list A) (x : A) :
  take_idx a idx = Ok l → x ∈ l → ∃ i, i ∈ idx ∧ a !! i = Some x.
Proof.
  intros HF%take_idx_spec [j Hj]%list_elem_of_lookup_1.
  destruct (Forall2_lookup_r _ _ _ _ _ HF Hj) as (i & Hi & Hx).
  exists i. split; [by eapply list_elem_of_lookup_2 | done].
Qed.

(** [np.random.choice(a, size=n)] draws with replacement. *)
Lemma random_choice_spec (a : list nat) (size : nat) (w : World) :
  a ≠ [] →
  ∃ r, random_choice a size w = (Ok r, set_rng_pos (rng_pos w + size) w) ∧
       length r = size ∧ (∀ x, x ∈ r → x ∈ a) ∧
       (length a < size → ¬ NoDup r).
Proof.
  intros Ha. unfold random_choice. destruct a as [|a0 a]; [done|].
  remember ((λ j, default 0 ((a0 :: a) !! (rng w (rng_pos w + j) `mod` length (a0 :: a))))
              <$> seq 0 size) as r eqn:Hr.
  exists r. split; [by rewrite Hr|].
  assert (∀ x, x ∈ r → x ∈ a0 :: a) as Hin.
  { rewrite Hr. intros x (j & -> & _)%list_elem_of_fmap.
    destruct (lookup_lt_is_Some_2 (a0 :: a)
                (rng w (rng_pos w + j) `mod` length (a0 :: a))) as [y Hy].
    { apply Nat.mod_upper_bound. done. }
    rewrite Hy. simpl. by eapply list_elem_of_lookup_2. }
  assert (length r = size) as Hlen.
  { rewrite Hr. by rewrite length_fmap, length_seq. }
  split_and!; auto.
  intros Hlt Hnd.
  pose proof (submseteq_length _ _ (NoDup_submseteq _ _ Hnd Hin)) as Hle.
  lia.
Qed.





(** ** The 1D PDF file *)

Lemma set_pdf1d_insert_twice name (a b : list HDU) w :
  set_pdf1d <[name := b]> (set_pdf1d <[name := a]> w) = set_pdf1d <[name := b]> w.
Proof. unfold set_pdf1d. simpl. by rewrite insert_insert_eq. Qed.

Lemma bindM_run {A B} (m : M A) (f : A → M B) w a w1 :
  m w = (Ok a, w1) → (m ≫= f) w = f a w1.
Proof. intros Hm. unfold mbind, M_bind. by rewrite Hm. Qed.

Lemma bindM_raise {A B} (m : M A) (f : A → M B) w e w1 :
  m w = (Raise e, w1) → (m ≫= f) w = (Raise e, w1).
Proof. intros Hm. unfold mbind, M_bind. by rewrite Hm. Qed.

Lemma save_pdf1d_step_run (name : string) (vals : list (list (list npfloat)))
    (k : nat) (q : string) (v : list (list npfloat)) (w : World) (hdus : list HDU) :
  vals !! k = Some v →
  (data ← lift (get1 vals k); fits_append name data (Some q))
    (set_pdf1d <[name := hdus]> w)
  = (Ok (), set_pdf1d <[name := hdus ++ [mkHDU (Some q) v]]> w).
Proof.
  intros Hv. erewrite bindM_run; [|unfold lift, get1; by rewrite Hv].
  unfold fits_append, modify_world, set_pdf1d. simpl.
  rewrite lookup_insert_eq. simpl. by rewrite insert_insert_eq.
Qed.

Lemma save_pdf1d_loop_run (name : string) (vals : list (list (list npfloat)))
    (qs : list string) (a : nat) (w : World) (hdus : list HDU) :
  a + length qs ≤ length vals →
  forM (imap (λ i q, (a + i, q)) qs)
       (λ kq _, data ← lift (get1 vals kq.1);
                fits_append name data (Some kq.2)) ()
       (set_pdf1d <[name := hdus]> w)
  = (Ok (), set_pdf1d <[name := hdus ++ pdf1d_hdus qs (drop a vals)]> w).
Proof.
  revert a hdus. induction qs as [|q qs IH]; intros a hdus Hlen.
  - simpl. unfold pdf1d_hdus. simpl. by rewrite app_nil_r.
  - simpl in Hlen.
    destruct (lookup_lt_is_Some_2 vals a) as [v Hv]; [lia|].
    cbn [imap forM].
    erewrite bindM_run;
      [|cbn [fst snd]; rewrite Nat.add_0_r; by apply save_pdf1d_step_run].
    assert (imap ((λ i q0, (a + i, q0)) ∘ S) qs = imap (λ i q0, (S a + i, q0)) qs)
      as Heq.
    { apply imap_ext. intros i y _. simpl. f_equal. lia. }
    rewrite Heq, IH by lia.
    rewrite <- app_assoc. simpl.
    rewrite (drop_S vals v a Hv). reflexivity.
Qed.

(** X11.  Given at least as many arrays as parameter names, [save_pdf1d]
    returns normally and replaces the file, whatever it held, by a primary
    HDU (a 2x2 image of zeros) followed by one HDU per parameter, in order,
    named after the parameter and holding its array unchanged. *)
Theorem save_pdf1d_writes_all_arrays (name : string)
    (vals : list (list (list npfloat))) (qnames : list string) (w : World) :
  length qnames ≤ length vals →
  save_pdf1d name vals qnames w
  = (Ok (),
     set_pdf1d <[name := mkHDU None (zeros2 2 2) :: pdf1d_hdus qnames vals]> w).
Proof.
  intros Hlen. unfold save_pdf1d.
  erewrite bindM_run; [|unfold fits_writeto, modify_world; reflexivity].
  apply (save_pdf1d_loop_run name vals qnames 0 w [mkHDU None (zeros2 2 2)]).
  lia.
Qed.

Lemma resume_pdf1d_total (hdulist : list HDU) (a n : nat)
    (vals : list (list (list npfloat))) :
  (∀ k, a ≤ k < a + n → is_Some (hdulist !! (k + 1))) →
  a + n ≤ length vals →
  ∃ vals',
    foldR (λ vals k, hdu ← get1 hdulist (k + 1); set1 k (hdu_data hdu) vals)
          vals (seq a n) = Ok vals'.
Proof.
  revert a vals. induction n as [|n IH]; intros a vals Hh Hlen.
  - by eexists.
  - destruct (Hh a) as [hdu Hhdu]; [lia|].
    destruct (IH (S a) (<[a := hdu_data hdu]> vals)) as [vals' Hv'].
    + intros k Hk. apply Hh. lia.
    + rewrite length_insert. lia.
    + exists vals'. cbn [seq foldR]. rewrite <- Hv'.
      assert ((hdu ← get1 hdulist (a + 1); set1 a (hdu_data hdu) vals)
              = Ok (<[a := hdu_data hdu]> vals)) as ->; [|done].
      unfold get1. rewrite Hhdu. cbn [mbind result_bind].
      unfold set1. by rewrite decide_True by lia.
Qed.

Lemma pdf1d_hdus_lookup (qnames : list string) (vals : list (list (list npfloat)))
    (k : nat) (hdu : HDU) :
  pdf1d_hdus qnames vals !! k = Some hdu →
  ∃ q, qnames !! k = Some q ∧ vals !! k = Some (hdu_data hdu) ∧ extname hdu = Some q.
Proof.
  unfold pdf1d_hdus. intros (q & v & -> & Hq & Hv)%lookup_zip_with_Some. eauto.
Qed.

(** What [save_pdf1d] writes is what the resume branch reads back. *)
Lemma resume_pdf1d_of_saved (qnames : list string)
    (vals vals0 : list (list (list npfloat))) :
  length vals = length qnames → length vals0 = length qnames →
  resume_pdf1d (mkHDU None (zeros2 2 2) :: pdf1d_hdus qnames vals) qnames vals0
  = Ok vals.
Proof.
  intros Hlen Hlen0.
  set (hdulist := mkHDU None (zeros2 2 2) :: pdf1d_hdus qnames vals).
  assert (length (pdf1d_hdus qnames vals) = length qnames) as Hlh.
  { unfold pdf1d_hdus. rewrite length_zip_with. lia. }
  destruct (resume_pdf1d_total hdulist 0 (length qnames) vals0) as [vals' Hr].
  { intros k Hk. replace (k + 1) with (S k) by lia. simpl.
    apply lookup_lt_is_Some_2. lia. }
  { lia. }
  unfold resume_pdf1d. rewrite Hr. f_equal.
  apply resume_pdf1d_from in Hr as (Hl & Hset & _).
  apply list_eq. intros k.
  destruct (decide (k < length qnames)) as [Hk|Hk].
  - destruct (Hset k) as (_ & hdu & Hhdu & ->); [lia|].
    replace (k + 1) with (S k) in Hhdu by lia. simpl in Hhdu.
    apply pdf1d_hdus_lookup in Hhdu as (q & _ & -> & _). done.
  - rewrite !lookup_ge_None_2; [done | lia | lia].
Qed.

(** X12.  Round trip of the 1D PDFs: after [save_pdf1d] of one array per
    parameter, opening the file and restoring as the resume branch does
    (array [k] from HDU [k+1]) gives back the saved arrays, whatever the
    arrays being overwritten held. *)
Theorem pdf1d_round_trip (name : string) (qnames : list string)
    (vals vals0 : list (list (list npfloat))) (w : World) :
  length vals = length qnames → length vals0 = length qnames →
  ∃ w' hdulist,
    save_pdf1d name vals qnames w = (Ok (), w') ∧
    fits_open name w' = (Ok hdulist, w') ∧
    resume_pdf1d hdulist qnames vals0 = Ok vals.
Proof.
  intros Hlen Hlen0. eexists _, _. split_and!.
  - apply save_pdf1d_writes_all_arrays. lia.
  - unfold fits_open, set_pdf1d. simpl. by rewrite lookup_insert_eq.
  - by apply resume_pdf1d_of_saved.
Qed.

(** X12, instance. *)
Lemma pdf1d_round_trip_witness :
  ∃ w' hdulist,
    save_pdf1d "pdf1d.fits" [[[Fin 7; Fin 8]; [Fin 1; Fin 1]]] ["mass"] demo_world
      = (Ok (), w') ∧
    fits_open "pdf1d.fits" w' = (Ok hdulist, w') ∧
    resume_pdf1d hdulist ["mass"] (save_pdf1d_vals demo_mem0)
      = Ok [[[Fin 7; Fin 8]; [Fin 1; Fin 1]]].
Proof.
  apply (pdf1d_round_trip "pdf1d.fits" ["mass"]
           [[[Fin 7; Fin 8]; [Fin 1; Fin 1]]] (save_pdf1d_vals demo_mem0)
           demo_world); reflexivity.
Defined.

(** X11, instance. *)
Lemma save_pdf1d_writes_all_arrays_witness :
  save_pdf1d "pdf1d.fits" [[[Fin 7; Fin 8]; [Fin 1; Fin 1]]] ["mass"] demo_world
  = (Ok (), set_pdf1d <["pdf1d.fits" := demo_hdus]> demo_world).
Proof.
  apply (save_pdf1d_writes_all_arrays "pdf1d.fits"
           [[[Fin 7; Fin 8]; [Fin 1; Fin 1]]] ["mass"] demo_world).
  simpl. lia.
Defined.

(** ** The set-up of the 1D PDFs *)

Lemma set_row_Ok {X} (i : nat) (vals : list X) (a a' : list (list X)) :
  set_row i vals a = Ok a' ↔
  ∃ row row', a !! i = Some row ∧ broadcast1 (length row) vals = Ok row' ∧
              a' = <[i := row']> a.
Proof.
  unfold set_row. rewrite bindR_Ok. split.
  - intros (row & Hrow%get1_Ok & Hb). apply bindR_Ok in Hb as (row' & Hb & [= <-]).
    eauto.
  - intros (row & row' & Hrow%get1_Ok & Hb & ->). exists row. split; [done|].
    by rewrite Hb.
Qed.

Section Setup.
Context `{Beast}.

Lemma pdf1d_setup_fold (g : SEDGrid) (n_obs max_bins : nat) (qs : list string)
    (objs0 objs : list pdf1d_obj) (arrs0 arrs : list (list (list npfloat))) :
  foldR (λ acc qname,
      q ← grid_get g qname;
      let n_uniq := n_unique q in
      let nbins := if decide (max_bins < n_uniq) then max_bins else n_uniq in
      let _tpdf1d := pdf1d q nbins (ignorebelow_of qname) (logspacing_of qname) in
      arr ← set_row n_obs (bin_vals _tpdf1d) (zeros2 (n_obs + 1) nbins);
      Ok (acc.1 ++ [_tpdf1d], acc.2 ++ [arr]))
    (objs0, arrs0) qs = Ok (objs, arrs) →
  ∃ objs1 arrs1,
    objs = objs0 ++ objs1 ∧ arrs = arrs0 ++ arrs1 ∧
    length objs1 = length qs ∧ length arrs1 = length qs ∧
    ∀ k q, qs !! k = Some q →
      ∃ obj arr, objs1 !! k = Some obj ∧ arrs1 !! k = Some arr ∧
                 setup_entry g n_obs max_bins q obj arr.
Proof.
  revert objs0 arrs0. induction qs as [|q qs IH]; intros objs0 arrs0 Hf;
    simpl in Hf.
  - injection Hf as <- <-. exists [], []. rewrite !app_nil_r. split_and!; auto.
    intros k q Hk. done.
  - apply bindR_Ok in Hf as ([objs' arrs'] & Hstep & Hf).
    apply bindR_Ok in Hstep as (col & Hcol & Hstep).
    apply bindR_Ok in Hstep as (arr & Harr & [= <- <-]).
    apply IH in Hf as (objs1 & arrs1 & -> & -> & Hlo & Hla & Hent).
    simpl. eexists (_ :: objs1), (arr :: arrs1).
    rewrite <- !app_assoc. split_and!; [done | done | simpl; lia | simpl; lia |].
    intros [|k] q' Hk; simpl in Hk; [|by apply Hent].
    injection Hk as <-. eexists _, arr. split_and!; [done | done |].
    assert ((if decide (max_bins < n_unique col) then max_bins else n_unique col)
            = n_unique col `min` max_bins) as Hmin by (case_decide; lia).
    rewrite Hmin in *.
    apply set_row_Ok in Harr as (row0 & row & Hrow0 & Hb & ->).
    unfold zeros2 in *.
    rewrite lookup_replicate in Hrow0. destruct Hrow0 as [-> _].
    unfold zeros1 in Hb at 1. rewrite length_replicate in Hb.
    exists col, row. split_and!; auto.
    replace (n_obs + 1) with (n_obs + 1)%nat by done.
    rewrite replicate_add. simpl.
    rewrite insert_app_r_alt by (rewrite length_replicate; lia).
    rewrite length_replicate, Nat.sub_diag. reflexivity.
Qed.

(** X13.  When the set-up of the 1D PDFs succeeds there is one generator
    and one array per parameter, in order; the generator of parameter [q] is
    built from the grid column [g0[q]] with [min(number of distinct values,
    max_nbins)] bins; its array has [nobs + 1] rows, the first [nobs] all
    zeros over that many bins and the last one the bin centres of the
    generator (broadcast to the bins). *)
Theorem pdf1d_setup_shapes (g : SEDGrid) (n_obs max_bins : nat)
    (qnames : list string) (objs : list pdf1d_obj)
    (arrs : list (list (list npfloat))) :
  pdf1d_setup g n_obs max_bins qnames = Ok (objs, arrs) →
  length objs = length qnames ∧ length arrs = length qnames ∧
  ∀ k q, qnames !! k = Some q →
    ∃ col obj arr row,
      grid_get g q = Ok col ∧
      objs !! k = Some obj ∧ arrs !! k = Some arr ∧
      obj = pdf1d col (n_unique col `min` max_bins) (ignorebelow_of q)
                  (logspacing_of q) ∧
      length arr = n_obs + 1 ∧
      (∀ i, i < n_obs → arr !! i = Some (zeros1 (n_unique col `min` max_bins))) ∧
      arr !! n_obs = Some row ∧
      broadcast1 (n_unique col `min` max_bins) (bin_vals obj) = Ok row.
Proof.
  unfold pdf1d_setup.
  intros (objs1 & arrs1 & -> & -> & Hlo & Hla & Hent)%pdf1d_setup_fold.
  simpl. split_and!; auto.
  intros k q Hq.
  destruct (Hent k q Hq) as (obj & arr & Ho & Ha & col & row & Hcol & -> & Hb & ->).
  eexists col, _, _, row. split_and!; eauto.
  - rewrite length_app, length_replicate. simpl. lia.
  - intros i Hi. rewrite lookup_app_l by (rewrite length_replicate; lia).
    by apply lookup_replicate_2.
  - rewrite lookup_app_r by (rewrite length_replicate; lia).
    by rewrite length_replicate, Nat.sub_diag.
Qed.
End Setup.

(** The set-up for the demo grid's "mass" column. *)
Lemma demo_pdf1d_setup_runs :
  ∃ objs arrs, @pdf1d_setup demo_beast demo_grid 1 50 ["mass"] = Ok (objs, arrs).
Proof. eexists _, _. reval. Qed.

(** X13, instance. *)
Lemma pdf1d_setup_shapes_witness :
  ∃ objs arrs,
    @pdf1d_setup demo_beast demo_grid 1 50 ["mass"] = Ok (objs, arrs) ∧
    length objs = 1 ∧ length arrs = 1.
Proof.
  destruct demo_pdf1d_setup_runs as (objs & arrs & Hrun).
  exists objs, arrs. split; [exact Hrun|].
  destruct (@pdf1d_setup_shapes demo_beast _ _ _ _ _ _ Hrun) as (Ho & Ha & _).
  split; [exact Ho | exact Ha].
Defined.

Lemma foldR_app {A S} (f : S → A → result S) (s : S) (l1 l2 : list A) :
  foldR f s (l1 ++ l2) = foldR f s l1 ≫= λ s', foldR f s' l2.
Proof.
  revert s. induction l1 as [|x l1 IH]; intros s; simpl; [done|].
  destruct (f s x) as [s'|e]; simpl; [apply IH | done].
Qed.

Lemma grid_get_unknown (g : SEDGrid) (q : string) :
  q ∉ grid_keys g → grid_get g q = Raise (KeyError q).
Proof.
  unfold grid_get, grid_keys. intros Hq.
  destruct (list_find _ _) as [[i [q' c]]|] eqn:Hf; [|done].
  apply list_find_Some in Hf as (Hi & Heq & _). simpl in Heq. subst q'.
  exfalso. apply Hq. apply list_elem_of_fmap. exists (q, c). split; [done|].
  by eapply list_elem_of_lookup_2.
Qed.

Lemma grid_get_known (g : SEDGrid) (q : string) :
  q ∈ grid_keys g → ∃ col, grid_get g q = Ok col.
Proof.
  unfold grid_get, grid_keys. intros ([q' c] & -> & Hin)%list_elem_of_fmap.
  destruct (list_find (λ c0, c0.1 = (q', c).1) (cols g)) as [[i [q'' c']]|] eqn:Hf.
  - by eexists.
  - apply list_find_None in Hf. rewrite Forall_forall in Hf.
    by destruct (Hf (q', c) Hin).
Qed.

Lemma log_prior_total (weight : list npfloat) :
  ∃ prior, log_prior weight (weight_mask weight) = Ok prior.
Proof.
  unfold log_prior, weight_mask. rewrite take_idx_where. by eexists.
Qed.

Section SetupErr.
Context `{Beast}.

Lemma pdf1d_setup_unknown (g : SEDGrid) (n_obs max_bins : nat)
    (pre post : list string) (q : string)
    (acc : list pdf1d_obj * list (list (list npfloat))) :
  pdf1d_setup g n_obs max_bins pre = Ok acc →
  q ∉ grid_keys g →
  pdf1d_setup g n_obs max_bins (pre ++ q :: post) = Raise (KeyError q).
Proof.
  unfold pdf1d_setup. intros Hpre Hq.
  rewrite foldR_app, Hpre. simpl. by rewrite grid_get_unknown.
Qed.

(** X14.  [Q_all_memory] called with a parameter that is not a column of
    the grid (the parameters before it being set up without error) raises
    [KeyError] with the bare parameter name when it reaches it in the set-up
    loop: before the resume or fresh-start branch, so that no file has been
    read, created or changed. *)
Theorem Q_all_memory_unknown_parameter (prev_result : Table)
    (obs : Observations) (sedgrid : string + SEDGrid) (g : SEDGrid)
    (ast : NoiseModel) (pre post : list string) (q : string) (opts : Options)
    (w : World) (weight : list npfloat)
    (acc : list pdf1d_obj * list (list (list npfloat))) :
  load_grid sedgrid w = (Ok g, w) →
  grid_get g "weight" = Ok weight →
  pdf1d_setup g (obs_len obs) (max_nbins opts) pre = Ok acc →
  q ∉ grid_keys g →
  Q_all_memory prev_result obs sedgrid ast (pre ++ q :: post) opts w
  = (Raise (KeyError q), w).
Proof.
  intros Hload Hw Hpre Hq. unfold Q_all_memory.
  erewrite bindM_run; [|exact Hload].
  erewrite bindM_run; [|unfold lift; by rewrite Hw].
  destruct (log_prior_total weight) as [prior Hprior].
  erewrite bindM_run; [|unfold lift; by rewrite Hprior].
  erewrite bindM_raise; [done|].
  unfold lift. by rewrite (pdf1d_setup_unknown _ _ _ _ _ _ _ Hpre Hq).
Qed.
End SetupErr.

(** X14, instance. *)
Lemma Q_all_memory_unknown_parameter_witness :
  @Q_all_memory demo_beast ∅ demo_obs (inr demo_grid) demo_noise
    ([] ++ "age" :: ["mass"]) demo_options3
    (demo_resume_world fzero)
  = (Raise (KeyError "age"), demo_resume_world fzero).
Proof.
  eapply (@Q_all_memory_unknown_parameter demo_beast ∅ demo_obs (inr demo_grid)
            demo_grid demo_noise [] ["mass"] "age" demo_options3).
  - reflexivity.
  - reflexivity.
  - reflexivity.
  - apply (bool_decide_unpack _). by vm_compute.
Defined.

(** ** Flushing the likelihood archive *)

Lemma append_star_present (root : gmap string h5node) (v : lnp_entry) :
  is_Some (root !! star_name (le_star v)) → append_star root v = root.
Proof. intros [node Hn]. unfold append_star. by rewrite Hn. Qed.

Lemma foldl_append_star_noop (vals : list lnp_entry) (root : gmap string h5node) :
  (∀ v, v ∈ vals → is_Some (root !! star_name (le_star v))) →
  foldl append_star root vals = root.
Proof.
  induction vals as [|v vals IH]; intros Hall; simpl; [done|].
  rewrite append_star_present by (apply Hall; left).
  apply IH. intros u Hu. apply Hall. by right.
Qed.

(** Flushing entries whose stars all have their group already changes
    nothing. *)
Lemma save_lnp_known_stars (name : string) (vals : list lnp_entry) (r : bool)
    (w : World) (root : gmap string h5node) :
  lnp_files w !! name = Some (Archive root) →
  (∀ v, v ∈ vals → is_Some (root !! star_name (le_star v))) →
  save_lnp name vals r w = (Ok (), w).
Proof.
  intros Hf Hall. rewrite save_lnp_run by (by rewrite Hf).
  rewrite Hf. simpl. rewrite foldl_append_star_noop by done.
  rewrite insert_id by done. by rewrite put_lnp_id.
Qed.

(** X15.  Flushing is idempotent: when the archive can be opened (or is
    missing), [save_lnp] succeeds, and flushing the same pending entries
    once more succeeds again and leaves every file exactly as the first
    flush left it (every star of the list then has its group, so every
    entry is skipped). *)
Theorem save_lnp_idempotent (name : string) (vals : list lnp_entry)
    (r r' : bool) (w : World) :
  lnp_files w !! name ≠ Some Corrupted →
  ∃ w1, save_lnp name vals r w = (Ok (), w1) ∧
        save_lnp name vals r' w1 = (Ok (), w1).
Proof.
  intros Hok. eexists. split; [by apply save_lnp_run|].
  eapply save_lnp_known_stars.
  - unfold put_lnp, set_lnp. simpl. apply lookup_insert_eq.
  - intros v Hv.
    destruct (foldl_append_star_present vals (root_of (lnp_files w !! name)) v Hv)
      as (node & Hnode & _).
    by exists node.
Qed.

(** X15, instance: the demo entry flushed twice into a new archive. *)
Lemma save_lnp_idempotent_witness :
  ∃ w1, save_lnp "run_lnp.hd5" [demo_entry] false demo_world = (Ok (), w1) ∧
        save_lnp "run_lnp.hd5" [demo_entry] true w1 = (Ok (), w1).
Proof.
  apply (save_lnp_idempotent "run_lnp.hd5" [demo_entry] false true demo_world).
  done.
Defined.

(** [string.replace] leaves a string without occurrence as it is. *)
Lemma replace_from_absent (old new : string) (i : nat) (s : string) :
  py_find_from old i s = None → replace_from old new 0 s = s.
Proof.
  revert i. induction s as [|c s IH]; intros i Hf; [done|].
  cbn [py_find_from] in Hf. cbn [replace_from].
  destruct (String.prefix old (String c s)); [done|].
  f_equal. by eapply IH.
Qed.

(** X16.  The archive cannot be opened.  For a name in which "lnp" does not
    occur the alternate name is the name itself; and whenever the file of
    the alternate name cannot be opened either, [save_lnp] raises the error
    of that second [openFile] and changes no file. *)
Theorem save_lnp_fallback_failure (name : string) (vals : list lnp_entry)
    (r : bool) (w : World) :
  lnp_files w !! name = Some Corrupted →
  (py_find name "lnp" = None → lnp_partial_name name = name) ∧
  (lnp_files w !! lnp_partial_name name = Some Corrupted →
   save_lnp name vals r w = (Raise (HDF5ExtError (lnp_partial_name name)), w)).
Proof.
  intros Hc. split.
  - intros Hf. unfold lnp_partial_name, py_replace. by eapply replace_from_absent.
  - intros Halt. rewrite save_lnp_fallback by done.
    erewrite bindM_raise; [done|]. unfold openFile. by rewrite Halt.
Qed.

(** X16, instance: the unreadable archive "run.hd5". *)
Lemma save_lnp_fallback_failure_witness :
  let w := put_lnp {[ "run.hd5" := Corrupted ]} demo_world in
  lnp_partial_name "run.hd5" = "run.hd5" ∧
  save_lnp "run.hd5" [demo_entry] false w = (Raise (HDF5ExtError "run.hd5"), w).
Proof.
  intros w.
  destruct (save_lnp_fallback_failure "run.hd5" [demo_entry] false w eq_refl)
    as [Hname Hfail].
  split; [by apply Hname | by apply Hfail].
Defined.

(** X17.  A fresh run (no resume) starts at star 0 with the arrays as they
    were set up.  With an lnp file configured it replaces whatever was
    stored under that name, readable or not, by an archive that holds
    exactly [grid_waves] (the grid's wavelengths) and [obs_filters] (the
    filter names), and touches no other file; without one it touches no
    file at all. *)
Theorem fresh_state_new_archive (opts : Options) (g : SEDGrid)
    (obs : Observations) (mem : Mem) (w : World) :
  fresh_state opts g obs mem w =
  match lnp_outname opts with
  | Some name =>
      (Ok (mem, 0),
       put_lnp (<[name := Archive
                   (<["obs_filters" := H5Array (H5Str (obs_filters obs))]>
                    (<["grid_waves" := H5Array (H5Float (lamb g))]> ∅))]>
                  (lnp_files w)) w)
  | None => (Ok (mem, 0), w)
  end.
Proof.
  unfold fresh_state. destruct (lnp_outname opts) as [name|]; [|done].
  cbv [mbind M_bind openFile createArray_root closeFile mret M_ret].
  unfold put_lnp, set_lnp. simpl.
  rewrite !lookup_insert_eq. simpl.
  rewrite lookup_empty. simpl. rewrite !lookup_insert_eq. simpl.
  rewrite lookup_insert_ne by done. rewrite lookup_empty. simpl.
  by rewrite !insert_insert_eq.
Qed.

(** ** The incremental save *)

Lemma flush_due_spec (e : nat) (n : Z) :
  n ≠ 0%Z →
  ∃ due, flush_due e n = Ok due ∧ (due = true ↔ 0 < e ∧ (n | Z.of_nat e)%Z).
Proof.
  intros Hn. unfold flush_due. rewrite decide_False by done.
  eexists. split; [done|].
  rewrite andb_true_iff, !bool_decide_eq_true.
  by rewrite (Z.mod_divide _ _ Hn).
Qed.

(** X18.  The incremental save after star [e].  Without [save_every_npts]
    nothing happens.  With [save_every_npts = 0] the test of line 389 raises
    ZeroDivisionError (at every star, star 0 included) and no file is
    written.  Otherwise the three artifacts are written exactly when
    [e > 0] and [save_every_npts] divides [e] (so never after star 0, and a
    negative value behaves as its absolute value); the pending lnp entries
    are then emptied when an lnp file is configured, and kept otherwise. *)
Theorem incremental_save_schedule (opts : Options) (prev_result : Table)
    (qnames : list string) (e : nat) (mem : Mem) (w : World) :
  match save_every_npts opts with
  | None => incremental_save opts prev_result qnames e mem w = (Ok mem, w)
  | Some n =>
      (n = 0%Z →
       incremental_save opts prev_result qnames e mem w
       = (Raise ZeroDivisionError, w)) ∧
      (n ≠ 0%Z → ¬ (0 < e ∧ (n | Z.of_nat e)%Z) →
       incremental_save opts prev_result qnames e mem w = (Ok mem, w)) ∧
      (n ≠ 0%Z → 0 < e → (n | Z.of_nat e)%Z →
       incremental_save opts prev_result qnames e mem w =
       match save_all opts prev_result qnames mem w with
       | (Ok _, w') =>
           (Ok match lnp_outname opts with
               | Some _ => with_pending [] mem
               | None => mem
               end, w')
       | (Raise err, w') => (Raise err, w')
       end)
  end.
Proof.
  unfold incremental_save. destruct (save_every_npts opts) as [n|]; [|done].
  split_and!.
  - intros ->. done.
  - intros Hn Hnd. destruct (flush_due_spec e n Hn) as (due & Hdue & Hiff).
    erewrite bindM_run by (unfold lift; by rewrite Hdue).
    destruct due; [|done]. destruct Hnd. by apply Hiff.
  - intros Hn He Hd. destruct (flush_due_spec e n Hn) as (due & Hdue & Hiff).
    erewrite bindM_run by (unfold lift; by rewrite Hdue).
    destruct due; [|by specialize (proj2 Hiff (conj He Hd))].
    cbv [mbind M_bind].
    destruct (save_all opts prev_result qnames mem w) as [[[]|err] w']; [|done].
    by destruct (lnp_outname opts).
Qed.

(** ** The sparse set: errors and the sign of the threshold *)

Lemma filter_isfinite_nil (lnp : list npfloat) :
  List.filter isfinite lnp = [] ↔ ∀ x, x ∈ lnp → isfinite x = false.
Proof.
  induction lnp as [|a l IH]; simpl.
  - split; [by intros _ x ?%elem_of_nil | done].
  - destruct (isfinite a) eqn:Ha.
    + split; [done|]. intros Hall. specialize (Hall a (list_elem_of_here _ _)).
      congruence.
    + rewrite IH. split.
      * intros Hall x [-> | ?]%elem_of_cons; auto.
      * intros Hall x Hx. apply Hall. by right.
Qed.

(** X19.  Line 331 fails exactly when the total log posterior of the star
    has no finite entry (all rows are NaN or infinite, or there is no row):
    the builtin [max] then raises ValueError on an empty sequence, and this
    is the only error of that line. *)
Theorem sparse_indx_error (lnp : list npfloat) (thr : R) :
  (∀ err, sparse_indx lnp thr = Raise err →
     err = ValueError "max() arg is an empty sequence") ∧
  ((∃ err, sparse_indx lnp thr = Raise err) ↔
   ∀ x, x ∈ lnp → isfinite x = false).
Proof.
  unfold sparse_indx. rewrite <- filter_isfinite_nil.
  destruct (List.filter isfinite lnp) as [|a l]; simpl.
  - split; [by intros err [= <-] | split; eauto].
  - split; [done|]. split; [by intros [? ?] | done].
Qed.

(** When line 331 succeeds, its [max] is a finite entry that no finite
    entry exceeds. *)
Lemma sparse_indx_max (lnp : list npfloat) (thr : R) (indx : list nat) :
  sparse_indx lnp thr = Ok indx →
  ∃ m, py_max (List.filter isfinite lnp) = Ok m ∧ m ∈ lnp ∧ isfinite m = true ∧
       (∀ y, y ∈ lnp → isfinite y = true → fgt y m = false) ∧
       indx = np_where (λ x, fgt (fsub x m) (Fin thr)) lnp.
Proof.
  intros Hs.
  assert (∃ x, x ∈ lnp ∧ isfinite x = true) as Hfin.
  { destruct (List.filter isfinite lnp) as [|a l] eqn:Hf.
    - unfold sparse_indx in Hs. by rewrite Hf in Hs.
    - exists a. assert (a ∈ List.filter isfinite lnp) as Ha by (rewrite Hf; left).
      apply list_elem_of_In, filter_In in Ha as [Ha ?].
      split; [by apply list_elem_of_In | done]. }
  destruct (py_max_finite_spec lnp Hfin) as (m & Hm & Hin & Hfm & Hb).
  exists m. split_and!; auto.
  unfold sparse_indx in Hs. rewrite Hm in Hs. simpl in Hs. congruence.
Qed.

(** The peak row passes the test of line 331 exactly when the threshold is
    negative. *)
Lemma fsub_self_gt (m : npfloat) (thr : R) :
  isfinite m = true → fgt (fsub m m) (Fin thr) = bool_decide (thr < 0)%R.
Proof.
  destruct m as [r| | |]; try done. intros _. simpl.
  apply bool_decide_ext. lra.
Qed.

(** With a threshold that is not negative only rows at +inf pass. *)
Lemma nonneg_threshold_rows (lnp : list npfloat) (thr : R) (indx : list nat) :
  (0 <= thr)%R → sparse_indx lnp thr = Ok indx →
  ∀ i, i ∈ indx → lnp !! i = Some PInf.
Proof.
  intros Hthr Hs.
  destruct (sparse_indx_max _ _ _ Hs) as (m & _ & Hin & Hfm & Hb & Hindx).
  intros i Hi. rewrite Hindx in Hi.
  apply np_where_spec in Hi as (x & Hx & Hgt). rewrite Hx. f_equal.
  destruct m as [mm| | |]; try done.
  destruct x as [r| | |]; try done.
  assert (fgt (Fin r) (Fin mm) = false) as Hle
    by (apply Hb; [by eapply list_elem_of_lookup_2 | done]).
  simpl in Hgt, Hle. apply bool_decide_eq_true in Hgt.
  apply bool_decide_eq_false in Hle. lra.
Qed.

Section SparseSign.
Context `{Beast}.

(** X20.  With a negative threshold (as the defaults -10 and -40) the
    sparse set is never empty: it contains a row whose total log posterior
    is finite and is not exceeded by any finite entry (the peak). *)
Theorem negative_threshold_keeps_peak (run : Run) (thr : R)
    (sed lnp chi2 : list npfloat) (indx : list nat) :
  (thr < 0)%R →
  posterior run thr sed = Ok (lnp, chi2, indx) →
  ∃ i m, i ∈ indx ∧ lnp !! i = Some m ∧ isfinite m = true ∧
         ∀ y, y ∈ lnp → isfinite y = true → fgt y m = false.
Proof.
  intros Hthr (l0 & prior & _ & _ & _ & _ & Hs)%posterior_inv.
  destruct (sparse_indx_max _ _ _ Hs) as (m & _ & Hin & Hfm & Hb & ->).
  apply list_elem_of_lookup_1 in Hin as [i Hi].
  exists i, m. split_and!; auto.
  apply np_where_spec. exists m. split; [done|].
  rewrite fsub_self_gt by done. by apply bool_decide_eq_true_2.
Qed.

(** X21.  With a threshold that is zero or positive the sparse set holds
    only rows whose total log posterior is +inf; when there is none it is
    empty, and the star's step then fails with a ValueError (from the
    random draw or from the maximum of an empty array) without writing any
    file, so the run stops at that star. *)
Theorem nonneg_threshold_star_fails (opts : Options) (run : Run)
    (prev_result : Table) (qnames : list string) (e : nat)
    (sed lnp chi2 : list npfloat) (indx : list nat) (mem : Mem) (w : World) :
  (0 <= threshold opts)%R →
  posterior run (threshold opts) sed = Ok (lnp, chi2, indx) →
  (∀ i, i ∈ indx → lnp !! i = Some PInf) ∧
  (PInf ∉ lnp →
   indx = [] ∧
   ∃ msg, star_step opts run prev_result qnames (e, sed) mem w
          = (Raise (ValueError msg), w)).
Proof.
  intros Hthr Hpost.
  pose proof Hpost as (l0 & prior & _ & _ & _ & _ & Hs)%posterior_inv.
  pose proof (nonneg_threshold_rows _ _ _ Hthr Hs) as Hinf.
  split; [done|]. intros Hno.
  assert (indx = []) as ->.
  { destruct indx as [|i indx]; [done|]. exfalso. apply Hno.
    eapply list_elem_of_lookup_2. apply (Hinf i). left. }
  split; [done|].
  unfold star_step. cbn [fst snd].
  erewrite bindM_run by (unfold lift; by rewrite Hpost).
  unfold pending_lnp.
  destruct (lnp_outname opts) as [name|].
  - destruct (lnp_npts opts) as [n|].
    + eexists. by cbv [mbind M_bind random_choice].
    + eexists. cbv [mbind M_bind mret M_ret lift]. cbn. reflexivity.
  - eexists. cbv [mbind M_bind mret M_ret lift]. cbn. reflexivity.
Qed.

End SparseSign.

(** X20, instance: the demo star with the threshold -1/2. *)
Lemma negative_threshold_keeps_peak_witness :
  ∃ i m, i ∈ [0] ∧ [Fin (0 + 0); Fin (-1 + 0)] !! i = Some m ∧ isfinite m = true ∧
         ∀ y, y ∈ [Fin (0 + 0); Fin (-1 + 0)] → isfinite y = true → fgt y m = false.
Proof.
  apply (@negative_threshold_keeps_peak demo_beast demo_run (-1/2) [Fin 0]
           [Fin (0 + 0); Fin (-1 + 0)] [Fin 0; Fin 2] [0]).
  - lra.
  - reval.
Defined.

(** X21, instance: the demo star with the threshold +40. *)
Lemma nonneg_threshold_star_fails_witness :
  (∀ i, i ∈ @nil nat → [Fin (0 + 0); Fin (-1 + 0)] !! i = Some PInf) ∧
  (PInf ∉ [Fin (0 + 0); Fin (-1 + 0)] →
   @nil nat = [] ∧
   ∃ msg, @star_step demo_beast demo_options_pos demo_run ∅ ["mass"]
            (0, [Fin 0]) demo_mem3 demo_world
          = (Raise (ValueError msg), demo_world)).
Proof.
  apply (@nonneg_threshold_star_fails demo_beast demo_options_pos demo_run ∅
           ["mass"] 0 [Fin 0] [Fin (0 + 0); Fin (-1 + 0)] [Fin 0; Fin 2] []
           demo_mem3 demo_world).
  - simpl. lra.
  - reval.
Defined.

(** ** The best fit *)

Lemma fgt_irrefl (x : npfloat) : fgt x x = false.
Proof. destruct x; simpl; try done. apply bool_decide_eq_false. lra. Qed.

Lemma fgt_asym (x y : npfloat) : fgt x y = true → fgt y x = false.
Proof.
  destruct x, y; simpl; try done.
  rewrite bool_decide_eq_true, bool_decide_eq_false. lra.
Qed.

Lemma fgt_false_trans (x y z : npfloat) :
  isnan y = false → fgt x y = false → fgt y z = false → fgt x z = false.
Proof.
  destruct x, y, z; simpl; try done.
  rewrite !bool_decide_eq_false. intros _ ? ?. lra.
Qed.

(** [a.max()] of an array without NaN: an entry that no entry exceeds. *)
Lemma fmax_nan_no_nan (x a : npfloat) :
  isnan x = false → isnan a = false →
  fmax_nan x a = if fgt a x then a else x.
Proof. intros Hx Ha. unfold fmax_nan. by rewrite Hx, Ha. Qed.

Lemma fmax_fold_spec (l : list npfloat) (x : npfloat) :
  isnan x = false → (∀ y, y ∈ l → isnan y = false) →
  isnan (foldl fmax_nan x l) = false ∧
  (foldl fmax_nan x l = x ∨ foldl fmax_nan x l ∈ l) ∧
  fgt x (foldl fmax_nan x l) = false ∧
  ∀ y, y ∈ l → fgt y (foldl fmax_nan x l) = false.
Proof.
  revert x. induction l as [|a l IH]; intros x Hx Hl; cbn [foldl].
  - split_and!; auto using fgt_irrefl. by intros y ?%elem_of_nil.
  - assert (isnan a = false) as Ha by (apply Hl; left).
    assert (∀ y, y ∈ l → isnan y = false) as Hl' by (intros y ?; apply Hl; by right).
    rewrite fmax_nan_no_nan by done.
    destruct (fgt a x) eqn:Hax.
    + destruct (IH a Ha Hl') as (Hm & Hin & Ham & Hall).
      split_and!; auto.
      * destruct Hin as [-> | ?]; right; [left | by right].
      * apply (fgt_false_trans x a); auto using fgt_asym.
      * intros y [-> | ?]%elem_of_cons; auto.
    + destruct (IH x Hx Hl') as (Hm & Hin & Hxm & Hall).
      split_and!; auto.
      * destruct Hin as [-> | ?]; [by left | right; by right].
      * intros y [-> | ?]%elem_of_cons; auto.
        by apply (fgt_false_trans a x).
Qed.

Lemma np_max_spec (l : list npfloat) (M : npfloat) :
  (∀ y, y ∈ l → isnan y = false) → np_max l = Ok M →
  isnan M = false ∧ M ∈ l ∧ ∀ y, y ∈ l → fgt y M = false.
Proof.
  destruct l as [|x l]; [done|]. intros Hl [= <-].
  destruct (fmax_fold_spec l x) as (Hm & Hin & Hxm & Hall).
  { apply Hl. left. }
  { intros y ?. apply Hl. by right. }
  split_and!; auto.
  - destruct Hin as [-> | ?]; [left | by right].
  - intros y [-> | ?]%elem_of_cons; auto.
Qed.

(** [a.argmax()] of an array of finite numbers: a position whose entry no
    entry exceeds. *)
Lemma arg_best_finite (pre l : list npfloat) (bi : nat) (bv : npfloat) :
  (∀ y, y ∈ pre ++ l → isfinite y = true) →
  pre !! bi = Some bv → (∀ y, y ∈ pre → fgt y bv = false) →
  ∃ v, (pre ++ l) !! arg_best (nan_or fgt) l (length pre) bi bv = Some v ∧
       ∀ y, y ∈ pre ++ l → fgt y v = false.
Proof.
  revert pre bi bv. induction l as [|x l IH]; intros pre bi bv Hfin Hbi Hpre.
  - rewrite app_nil_r. simpl. eauto.
  - assert (isfinite x = true) as Hx.
    { apply Hfin, elem_of_app. right. left. }
    assert (isfinite bv = true) as Hbv.
    { apply Hfin, elem_of_app. left. by eapply list_elem_of_lookup_2. }
    cbn [arg_best]. unfold nan_or.
    replace (isnan bv) with false by (by destruct bv).
    replace (isnan x) with false by (by destruct x).
    replace (pre ++ x :: l) with ((pre ++ [x]) ++ l) in * by (by rewrite <- app_assoc).
    replace (S (length pre)) with (length (pre ++ [x]))
      by (rewrite length_app; simpl; lia).
    destruct (fgt x bv) eqn:Hxb.
    + apply IH; auto.
      * by rewrite list_lookup_middle.
      * intros y [Hy | ->%list_elem_of_singleton]%elem_of_app;
          [|apply fgt_irrefl].
        apply (fgt_false_trans y bv); auto using fgt_asym. by destruct bv.
    + apply IH; auto.
      * by apply lookup_app_l_Some.
      * intros y [Hy | ->%list_elem_of_singleton]%elem_of_app; auto.
Qed.

Lemma np_argmax_finite (ws : list npfloat) (j : nat) :
  (∀ y, y ∈ ws → isfinite y = true) → np_argmax ws = Ok j →
  ∃ v, ws !! j = Some v ∧ ∀ y, y ∈ ws → fgt y v = false.
Proof.
  destruct ws as [|x ws]; [done|]. intros Hfin [= <-].
  apply (arg_best_finite [x] ws 0 x); auto.
  intros y ->%list_elem_of_singleton. apply fgt_irrefl.
Qed.

(** [a.argmax()] of an array with a NaN: the position of a NaN. *)
Lemma arg_best_nan (pre l : list npfloat) (bi : nat) (bv : npfloat) :
  pre !! bi = Some bv → bv = NaN ∨ NaN ∈ l →
  (pre ++ l) !! arg_best (nan_or fgt) l (length pre) bi bv = Some NaN.
Proof.
  revert pre bi bv. induction l as [|x l IH]; intros pre bi bv Hbi Hnan.
  - destruct Hnan as [-> | ?%elem_of_nil]; [|done].
    by rewrite app_nil_r.
  - cbn [arg_best]. unfold nan_or.
    replace (pre ++ x :: l) with ((pre ++ [x]) ++ l) by (by rewrite <- app_assoc).
    replace (S (length pre)) with (length (pre ++ [x]))
      by (rewrite length_app; simpl; lia).
    destruct (isnan bv) eqn:Hbv.
    + apply IH; [by apply lookup_app_l_Some | left; by destruct bv].
    + destruct (isnan x) eqn:Hx.
      * apply IH; [by rewrite list_lookup_middle | left; by destruct x].
      * assert (NaN ∈ l) as Hl.
        { destruct Hnan as [-> | [<- | ?]%elem_of_cons]; done. }
        destruct (fgt x bv); apply IH; auto.
        -- by rewrite list_lookup_middle.
        -- by apply lookup_app_l_Some.
Qed.

Lemma np_argmax_nan (ws : list npfloat) (j : nat) :
  NaN ∈ ws → np_argmax ws = Ok j → ws !! j = Some NaN.
Proof.
  destruct ws as [|x ws]; [done|]. intros Hnan [= <-].
  apply (arg_best_nan [x] ws 0 x); [done|].
  apply elem_of_cons in Hnan as [<- | ?]; auto.
Qed.

(** The largest weight [exp(lnp - max)] sits on a row whose [lnp] is the
    maximum. *)
Lemma argmax_weights_peak (l : list npfloat) (M : npfloat) (j : nat) :
  (∀ y, y ∈ l → isnan y = false) → np_max l = Ok M →
  np_argmax ((λ x, fexp (fsub x M)) <$> l) = Ok j →
  l !! j = Some M.
Proof.
  intros Hl Hmax Harg.
  destruct (np_max_spec l M Hl Hmax) as (HM & Hin & Hbound).
  destruct M as [m| | |]; [| | |done].
  - assert (∀ y, y ∈ (λ x, fexp (fsub x (Fin m))) <$> l → isfinite y = true)
      as Hfin.
    { intros y (x & -> & Hx)%list_elem_of_fmap.
      specialize (Hl x Hx). specialize (Hbound x Hx). by destruct x. }
    destruct (np_argmax_finite _ j Hfin Harg) as (v & Hv & Hall).
    rewrite list_lookup_fmap in Hv.
    destruct (l !! j) as [x|] eqn:Hx; [|done]. injection Hv as <-.
    assert (fgt (fexp (fsub (Fin m) (Fin m))) (fexp (fsub x (Fin m))) = false)
      as Hw by (apply Hall, list_elem_of_fmap; eauto).
    assert (x ∈ l) as Hxl by (by eapply list_elem_of_lookup_2).
    specialize (Hl x Hxl). specialize (Hbound x Hxl).
    destruct x as [r| | |]; simpl in *; try done.
    + apply bool_decide_eq_false in Hw, Hbound. f_equal. f_equal.
      destruct (Rlt_le_dec r m) as [Hlt|Hle]; [|lra].
      exfalso. apply Hw. apply exp_increasing. lra.
    + apply bool_decide_eq_false in Hw. exfalso. apply Hw.
      apply exp_pos.
  - assert (((λ x, fexp (fsub x PInf)) <$> l) !! j = Some NaN) as Hv.
    { apply np_argmax_nan; [|done]. apply list_elem_of_fmap.
      exists PInf. split; [reflexivity | exact Hin]. }
    rewrite list_lookup_fmap in Hv.
    destruct (l !! j) as [x|] eqn:Hx; [|done].
    assert (x ∈ l) as Hxl by (by eapply list_elem_of_lookup_2).
    specialize (Hl x Hxl). by destruct x.
  - assert (((λ x, fexp (fsub x NInf)) <$> l) !! j = Some NaN) as Hv.
    { apply np_argmax_nan; [|done]. apply list_elem_of_fmap.
      exists NInf. split; [reflexivity | exact Hin]. }
    rewrite list_lookup_fmap in Hv.
    destruct (l !! j) as [x|] eqn:Hx; [|done].
    assert (x ∈ l) as Hxl by (by eapply list_elem_of_lookup_2).
    specialize (Hl x Hxl). specialize (Hbound x Hxl). by destruct x.
Qed.

(** The row of the sparse set with the largest weight holds the largest
    total log posterior of all rows. *)
Lemma sparse_rows_peak (lnp : list npfloat) (thr : R) (indx : list nat)
    (lnps : list npfloat) (M : npfloat) (wi i : nat) :
  sparse_indx lnp thr = Ok indx → take_idx lnp indx = Ok lnps →
  np_max lnps = Ok M →
  np_argmax ((λ x, fexp (fsub x M)) <$> lnps) = Ok wi →
  indx !! wi = Some i →
  lnp !! i = Some M ∧ ∀ x, x ∈ lnp → fgt x M = false.
Proof.
  intros Hs HF%take_idx_spec Hmax Harg Hi.
  destruct (sparse_indx_max _ _ _ Hs) as (m & _ & Hmin & Hfm & Hb & Hindx).
  assert (∀ y, y ∈ lnps → isnan y = false) as Hnan.
  { intros y [j Hj]%list_elem_of_lookup_1.
    destruct (Forall2_lookup_r _ _ _ _ _ HF Hj) as (p & Hp & Hy).
    assert (p ∈ indx) as Hpi by (by eapply list_elem_of_lookup_2).
    rewrite Hindx in Hpi. apply np_where_spec in Hpi as (x & Hx & Hgt).
    assert (x = y) as -> by congruence. by destruct y. }
  pose proof (argmax_weights_peak lnps M wi Hnan Hmax Harg) as Hpeak.
  destruct (np_max_spec lnps M Hnan Hmax) as (HMn & HMin & Hbound).
  assert (lnp !! i = Some M) as HiM.
  { destruct (Forall2_lookup_l _ _ _ _ _ HF Hi) as (y & Hy & Hly). congruence. }
  split; [done|].
  intros x [p Hp]%list_elem_of_lookup_1.
  destruct (fgt (fsub x m) (Fin thr)) eqn:Hgt.
  - assert (p ∈ indx) as [j Hj]%list_elem_of_lookup_1.
    { rewrite Hindx. apply np_where_spec. eauto. }
    destruct (Forall2_lookup_l _ _ _ _ _ HF Hj) as (y & Hy & Hly).
    apply Hbound. assert (x = y) as -> by congruence.
    by eapply list_elem_of_lookup_2.
  - destruct (Rlt_le_dec thr 0) as [Hneg|Hpos].
    + assert (fgt m M = false) as HmM.
      { apply list_elem_of_lookup_1 in Hmin as [q Hq].
        assert (q ∈ indx) as [j Hj]%list_elem_of_lookup_1.
        { rewrite Hindx. apply np_where_spec. exists m. split; [done|].
          rewrite fsub_self_gt by done. by apply bool_decide_eq_true_2. }
        destruct (Forall2_lookup_l _ _ _ _ _ HF Hj) as (y & Hy & Hly).
        apply Hbound. assert (m = y) as -> by congruence.
        by eapply list_elem_of_lookup_2. }
      destruct x as [r| | |]; try done.
      * apply (fgt_false_trans (Fin r) m); auto; [by destruct m|].
        apply Hb; [by eapply list_elem_of_lookup_2 | done].
      * by destruct m.
    + assert (i ∈ indx) as Hii by (by eapply list_elem_of_lookup_2).
      pose proof (nonneg_threshold_rows _ _ _ Hpos Hs i Hii) as HiP.
      assert (M = PInf) as -> by congruence.
      by destruct x.
Qed.

Section BestFit.
Context `{Beast}.


End BestFit.


(** ** What a run may change *)

Section Frames.
Context `{Beast}.
Variable opts : Options.

Lemma touches_only_refl w : touches_only opts w w.
Proof. by split. Qed.

Lemma touches_only_trans w1 w2 w3 :
  touches_only opts w1 w2 → touches_only opts w2 w3 → touches_only opts w1 w3.
Proof.
  intros [Hg Hr Hs Hp Hl Hn] [Hg' Hr' Hs' Hp' Hl' Hn']. split.
  - congruence.
  - congruence.
  - intros n Hne. rewrite Hs' by done. by apply Hs.
  - intros n Hne. rewrite Hp' by done. by apply Hp.
  - intros n Hne Hpart. rewrite Hl' by done. by apply Hl.
  - intros Hcase. rewrite Hn' by done. by apply Hn.
Qed.

Lemma touches_only_no_outputs w w' :
  stats_outname opts = None → pdf1d_outname opts = None →
  lnp_outname opts = None → touches_only opts w w' → w = w'.
Proof.
  intros Hs Hp Hl [Hg Hr Hst Hpd Hln Hrp].
  destruct w as [s1 p1 l1 g1 r1 n1], w' as [s2 p2 l2 g2 r2 n2]. simpl in *.
  f_equal; auto.
  - apply map_eq. intros n. symmetry. apply Hst. by rewrite Hs.
  - apply map_eq. intros n. symmetry. apply Hpd. by rewrite Hp.
  - apply map_eq. intros n. symmetry. apply Hln; by rewrite Hl.
  - symmetry. apply Hrp. by left.
Qed.

Lemma frames_ret {A} (a : A) : frames opts (mret a).
Proof. intros w. apply touches_only_refl. Qed.

Lemma frames_lift {A} (r : result A) : frames opts (lift r).
Proof. intros w. apply touches_only_refl. Qed.

Lemma frames_bind_post {A B} (Q : A → Prop) (m : M A) (f : A → M B) :
  (∀ w a w', m w = (Ok a, w') → Q a) →
  frames opts m → (∀ a, Q a → frames opts (f a)) → frames opts (m ≫= f).
Proof.
  intros HQ Hm Hf w. specialize (Hm w). unfold mbind, M_bind.
  destruct (m w) as [[a|e] w'] eqn:Hmw; [|done].
  eapply touches_only_trans; [exact Hm|]. apply Hf. by eapply HQ.
Qed.

Lemma frames_bind {A B} (m : M A) (f : A → M B) :
  frames opts m → (∀ a, frames opts (f a)) → frames opts (m ≫= f).
Proof. intros Hm Hf. apply (frames_bind_post (λ _, True)); auto. Qed.

Lemma frames_try {A} (m : M A) handled (h : exn → M A) :
  frames opts m → (∀ e, frames opts (h e)) → frames opts (try_except m handled h).
Proof.
  intros Hm Hh w. specialize (Hm w). unfold try_except.
  destruct (m w) as [[a|e] w'] eqn:Hmw; [done|].
  destruct (handled e); [|done].
  eapply touches_only_trans; [exact Hm|]. apply Hh.
Qed.

Lemma frames_fmap {A B} (g : A → B) (m : M A) :
  frames opts m → frames opts (g <$> m).
Proof.
  intros Hm w. specialize (Hm w). unfold fmap, M_fmap.
  by destruct (m w) as [[a|e] w'].
Qed.

Lemma frames_forM {A S} (l : list A) (body : A → S → M S) (s : S) :
  (∀ x s, frames opts (body x s)) → frames opts (forM l body s).
Proof.
  intros Hb. revert s. induction l as [|x l IH]; intros s; simpl.
  - apply frames_ret.
  - apply frames_bind; auto.
Qed.

(** Reading never changes a file. *)
Lemma frames_load_grid sedgrid : frames opts (load_grid sedgrid).
Proof.
  intros w. destruct (load_grid sedgrid w) as [r w'] eqn:Hl.
  apply load_grid_world in Hl as ->. apply touches_only_refl.
Qed.

Lemma frames_Table_read name : frames opts (Table_read name).
Proof.
  intros w. unfold Table_read. destruct name as [path|]; [|apply touches_only_refl].
  destruct (stats_files w !! path); apply touches_only_refl.
Qed.

Lemma frames_fits_open name : frames opts (fits_open name).
Proof.
  intros w. unfold fits_open.
  destruct (pdf1d_files w !! name); apply touches_only_refl.
Qed.

(** Writing changes the file that is written. *)
Lemma touches_stats name (t : Table) w :
  stats_outname opts = Some name →
  touches_only opts w (set_stats <[name := t]> w).
Proof.
  intros Hn. split; try done. simpl. intros n Hne.
  apply lookup_insert_ne. congruence.
Qed.

Lemma touches_pdf1d name hdus w :
  pdf1d_outname opts = Some name →
  touches_only opts w (set_pdf1d <[name := hdus]> w).
Proof.
  intros Hn. split; try done. simpl. intros n Hne.
  apply lookup_insert_ne. congruence.
Qed.

Lemma touches_lnp f file w :
  lnp_target opts f → touches_only opts w (set_lnp <[f := file]> w).
Proof.
  intros (o & Ho & Hf). split; try done. simpl. intros n Hne Hp.
  apply lookup_insert_ne. destruct Hf as [-> | ->]; [congruence|].
  intros <-. by apply (Hp o).
Qed.

Lemma frames_openFile f mode : lnp_target opts f → frames opts (openFile f mode).
Proof.
  intros Hf w. unfold openFile. destruct mode.
  - by apply touches_lnp.
  - destruct (lnp_files w !! f) as [[|root]|];
      try apply touches_only_refl. by apply touches_lnp.
Qed.

Lemma openFile_handle f mode w a w' : openFile f mode w = (Ok a, w') → a = f.
Proof.
  unfold openFile. destruct mode; [by intros [= <- _]|].
  destruct (lnp_files w !! f) as [[|root]|]; by intros [= <- _].
Qed.

Lemma frames_createGroup f name title :
  lnp_target opts f → frames opts (createGroup f name title).
Proof.
  intros Hf w. unfold createGroup.
  destruct (lnp_files w !! f) as [[|root]|]; try apply touches_only_refl.
  destruct (root !! name); [apply touches_only_refl | by apply touches_lnp].
Qed.

Lemma frames_createArray_root f name data :
  lnp_target opts f → frames opts (createArray_root f name data).
Proof.
  intros Hf w. unfold createArray_root.
  destruct (lnp_files w !! f) as [[|root]|]; try apply touches_only_refl.
  destruct (root !! name); [apply touches_only_refl | by apply touches_lnp].
Qed.

Lemma frames_createArray f g name data :
  lnp_target opts f → frames opts (createArray f g name data).
Proof.
  intros Hf w. unfold createArray.
  destruct (lnp_files w !! f) as [[|root]|]; try apply touches_only_refl.
  destruct (root !! g) as [[|title members]|]; try apply touches_only_refl.
  destruct (members !! name); [apply touches_only_refl | by apply touches_lnp].
Qed.

Lemma frames_save_stats name prev_result mem qnames pv :
  stats_outname opts = Some name →
  frames opts (save_stats (Some name) prev_result mem qnames pv).
Proof.
  intros Hn. unfold save_stats. apply frames_bind; [apply frames_lift|].
  intros t w. by apply touches_stats.
Qed.

Lemma frames_save_pdf1d name vals qnames :
  pdf1d_outname opts = Some name → frames opts (save_pdf1d name vals qnames).
Proof.
  intros Hn. unfold save_pdf1d. apply frames_bind.
  - intros w. by apply touches_pdf1d.
  - intros _. apply frames_forM. intros kq []. apply frames_bind;
      [apply frames_lift|]. intros data w. by apply touches_pdf1d.
Qed.

Lemma frames_save_lnp_entry f v :
  lnp_target opts f → frames opts (save_lnp_entry f v).
Proof.
  intros Hf. unfold save_lnp_entry.
  apply (frames_bind_post (λ sg, ∀ g, sg = Some g → True)); [done| |].
  - apply frames_try; [|intros; apply frames_ret].
    apply frames_fmap. by apply frames_createGroup.
  - intros [g|] _; [|apply frames_ret].
    repeat (apply frames_bind; [by apply frames_createArray | intros _]).
    by apply frames_createArray.
Qed.

Lemma frames_save_lnp name vals r :
  lnp_outname opts = Some name → frames opts (save_lnp name vals r).
Proof.
  intros Hn.
  assert (lnp_target opts name) as Ht1 by (exists name; auto).
  assert (lnp_target opts (lnp_partial_name name)) as Ht2 by (exists name; auto).
  unfold save_lnp. apply (frames_bind_post (lnp_target opts)).
  - intros w a w'. unfold try_except.
    destruct (openFile name ModeA w) as [[a'|e] w1] eqn:Ho.
    + intros [= <- _]. by apply openFile_handle in Ho as ->.
    + intros ->%openFile_handle. done.
  - apply frames_try; [by apply frames_openFile|].
    intros _. by apply frames_openFile.
  - intros f Hf. apply frames_bind; [|intros; apply frames_ret].
    apply frames_forM. intros v []. by apply frames_save_lnp_entry.
Qed.

Lemma frames_save_all prev_result qnames mem :
  frames opts (save_all opts prev_result qnames mem).
Proof.
  unfold save_all.
  apply frames_bind.
  { destruct (pdf1d_outname opts) eqn:?;
      [by apply frames_save_pdf1d | apply frames_ret]. }
  intros _. apply frames_bind.
  { destruct (stats_outname opts) eqn:?;
      [by apply frames_save_stats | apply frames_ret]. }
  intros _. destruct (lnp_outname opts) eqn:?;
    [by apply frames_save_lnp | apply frames_ret].
Qed.

Lemma frames_incremental_save prev_result qnames e mem :
  frames opts (incremental_save opts prev_result qnames e mem).
Proof.
  unfold incremental_save. destruct (save_every_npts opts); [|apply frames_ret].
  apply frames_bind; [apply frames_lift|]. intros [|]; [|apply frames_ret].
  apply frames_bind; [apply frames_save_all|].
  intros _. destruct (lnp_outname opts); apply frames_ret.
Qed.

(** Drawing the random subsample moves the generator on, nothing else. *)
Lemma frames_random_choice a n name :
  lnp_outname opts = Some name → lnp_npts opts = Some n →
  frames opts (random_choice a n).
Proof.
  intros Hl Hn w. unfold random_choice.
  destruct a; [apply touches_only_refl|].
  split; try done. intros [? | ?]; congruence.
Qed.

Lemma frames_pending_lnp run e sed lnp chi2 indx pending :
  frames opts (pending_lnp opts run e sed lnp chi2 indx pending).
Proof.
  unfold pending_lnp. destruct (lnp_outname opts) as [name|] eqn:Hl;
    [|apply frames_ret].
  apply frames_bind.
  { destruct (lnp_npts opts) as [n|] eqn:Hn;
      [by eapply frames_random_choice | apply frames_ret]. }
  intros rindx. repeat (apply frames_bind; [apply frames_lift | intros ?]).
  apply frames_ret.
Qed.

Lemma frames_star_step run prev_result qnames obj mem :
  frames opts (star_step opts run prev_result qnames obj mem).
Proof.
  unfold star_step. apply frames_bind; [apply frames_lift|].
  intros [[lnp chi2] indx].
  apply frames_bind; [apply frames_pending_lnp|]. intros pending.
  apply frames_bind; [apply frames_lift|]. intros [[weights bfi] mem1].
  apply frames_bind; [apply frames_lift|]. intros mem2.
  apply frames_incremental_save.
Qed.

Lemma frames_resume_state qnames mem : frames opts (resume_state opts qnames mem).
Proof.
  unfold resume_state. apply frames_bind; [apply frames_Table_read|].
  intros tbl. repeat (apply frames_bind; [apply frames_lift | intros ?]).
  apply frames_bind; [|intros; apply frames_ret].
  destruct (pdf1d_outname opts); [|apply frames_ret].
  apply frames_bind; [apply frames_fits_open | intros; apply frames_lift].
Qed.

Lemma frames_fresh_state g obs mem : frames opts (fresh_state opts g obs mem).
Proof.
  unfold fresh_state. apply frames_bind; [|intros; apply frames_ret].
  destruct (lnp_outname opts) as [name|] eqn:Hl; [|apply frames_ret].
  assert (lnp_target opts name) as Ht by (exists name; auto).
  apply (frames_bind_post (lnp_target opts)).
  - by intros w a w' ->%openFile_handle.
  - by apply frames_openFile.
  - intros f Hf.
    repeat (apply frames_bind; [by apply frames_createArray_root | intros _]).
    apply frames_ret.
Qed.

Lemma frames_Q_all_memory prev_result obs sedgrid ast qnames :
  frames opts (Q_all_memory prev_result obs sedgrid ast qnames opts).
Proof.
  unfold Q_all_memory. apply frames_bind; [apply frames_load_grid|]. intros g.
  repeat (apply frames_bind; [apply frames_lift | intros ?]).
  apply frames_bind.
  { destruct (resume opts); [apply frames_resume_state | apply frames_fresh_state]. }
  intros st. apply frames_bind; [apply frames_lift|]. intros sg.
  apply frames_bind; [|intros; apply frames_save_all].
  apply frames_forM. intros obj mem. apply frames_star_step.
Qed.


End Frames.


(** ** The catalogue columns of the summary table *)

(** A loop of dictionary assignments [d[key x] = val x]: every name that is
    not assigned keeps its entry, and every assigned name holds the value of
    an assignment to that name. *)
Lemma foldR_inserts {X} (key : X → string) (val : X → result column)
    (f : Table → X → result Table) (l : list X) (d d' : Table) :
  (∀ d x, f d x = val x ≫= λ v, Ok (<[key x := v]> d)) →
  foldR f d l = Ok d' →
  (∀ n, (∀ x, x ∈ l → n ≠ key x) → d' !! n = d !! n) ∧
  (∀ x, x ∈ l → ∃ x' v, x' ∈ l ∧ key x' = key x ∧
                        val x' = Ok v ∧ d' !! key x = Some v).
Proof.
  intros Hf. revert d'. induction l as [|x0 l IH] using rev_ind; intros d' Hfold.
  - injection Hfold as <-. split; [done|]. by intros x ?%elem_of_nil.
  - rewrite foldR_app in Hfold. apply bindR_Ok in Hfold as (d1 & Hd1 & Hstep).
    destruct (IH d1 Hd1) as [Hkeep Hset]. simpl in Hstep. rewrite Hf in Hstep.
    destruct (val x0) as [v0|] eqn:Hv0; [|done].
    simpl in Hstep. injection Hstep as <-. split.
    + intros n Hn. rewrite lookup_insert_ne.
      * apply Hkeep. intros x Hx. apply Hn, elem_of_app. by left.
      * intros Heq. eapply Hn; [|by symmetry]. apply elem_of_app. right. left.
    + intros x Hx. destruct (decide (key x0 = key x)) as [Heq|Hne].
      * exists x0, v0. rewrite <- Heq, lookup_insert_eq.
        split_and!; auto. apply elem_of_app. right. left.
      * rewrite lookup_insert_ne by done.
        apply elem_of_app in Hx as [Hx | ->%list_elem_of_singleton]; [|done].
        destruct (Hset x Hx) as (x' & v & Hx' & Hn & Hv & Hl).
        exists x', v. split_and!; auto. apply elem_of_app. by left.
Qed.

Lemma data_get_Ok obs name c :
  data_get obs name = Ok c ↔ obs_data obs !! name = Some c.
Proof. unfold data_get. destruct (obs_data obs !! name); split; congruence. Qed.

Lemma data_num_Ok obs name v :
  data_num obs name = Ok v ↔ obs_data obs !! name = Some (NumCol v).
Proof.
  unfold data_num, data_get.
  destruct (obs_data obs !! name) as [[c|c]|]; simpl; split; congruence.
Qed.

Section IAU.
Context `{Beast}.


End IAU.


(** ** The column names of the summary table *)

Lemma app_String (c : Ascii.ascii) (a b : string) :
  String c a +:+ b = String c (a +:+ b).
Proof. reflexivity. Qed.

Lemma app_Empty (b : string) : "" +:+ b = b.
Proof. reflexivity. Qed.

Lemma all_chars_app f a b :
  all_chars f (a +:+ b) = all_chars f a && all_chars f b.
Proof.
  induction a as [|c a IH]; [done|].
  rewrite app_String. cbn [all_chars]. rewrite IH. by rewrite andb_assoc.
Qed.

Lemma last_char_app (a b : string) :
  b ≠ "" → last_char (a +:+ b) = last_char b.
Proof.
  intros Hb. induction a as [|c a IH]; [done|].
  rewrite app_String. cbn [last_char]. rewrite IH.
  destruct (a +:+ b) eqn:Hab; [|done].
  destruct a; [by rewrite app_Empty in Hab | by rewrite app_String in Hab].
Qed.

Lemma last_char_all f s c :
  all_chars f s = true → last_char s = Some c → f c = true.
Proof.
  induction s as [|a s IH]; [done|]. cbn [all_chars last_char].
  intros [Ha Hs]%andb_true_iff. destruct s; [by intros [= <-] | by apply IH].
Qed.

Lemma app_inv_tail_string (a b t : string) : a +:+ t = b +:+ t → a = b.
Proof.
  revert b. induction a as [|c a IH]; intros [|c' b] Heq.
  - done.
  - apply (f_equal String.length) in Heq.
    rewrite app_Empty, app_String in Heq. cbn [String.length] in Heq.
    rewrite string_length_app in Heq. lia.
  - apply (f_equal String.length) in Heq.
    rewrite app_Empty, app_String in Heq. cbn [String.length] in Heq.
    rewrite string_length_app in Heq. lia.
  - rewrite !app_String in Heq. injection Heq as -> Heq. f_equal. by apply IH.
Qed.

Lemma pretty_N_char_int (x : N) : int_char (pretty_N_char x) = true.
Proof.
  destruct x as [|q]; [done|].
  do 4 (try (destruct q as [q|q|]; try reflexivity)).
Qed.

Lemma pretty_N_go_int (x : N) (s : string) :
  ∃ d, pretty_N_go x s = d +:+ s ∧ all_chars int_char d = true ∧
       (0 < x → d ≠ "")%N.
Proof.
  revert s. induction (N.lt_wf_0 x) as [x _ IH]. intros s.
  destruct (decide (x = 0%N)) as [-> | Hx].
  - exists "". rewrite pretty_N_go_0. split_and!; [done..|lia].
  - rewrite pretty_N_go_step by lia.
    destruct (IH (x `div` 10)%N) with (s := String (pretty_N_char (x `mod` 10)) s)
      as (d & -> & Hd & _).
    { apply N.div_lt; lia. }
    exists (d +:+ String (pretty_N_char (x `mod` 10)) "").
    split_and!.
    + clear. induction d as [|c d IHd]; [done|]. rewrite !app_String. by f_equal.
    + rewrite all_chars_app, Hd. cbn [all_chars].
      by rewrite pretty_N_char_int.
    + intros _. by destruct d.
Qed.

Lemma pretty_N_int (x : N) :
  all_chars int_char (pretty x) = true ∧ pretty x ≠ "".
Proof.
  unfold pretty, pretty_N. case_decide as Hx; [done|].
  destruct (pretty_N_go_int x "") as (d & -> & Hd & Hne).
  assert (d +:+ "" = d) as ->.
  { clear. induction d as [|c d IH]; [done|]. rewrite app_String. by f_equal. }
  split; [done|]. apply Hne. lia.
Qed.

Lemma pretty_Z_int (x : Z) :
  all_chars int_char (pretty x) = true ∧ pretty x ≠ "".
Proof.
  destruct x as [|q|q]; [done| |].
  - change (pretty (Z.pos q)) with (pretty (N.pos q)). apply pretty_N_int.
  - change (pretty (Z.neg q)) with ("-" +:+ pretty (N.pos q)).
    destruct (pretty_N_int (N.pos q)) as [Hall _]. split; [|done].
    rewrite app_String, app_Empty. cbn [all_chars]. by rewrite Hall.
Qed.

(** The names of two different kinds of column never coincide. *)
Lemma last_char_Best q : last_char (name_Best q) = last_char "_Best".
Proof. unfold name_Best. by rewrite last_char_app. Qed.

Lemma last_char_Exp q : last_char (name_Exp q) = last_char "_Exp".
Proof. unfold name_Exp. by rewrite last_char_app. Qed.

Lemma last_char_p q x :
  ∃ c, last_char (name_p q x) = Some c ∧ int_char c = true.
Proof.
  unfold name_p. destruct (pretty_Z_int x) as [Hall Hne].
  rewrite !last_char_app by (done || by destruct (pretty x)).
  destruct (last_char (pretty x)) as [c|] eqn:Hc.
  - exists c. split; [done|]. by eapply last_char_all.
  - destruct (pretty x) as [|a s]; [done|]. exfalso. clear -Hc.
    revert a Hc. induction s as [|b s IH]; intros a; [done|].
    cbn [last_char]. intros H. by eapply IH.
Qed.

Lemma name_Best_inj q q' : name_Best q = name_Best q' → q = q'.
Proof. apply app_inv_tail_string. Qed.

Lemma name_Exp_inj q q' : name_Exp q = name_Exp q' → q = q'.
Proof. apply app_inv_tail_string. Qed.

Lemma name_p_inj_aux (q q' d d' : string) :
  all_chars int_char d = true → all_chars int_char d' = true →
  q +:+ "_p" +:+ d = q' +:+ "_p" +:+ d' → q = q' ∧ d = d'.
Proof.
  assert (∀ q d d', all_chars int_char d = true →
            "_p" +:+ d = q +:+ "_p" +:+ d' → q = "" ∧ d = d') as Hbase.
  { intros [|c [|c2 q3]] e e' He Heq.
    - rewrite app_Empty in Heq. split; [done|]. by injection Heq.
    - exfalso. rewrite !app_String, app_Empty in Heq. by injection Heq.
    - exfalso. rewrite !app_String, app_Empty in Heq.
      injection Heq as _ _ Heq. subst e.
      rewrite !all_chars_app in He. cbn in He.
      by rewrite andb_false_r in He. }
  revert q'. induction q as [|c q IH]; intros q' Hd Hd' Heq.
  - rewrite app_Empty in Heq. destruct (Hbase _ _ _ Hd Heq) as [-> ->]. done.
  - destruct q' as [|c' q'].
    + rewrite app_Empty in Heq. symmetry in Heq.
      by destruct (Hbase _ _ _ Hd' Heq) as [? _].
    + rewrite !app_String in Heq. injection Heq as -> Heq.
      destruct (IH q' Hd Hd' Heq) as [-> ->]. done.
Qed.

Lemma name_p_inj q q' x x' : name_p q x = name_p q' x' → q = q' ∧ x = x'.
Proof.
  unfold name_p. intros Heq.
  destruct (name_p_inj_aux q q' (pretty x) (pretty x')) as [-> Hp];
    [apply pretty_Z_int.. | done |].
  split; [done|]. by apply (inj pretty).
Qed.

Lemma name_Best_Exp q q' : name_Best q ≠ name_Exp q'.
Proof.
  intros Heq%(f_equal last_char). by rewrite last_char_Best, last_char_Exp in Heq.
Qed.

Lemma name_Best_p q q' x : name_Best q ≠ name_p q' x.
Proof.
  intros Heq%(f_equal last_char). rewrite last_char_Best in Heq.
  destruct (last_char_p q' x) as (c & Hc & Hint). rewrite Hc in Heq.
  injection Heq as <-. done.
Qed.

Lemma name_Exp_p q q' x : name_Exp q ≠ name_p q' x.
Proof.
  intros Heq%(f_equal last_char). rewrite last_char_Exp in Heq.
  destruct (last_char_p q' x) as (c & Hc & Hint). rewrite Hc in Heq.
  injection Heq as <-. done.
Qed.

Lemma fixed_not_generated (c : string) :
  c ∈ fixed_names →
  (∀ q, c ≠ name_Best q) ∧ (∀ q, c ≠ name_Exp q) ∧ (∀ q x, c ≠ name_p q x).
Proof.
  intros Hc. unfold fixed_names in Hc. split_and!.
  - intros q ->. rewrite !elem_of_cons, elem_of_nil in Hc.
    destruct Hc as [H|[H|[H|[H|[H|[]]]]]];
      apply (f_equal last_char) in H; by rewrite last_char_Best in H.
  - intros q ->. rewrite !elem_of_cons, elem_of_nil in Hc.
    destruct Hc as [H|[H|[H|[H|[H|[]]]]]];
      apply (f_equal last_char) in H; by rewrite last_char_Exp in H.
  - intros q x ->. rewrite !elem_of_cons, elem_of_nil in Hc.
    destruct (last_char_p q x) as (a & Ha & Hint).
    destruct Hc as [H|[H|[H|[H|[H|[]]]]]];
      apply (f_equal last_char) in H; rewrite Ha in H;
      injection H as ->; done.
Qed.

(** ** [save_stats]: the columns of the summary table *)

Lemma assign_Best mem d k q :
  assign mem d (ColBest k q)
  = col2 k (best_vals mem) ≫= λ b, Ok (<[name_Best q := NumCol b]> d).
Proof. unfold assign. simpl. by destruct (col2 k (best_vals mem)). Qed.

Lemma assign_Exp mem d k q :
  assign mem d (ColExp k q)
  = col2 k (exp_vals mem) ≫= λ x, Ok (<[name_Exp q := NumCol x]> d).
Proof. unfold assign. simpl. by destruct (col2 k (exp_vals mem)). Qed.

Lemma assign_P mem d k q i x :
  assign mem d (ColP k q i x)
  = col3 k i (per_vals mem) ≫= λ c, Ok (<[name_p q x := NumCol c]> d).
Proof. unfold assign. simpl. by destruct (col3 k i (per_vals mem)). Qed.

Lemma stats_inner_assign (mem : Mem) (k : nat) (q : string)
    (l : list (nat * Z)) (d : Table) :
  foldR (λ d ip, c ← col3 k ip.1 (per_vals mem);
                 Ok (<[name_p q ip.2 := NumCol c]> d)) d l
  = foldR (assign mem) d ((λ ip : nat * Z, ColP k q ip.1 ip.2) <$> l).
Proof.
  revert d. induction l as [|ip l IH]; intros d; [done|].
  cbn [foldR fmap list_fmap]. rewrite assign_P.
  destruct (col3 k ip.1 (per_vals mem)) as [c|];
    cbn [mbind result_bind]; [apply IH | done].
Qed.

Lemma stats_outer_assign (mem : Mem) (pv : list Z)
    (l : list (nat * string)) (d : Table) :
  foldR (λ d kq,
      b ← col2 kq.1 (best_vals mem);
      x ← col2 kq.1 (exp_vals mem);
      let d := <[name_Exp kq.2 := NumCol x]> (<[name_Best kq.2 := NumCol b]> d) in
      foldR (λ d ip, c ← col3 kq.1 ip.1 (per_vals mem);
                     Ok (<[name_p kq.2 ip.2 := NumCol c]> d))
            d (imap pair pv)) d l
  = foldR (assign mem) d (l ≫= stat_cols_of pv).
Proof.
  revert d. induction l as [|kq l IH]; intros d; [done|].
  cbn [foldR mbind list_bind]. rewrite foldR_app.
  change (stat_cols_of pv kq) with
    (ColBest kq.1 kq.2 :: ColExp kq.1 kq.2 ::
     ((λ ip : nat * Z, ColP kq.1 kq.2 ip.1 ip.2) <$> imap pair pv)).
  cbn [foldR]. rewrite assign_Best.
  destruct (col2 kq.1 (best_vals mem)) as [b|]; cbn [mbind result_bind]; [|done].
  rewrite assign_Exp.
  destruct (col2 kq.1 (exp_vals mem)) as [x|]; cbn [mbind result_bind]; [|done].
  rewrite stats_inner_assign.
  destruct (foldR (assign mem) _ _) as [d1|];
    cbn [mbind result_bind]; [apply IH | done].
Qed.

Lemma stats_dict_of_assign (prev : Table) (mem : Mem) (qnames : list string)
    (pv : list Z) (tbl : Table) :
  stats_dict_of prev mem qnames pv = Ok tbl →
  ∃ d, foldR (assign mem) prev (imap pair qnames ≫= stat_cols_of pv) = Ok d ∧
       tbl = <["specgrid_indx" := NumCol (best_specgrid_indx mem)]>
             (<["Pmax_indx" := NumCol (lnp_indx mem)]>
              (<["Pmax" := NumCol (lnp_vals mem)]>
               (<["chi2min_indx" := NumCol (chi2_indx mem)]>
                (<["chi2min" := NumCol (chi2_vals mem)]> d)))).
Proof.
  unfold stats_dict_of. rewrite stats_outer_assign.
  intros (d & Hd & [= <-])%bindR_Ok. eauto.
Qed.

Lemma stat_cols_elem (qnames : list string) (pv : list Z) (c : stat_col) :
  c ∈ imap pair qnames ≫= stat_cols_of pv ↔
  ∃ k q, qnames !! k = Some q ∧
         (c = ColBest k q ∨ c = ColExp k q ∨
          ∃ i x, pv !! i = Some x ∧ c = ColP k q i x).
Proof.
  rewrite list_elem_of_bind. split.
  - intros ([k q] & Hc & Hkq%imap_pair_elem). exists k, q. split; [done|].
    unfold stat_cols_of in Hc. cbn [fst snd] in Hc.
    rewrite !elem_of_cons, list_elem_of_fmap in Hc.
    destruct Hc as [-> | [-> | ([i x] & -> & Hix%imap_pair_elem)]]; eauto 10.
  - intros (k & q & Hkq & Hc). exists (k, q).
    split; [|by apply imap_pair_elem].
    unfold stat_cols_of. cbn [fst snd]. rewrite !elem_of_cons, list_elem_of_fmap.
    destruct Hc as [-> | [-> | (i & x & Hix & ->)]]; auto.
    right. right. exists (i, x). split; [done|]. by apply imap_pair_elem.
Qed.



(** ** The statistics of the parameters *)

Lemma set2_Ok {X} (i k : nat) (v : X) (a a' : list (list X)) :
  set2 i k v a = Ok a' ↔
  ∃ row, a !! i = Some row ∧ k < length row ∧ a' = <[i := <[k := v]> row]> a.
Proof.
  unfold set2. rewrite bindR_Ok. split.
  - intros (row & Hrow%get1_Ok & Hs).
    apply bindR_Ok in Hs as (row' & [Hk ->]%set1_Ok & [= <-]). eauto.
  - intros (row & Hrow%get1_Ok & Hk & ->). exists row. split; [done|].
    unfold set1. by rewrite decide_True.
Qed.

Lemma set_row3_Ok {X} (i k : nat) (vals : list X) (a a' : list (list (list X))) :
  set_row3 i k vals a = Ok a' ↔
  ∃ plane row row', a !! i = Some plane ∧ plane !! k = Some row ∧
                    broadcast1 (length row) vals = Ok row' ∧
                    a' = <[i := <[k := row']> plane]> a.
Proof.
  unfold set_row3. rewrite bindR_Ok. split.
  - intros (plane & Hp%get1_Ok & Hs).
    apply bindR_Ok in Hs as (plane' & (row & row' & Hr & Hb & ->)%set_row_Ok & [= <-]).
    eauto 10.
  - intros (plane & row & row' & Hp%get1_Ok & Hr & Hb & ->).
    exists plane. split; [done|].
    assert (set_row k vals plane = Ok (<[k := row']> plane)) as ->; [|done].
    apply set_row_Ok. eauto.
Qed.

Lemma broadcast1_length_eq {A} (n : nat) (vals vals' : list A) :
  broadcast1 n vals = Ok vals' → broadcast1 (length vals') vals = Ok vals'.
Proof. intros Hb. by rewrite (broadcast1_length _ _ _ Hb). Qed.

Section Params.
Context `{Beast}.

Lemma percentile_step_Ok run e k bins vals pers pers' :
  percentile_step run e k bins vals pers = Ok pers' ↔
  ∃ mx plane row row',
    np_max vals = Ok mx ∧ pers !! e = Some plane ∧ plane !! k = Some row ∧
    broadcast1 (length row)
      (if fgt mx fzero then percentile bins (_p run) ((λ v, fdiv v mx) <$> vals)
       else [fzero; fzero; fzero]) = Ok row' ∧
    pers' = <[e := <[k := row']> plane]> pers.
Proof.
  unfold percentile_step. rewrite bindR_Ok. split.
  - intros (mx & Hmx & Hs). exists mx.
    destruct (fgt mx fzero);
      apply set_row3_Ok in Hs as (plane & row & row' & ? & ? & ? & ->);
      eauto 10.
  - intros (mx & plane & row & row' & Hmx & Hp & Hr & Hb & ->).
    exists mx. split; [done|].
    destruct (fgt mx fzero); apply set_row3_Ok; eauto 10.
Qed.

(** The step of parameter [k] computes the entries of parameter [k]. *)
Lemma param_stats_sets run e indx weights best mem k q mem' :
  param_stats run e indx weights best mem (k, q) = Ok mem' →
  param_entry run e indx weights best k q mem'.
Proof.
  unfold param_stats. cbn [fst snd]. intros Hp.
  apply bindR_Ok in Hp as (col & Hcol & Hp).
  apply bindR_Ok in Hp as (bv & Hbv%get1_Ok & Hp).
  apply bindR_Ok in Hp as (best' & (brow & Hbrow & Hbk & ->)%set2_Ok & Hp).
  apply bindR_Ok in Hp as (sparse & Hsparse & Hp).
  apply bindR_Ok in Hp as (qs & Hqs & Hp).
  apply bindR_Ok in Hp as (exp' & (erow & Herow & Hek & ->)%set2_Ok & Hp).
  apply bindR_Ok in Hp as (obj & Hobj%get1_Ok & Hp).
  apply bindR_Ok in Hp as (sparse' & Hsparse' & Hp).
  assert (sparse' = sparse) as -> by congruence.
  apply bindR_Ok in Hp as (arr & Harr%get1_Ok & Hp).
  apply bindR_Ok in Hp as (arr' & (hrow & hist & Hhrow & Hhist & ->)%set_row_Ok & Hp).
  apply bindR_Ok in Hp as (per' & Hper & [= <-]).
  apply percentile_step_Ok in Hper
    as (mx & plane & prow & prow' & Hmx & Hplane & Hprow & Hb & ->).
  exists col, bv, sparse, qs, obj. cbn [best_vals exp_vals per_vals save_pdf1d_vals].
  split_and!; auto.
  - exists (<[k := bv]> brow). split.
    + apply list_lookup_insert_eq. by eapply lookup_lt_Some.
    + by apply list_lookup_insert_eq.
  - exists (<[k := expectation qs weights]> erow). split.
    + apply list_lookup_insert_eq. by eapply lookup_lt_Some.
    + by apply list_lookup_insert_eq.
  - exists (<[e := hist]> arr), hist. split_and!.
    + apply list_lookup_insert_eq. by eapply lookup_lt_Some.
    + apply list_lookup_insert_eq. by eapply lookup_lt_Some.
    + by eapply broadcast1_length_eq.
  - exists (<[k := prow']> plane), prow', mx. split_and!; auto.
    + apply list_lookup_insert_eq. by eapply lookup_lt_Some.
    + apply list_lookup_insert_eq. by eapply lookup_lt_Some.
    + by eapply broadcast1_length_eq.
Qed.

(** The step of another parameter leaves them alone. *)
Lemma param_stats_keeps run e indx weights best mem k q k' q' mem' :
  k' ≠ k →
  param_entry run e indx weights best k q mem →
  param_stats run e indx weights best mem (k', q') = Ok mem' →
  param_entry run e indx weights best k q mem'.
Proof.
  intros Hne (col & bv & sparse & qs & obj & Hcol & Hbv & Hsp & Hqs & Hobj &
              (brow & Hbrow & Hbk) & (erow & Herow & Hek) &
              (arr & hist & Harr & Hhist & Hhb) &
              (plane & prow & mx & Hplane & Hprow & Hmx & Hpb)).
  unfold param_stats. cbn [fst snd]. intros Hp.
  apply bindR_Ok in Hp as (col' & _ & Hp).
  apply bindR_Ok in Hp as (bv' & _ & Hp).
  apply bindR_Ok in Hp as (best' & (brow' & Hbrow' & _ & ->)%set2_Ok & Hp).
  apply bindR_Ok in Hp as (sparse' & _ & Hp).
  apply bindR_Ok in Hp as (qs' & _ & Hp).
  apply bindR_Ok in Hp as (exp' & (erow' & Herow' & _ & ->)%set2_Ok & Hp).
  apply bindR_Ok in Hp as (obj' & _ & Hp).
  apply bindR_Ok in Hp as (sparse'' & _ & Hp).
  apply bindR_Ok in Hp as (arr0 & Harr0%get1_Ok & Hp).
  apply bindR_Ok in Hp as (arr' & _ & Hp).
  apply bindR_Ok in Hp as (per' & Hper & [= <-]).
  apply percentile_step_Ok in Hper
    as (mx' & plane' & prow0 & prow' & _ & Hplane' & _ & _ & ->).
  assert (brow' = brow) as -> by congruence.
  assert (erow' = erow) as -> by congruence.
  assert (plane' = plane) as -> by congruence.
  exists col, bv, sparse, qs, obj. cbn [best_vals exp_vals per_vals save_pdf1d_vals].
  split_and!; auto.
  - exists (<[k' := bv']> brow). split.
    + apply list_lookup_insert_eq. by eapply lookup_lt_Some.
    + by rewrite list_lookup_insert_ne.
  - exists (<[k' := expectation qs' weights]> erow). split.
    + apply list_lookup_insert_eq. by eapply lookup_lt_Some.
    + by rewrite list_lookup_insert_ne.
  - exists arr, hist. split_and!; auto. by rewrite list_lookup_insert_ne.
  - exists (<[k' := prow']> plane), prow, mx. split_and!; auto.
    + apply list_lookup_insert_eq. by eapply lookup_lt_Some.
    + by rewrite list_lookup_insert_ne.
Qed.

Lemma param_stats_fold_keeps run e indx weights best k q kqs mem mem' :
  k ∉ kqs.*1 →
  param_entry run e indx weights best k q mem →
  foldR (param_stats run e indx weights best) mem kqs = Ok mem' →
  param_entry run e indx weights best k q mem'.
Proof.
  revert mem. induction kqs as [|[k' q'] kqs IH]; intros mem Hk Hent Hf.
  - by injection Hf as <-.
  - cbn [foldR] in Hf. apply bindR_Ok in Hf as (mem1 & Hstep & Hf).
    rewrite fmap_cons, not_elem_of_cons in Hk. destruct Hk as [Hne Hk].
    eapply IH; [done| |exact Hf].
    eapply param_stats_keeps; [|exact Hent|exact Hstep]. cbn in Hne. congruence.
Qed.

Lemma param_stats_fold_sets run e indx weights best k q kqs mem mem' :
  NoDup kqs.*1 → (k, q) ∈ kqs →
  foldR (param_stats run e indx weights best) mem kqs = Ok mem' →
  param_entry run e indx weights best k q mem'.
Proof.
  revert mem. induction kqs as [|[k' q'] kqs IH]; intros mem Hnd Hin Hf.
  - by apply elem_of_nil in Hin.
  - cbn [foldR] in Hf. apply bindR_Ok in Hf as (mem1 & Hstep & Hf).
    rewrite fmap_cons in Hnd. apply NoDup_cons in Hnd as [Hk' Hnd].
    apply elem_of_cons in Hin as [[= <- <-] | Hin].
    + eapply param_stats_fold_keeps; [exact Hk'| |exact Hf].
      by eapply param_stats_sets.
    + by eapply IH.
Qed.

(** X27.  After the loop over the parameters of star [e], for parameter
    [k] named [q]: [best_vals[e,k]] is the grid column [q] at the best-fit
    row; [exp_vals[e,k]] is [expectation] of the column over the sparse set
    with the star's weights; row [e] of the 1D PDF array [k] is the
    histogram [gen1d] returns, as returned (not normalised); and
    [per_vals[e,k,:]] is [percentile] of the histogram divided by its
    maximum when that maximum is positive, and the three zeros of line 385
    otherwise.  The step of one parameter never disturbs the entries of
    another. *)
Theorem param_stats_values (run : Run) (e : nat) (indx : list nat)
    (weights : list npfloat) (best : nat) (qnames : list string)
    (mem mem' : Mem) (k : nat) (q : string) :
  foldR (param_stats run e indx weights best) mem (imap pair qnames) = Ok mem' →
  qnames !! k = Some q →
  ∃ col bv sparse qs obj,
    grid_get (g0 run) q = Ok col ∧ col !! best = Some bv ∧
    take_idx (g0_indxs run) indx = Ok sparse ∧ take_idx col sparse = Ok qs ∧
    fast_pdf1d_objs run !! k = Some obj ∧
    (∃ row, best_vals mem' !! e = Some row ∧ row !! k = Some bv) ∧
    (∃ row, exp_vals mem' !! e = Some row ∧
            row !! k = Some (expectation qs weights)) ∧
    (∃ arr hist, save_pdf1d_vals mem' !! k = Some arr ∧ arr !! e = Some hist ∧
                 broadcast1 (length hist) (gen1d obj sparse weights).2 = Ok hist) ∧
    (∃ plane prow mx,
       per_vals mem' !! e = Some plane ∧ plane !! k = Some prow ∧
       np_max (gen1d obj sparse weights).2 = Ok mx ∧
       broadcast1 (length prow)
         (if fgt mx fzero
          then percentile (gen1d obj sparse weights).1 (_p run)
                 ((λ v, fdiv v mx) <$> (gen1d obj sparse weights).2)
          else [fzero; fzero; fzero]) = Ok prow).
Proof.
  intros Hf Hk.
  unfold param_entry in *.
  eapply (param_stats_fold_sets run e indx weights best k q);
    [apply imap_pair_NoDup | by apply imap_pair_elem | exact Hf].
Qed.

End Params.

(** The parameter loop of the demo star. *)
Lemma demo_param_stats_runs :
  foldR (@param_stats demo_beast demo_run 0 [0] [Fin 1] 0) demo_mem3
        (imap pair ["mass"])
  = Ok (mkMem [[Fin 1]] (zeros2 1 1) (zeros3 1 1 3) (zeros1 1) (zeros1 1)
              (zeros1 1) (zeros1 1) (zeros1 1)
              [[[fzero; fzero]; [Fin 1; Fin 1]]] []).
Proof. reval. Qed.

(** X27, instance: the parameter "mass" of the demo star. *)
Lemma param_stats_values_witness :
  ∃ col bv sparse qs obj,
    grid_get demo_grid "mass" = Ok col ∧ col !! 0 = Some bv ∧
    take_idx [0; 1] [0] = Ok sparse ∧ take_idx col sparse = Ok qs ∧
    fast_pdf1d_objs demo_run !! 0 = Some obj ∧
    (∃ row, [[Fin 1]] !! 0 = Some row ∧ row !! 0 = Some bv) ∧
    (∃ row, zeros2 1 1 !! 0 = Some row ∧
            row !! 0 = Some (@expectation demo_beast qs [Fin 1])) ∧
    (∃ arr hist, [[[fzero; fzero]; [Fin 1; Fin 1]]] !! 0 = Some arr ∧
                 arr !! 0 = Some hist ∧
                 broadcast1 (length hist) (gen1d obj sparse [Fin 1]).2 = Ok hist) ∧
    (∃ plane prow mx,
       zeros3 1 1 3 !! 0 = Some plane ∧ plane !! 0 = Some prow ∧
       np_max (gen1d obj sparse [Fin 1]).2 = Ok mx ∧
       broadcast1 (length prow)
         (if fgt mx fzero
          then @percentile demo_beast (gen1d obj sparse [Fin 1]).1 (_p demo_run)
                 ((λ v, fdiv v mx) <$> (gen1d obj sparse [Fin 1]).2)
          else [fzero; fzero; fzero]) = Ok prow).
Proof.
  apply (@param_stats_values demo_beast demo_run 0 [0] [Fin 1] 0 ["mass"]
           demo_mem3 _ 0 "mass" demo_param_stats_runs).
  reflexivity.
Defined.

(** ** The rows of the result arrays after the loop *)

Lemma only_rows_lookup {X} (P : nat → Prop) (a a' : list X) (e : nat) :
  only_rows P a a' → ¬ P e → a' !! e = a !! e.
Proof. intros [_ Hr] Hne. by apply Hr. Qed.

Section StarEntry.
Context `{Beast}.

(** Entries of row [e] survive whatever changes other rows only. *)
Lemma param_entry_frame (P : nat → Prop) run e indx weights best k q mem mem' :
  mem_frame P mem mem' → ¬ P e →
  param_entry run e indx weights best k q mem →
  param_entry run e indx weights best k q mem'.
Proof.
  intros [Hb He Hp _ _ _ _ _ Hpdf] Hne
         (col & bv & sparse & qs & obj & Hcol & Hbv & Hsp & Hqs & Hobj &
          (brow & Hbrow & Hbk) & (erow & Herow & Hek) &
          (arr & hist & Harr & Hhist & Hhb) &
          (plane & prow & mx & Hplane & Hprow & Hmx & Hpb)).
  exists col, bv, sparse, qs, obj. split_and!; auto.
  - exists brow. by rewrite (only_rows_lookup P _ _ e Hb).
  - exists erow. by rewrite (only_rows_lookup P _ _ e He).
  - destruct (Forall2_lookup_l _ _ _ _ _ Hpdf Harr) as (arr' & Harr' & Hrows).
    exists arr', hist. by rewrite (only_rows_lookup P _ _ e Hrows).
  - exists plane, prow, mx. by rewrite (only_rows_lookup P _ _ e Hp).
Qed.

Lemma star_entry_frame (P : nat → Prop) run thr qnames e sed mem mem' :
  mem_frame P mem mem' → ¬ P e →
  star_entry run thr qnames e sed mem → star_entry run thr qnames e sed mem'.
Proof.
  intros Hfr Hne
         (lnp & chi2 & indx & lnps & chi2s & i & pmax & best & cmin & ci & j &
          cfull & Hpost & Hlnps & Hchi2s & Hi & Hpm & Hbound & Hbest & H1 & H2 &
          H3 & Hcmin & H4 & Hci & Hj & Hcfull & H5 & Hpar).
  pose proof Hfr as [_ _ _ Hc Hci' Hl Hli Hsp _].
  exists lnp, chi2, indx, lnps, chi2s, i, pmax, best, cmin, ci, j, cfull.
  split_and!; auto.
  - by rewrite (only_rows_lookup P _ _ e Hl).
  - by rewrite (only_rows_lookup P _ _ e Hli).
  - by rewrite (only_rows_lookup P _ _ e Hsp).
  - by rewrite (only_rows_lookup P _ _ e Hc).
  - by rewrite (only_rows_lookup P _ _ e Hci').
  - intros k q Hk. eapply param_entry_frame; eauto.
Qed.

(** The step of star [e] fills row [e]. *)
Lemma star_step_entry opts run prev_result qnames e sed mem mem' w w' :
  star_step opts run prev_result qnames (e, sed) mem w = (Ok mem', w') →
  star_entry run (threshold opts) qnames e sed mem'.
Proof.
  intros (lnp & chi2 & indx & pending & w1 & weights & best & mem1 & mem2
          & Hpost & _ & Hst & Hpar & Hinc)%star_step_inv.
  pose proof Hpost as (l0 & prior & _ & _ & _ & _ & Hs)%posterior_inv.
  pose proof Hst as
    (lnps & chi2s & M & cmin & wi & ci & cfull & sg & Hlnps & Hchi2s & Hmax &
     Hcmin & -> & Harg & (i & Hi & Hbest) & Hci & (j & Hj & Hcfull) & Hsg &
     He1 & He2 & He3 & He4 & He5 & Hmem1)%star_stats_inv.
  destruct (sparse_rows_peak _ _ _ _ _ _ _ Hs Hlnps Hmax Harg Hi) as [HiM Hbound].
  pose proof (param_stats_fold_frame _ _ _ _ _ _ _ _ Hpar)
    as (_ & Hc & Hci' & Hl & Hli & Hsp & _).
  assert (star_entry run (threshold opts) qnames e sed mem2) as Hent.
  { exists lnp, chi2, indx, lnps, chi2s, i, M, best, cmin, ci, j, cfull.
    rewrite Hc, Hci', Hl, Hli, Hsp, Hmem1. cbn.
    split_and!; auto.
    - by eapply list_elem_of_lookup_2.
    - by apply list_lookup_insert_eq.
    - by apply list_lookup_insert_eq.
    - rewrite Hsg. by apply list_lookup_insert_eq.
    - by apply list_lookup_insert_eq.
    - by apply list_lookup_insert_eq.
    - intros k q Hk.
      eapply param_stats_fold_sets;
        [apply imap_pair_NoDup | by apply imap_pair_elem | exact Hpar]. }
  apply incremental_save_inv in Hinc as [-> | ->]; [done|].
  eapply (star_entry_frame (λ _, False)); [apply mem_frame_pending | tauto | done].
Qed.

Lemma star_loop_entry opts run prev_result qnames stars e sed mem mem' w w' :
  NoDup stars.*1 → (e, sed) ∈ stars →
  forM stars (star_step opts run prev_result qnames) mem w = (Ok mem', w') →
  star_entry run (threshold opts) qnames e sed mem'.
Proof.
  revert mem w. induction stars as [|[e' sed'] stars IH]; intros mem w Hnd Hin Hl.
  - by apply elem_of_nil in Hin.
  - cbn [forM] in Hl. apply bindM_Ok in Hl as (mem1 & w1 & Hstep & Hl).
    rewrite fmap_cons in Hnd. apply NoDup_cons in Hnd as [Hnot Hnd].
    apply elem_of_cons in Hin as [[= <- <-] | Hin].
    + apply star_step_entry in Hstep. apply star_loop_frame in Hl.
      eapply star_entry_frame; [exact Hl | exact Hnot | exact Hstep].
    + by eapply IH.
Qed.


End StarEntry.

